(** * TAKtick: the participant list, the framer and the broadcast of
    [TAKtick.c], embedded in Rocq.

    The C program is a single-threaded relay: it accepts TCP clients, gathers
    each client's bytes in a growable buffer, cuts the buffer at the
    terminator ["</event>"] and sends every completed message to all the
    participants.  The embedding keeps the program's own shape:

    - [int] values are [Z] with the 32-bit wrap-around written out;
    - a buffer is the whole allocated block, a [list byte] as long as the
      allocation, the valid bytes being the first [length] of it;
    - the intrusive linked list is a [list], a node pointer is an index;
    - the sockets, the allocator and the log of system calls make up an
      explicit [world] that every function threads through.

    Every [recv] of the model is a non-blocking attempt: the connections
    are taken to be in the mode [set_nonblocking] asks for.  What is left
    out has no bearing on the list or the buffers: the release of memory by
    [free], the terminal and signal handling, and the set-up of the
    listening socket in [main]. *)

From Stdlib Require Import ZArith Lia Bool.
From Stdlib Require Import Strings.String Strings.Byte.
From stdpp Require Import base list gmap.

Local Open Scope Z_scope.

(** ** Machine integers *)

(** Reduction of a mathematical integer to the range of a C [int]. *)
Definition wrap32 (x : Z) : Z := (x + 2 ^ 31) mod 2 ^ 32 - 2 ^ 31.

Definition INT_MAX : Z := 2 ^ 31 - 1.

(** ** Constants of the program *)

Definition terminator_string : list byte :=
  list_byte_of_string "</event>".
Definition terminator_length : Z := 8.
Definition buffer_chunk_size : Z := 65536.

(** [errno] value of a receive that found no data (Linux). *)
Definition EAGAIN : Z := 11.

(** File status flag of a descriptor that does not wait (Linux, [04000]). *)
Definition O_NONBLOCK : Z := 2048.

(** Number of descriptors an [fd_set] has room for (Linux). *)
Definition FD_SETSIZE : Z := 1024.

(** [sizeof (struct participant_list_struct)] where pointers take eight
    bytes: the socket, the flag and its padding, the pointer to the block,
    the two lengths and the link. *)
Definition sizeof_participant_list_struct : Z := 32.

(** ** Data model *)

Definition SOCKET := Z.

(** One node of the participant list; the [next] pointer is the tail of the
    Rocq list that holds the node. *)
Record participant_list_struct : Type := mk_participant {
  socket : SOCKET;
  closed : bool;
  buffer : list byte;
  length : Z;
  max_length : Z
}.

Record server_context_type : Type := mk_ctx {
  participant_list_base : list participant_list_struct;
  participant_count : Z
}.

Definition set_closed (p : participant_list_struct) (c : bool) :=
  mk_participant (socket p) c (buffer p) (length p) (max_length p).
Definition set_buffer (p : participant_list_struct) (b : list byte) :=
  mk_participant (socket p) (closed p) b (length p) (max_length p).
Definition set_length (p : participant_list_struct) (n : Z) :=
  mk_participant (socket p) (closed p) (buffer p) n (max_length p).
Definition set_max_length (p : participant_list_struct) (n : Z) :=
  mk_participant (socket p) (closed p) (buffer p) (length p) n.

Definition set_base (ctx : server_context_type)
    (l : list participant_list_struct) : server_context_type :=
  mk_ctx l (participant_count ctx).

(** ** The world outside the process *)

(** What the peer of a connection left in the socket's queue: a run of bytes,
    a failure with its [errno], or the end of the stream. *)
Inductive arrival : Type :=
| Bytes (bs : list byte)
| Failure (errno : Z)
| Shutdown.

(** System calls, in the order the program makes them. *)
Inductive syscall : Type :=
| SysAccept (result : SOCKET)
| SysRecv (s : SOCKET) (result : Z)
| SysSend (s : SOCKET) (bytes : list byte) (result : Z)
| SysClose (s : SOCKET)
| SysFcntlGet (s : SOCKET) (result : Z)
| SysFcntlSet (s : SOCKET) (flags : Z).

Record world : Type := mk_world {
  (** pending input of each connection, oldest first *)
  inbound : gmap Z (list arrival);
  (** results of the successive calls of [accept], oldest first *)
  backlog : list SOCKET;
  (** result of the n-th call of [send] *)
  send_outcome : nat -> Z;
  (** number of calls of [send] made so far *)
  sends : nat;
  (** whether the allocator serves a request of the given size *)
  heap_serves : Z -> bool;
  (** what [fcntl (s, F_GETFL)] returns for the connection accepted as [s] *)
  getfl_outcome : SOCKET -> Z;
  (** system calls made so far, most recent first *)
  trace : list syscall
}.

Definition log (e : syscall) (w : world) : world :=
  mk_world (inbound w) (backlog w) (send_outcome w) (sends w)
           (heap_serves w) (getfl_outcome w) (e :: trace w).

Definition set_inbound (w : world) (s : SOCKET) (q : list arrival) : world :=
  mk_world (<[s := q]> (inbound w)) (backlog w) (send_outcome w) (sends w)
           (heap_serves w) (getfl_outcome w) (trace w).

Definition pending (w : world) (s : SOCKET) : list arrival :=
  default [] (inbound w !! s).

(** Result of a computation that can hit the [assert] after an allocation,
    leave the behaviour the language defines ([Fault]: a pointer that is not
    a node of the list, an access outside a descriptor set), or use up the
    fuel of a loop. *)
Inductive outcome (A : Type) : Type :=
| Done (a : A) (w : world)
| Abort (w : world)
| Fault
| OutOfFuel.
Arguments Done {A} a w.
Arguments Abort {A} w.
Arguments Fault {A}.
Arguments OutOfFuel {A}.

(** ** Memory primitives *)

(** [memcmp]: sign of the first difference within the first [n] bytes. *)
Fixpoint memcmp (a b : list byte) (n : nat) : Z :=
  match n with
  | O => 0
  | S n' =>
      match a, b with
      | x :: a', y :: b' =>
          if Byte.eqb x y then memcmp a' b' n'
          else if (Byte.to_N x <? Byte.to_N y)%N then -1 else 1
      | [], [] => 0
      | [], _ :: _ => -1
      | _ :: _, [] => 1
      end
  end.

(** The loop of [memmem]: [h] is the rest of the haystack, the result is the
    distance of the match from [h]. *)
Fixpoint memmem_scan (h needle : list byte) (needlelen : nat) : option nat :=
  if (needlelen <=? List.length h)%nat then
    if memcmp h needle needlelen =? 0 then Some O
    else match h with
         | [] => None
         | _ :: h' => S <$> memmem_scan h' needle needlelen
         end
  else None.

(** [memmem haystack haystacklen needle needlelen]: the haystack pointer is
    modelled by the bytes from it to the end of its block.  Neither pointer
    is [NULL] at the one call of the program: the block has passed the
    [assert], the needle is a string literal. *)
Definition memmem (haystack : list byte) (haystacklen : Z)
    (needle : list byte) (needlelen : Z) : option nat :=
  if (haystacklen =? 0) || (needlelen =? 0) then None
  else memmem_scan (take (Z.to_nat haystacklen) haystack) needle
                   (Z.to_nat needlelen).

(** [realloc block size]: the first bytes of the block are kept, the new ones
    are indeterminate, here zero. *)
Definition realloc (block : list byte) (size : Z) : list byte :=
  take (Z.to_nat size) block
  ++ replicate (Z.to_nat size - List.length block)%nat x00.

(** [memmove (block, block + src, n)]: the first [n] bytes of the block
    become the [n] bytes that start at [src]. *)
Definition memmove (block : list byte) (src n : Z) : list byte :=
  take (Z.to_nat n) (drop (Z.to_nat src) block) ++ drop (Z.to_nat n) block.

(** Bytes written by [recv] at offset [at] of the block. *)
Definition store (block : list byte) (at_ : Z) (data : list byte) : list byte :=
  take (Z.to_nat at_) block ++ data
  ++ drop (Z.to_nat at_ + List.length data)%nat block.

(** Conversion of an [int] to [size_t] (64 bits). *)
Definition size_t (x : Z) : Z := x mod 2 ^ 64.

(** ** System calls *)

(** What queued input costs the drain loop at most, in iterations. *)
Fixpoint weight (q : list arrival) : nat :=
  match q with
  | [] => O
  | Bytes bs :: q' => S (List.length bs + weight q')
  | _ :: q' => S (weight q')
  end.

(** [recv (s, block + at, len, 0)] on a non-blocking stream socket: the result
    is the value returned, the [errno] and the bytes written at the pointer.
    At most [len] bytes of the oldest run are taken, the rest stays queued; an
    empty queue is "no data yet"; the end of the stream stays. *)
Definition recv (s : SOCKET) (len : Z) (w : world)
    : Z * Z * list byte * world :=
  match pending w s with
  | [] => (-1, EAGAIN, [], log (SysRecv s (-1)) w)
  | Bytes bs :: q =>
      let room := Z.to_nat (size_t len) in
      if (List.length bs <=? room)%nat then
        let n := wrap32 (Z.of_nat (List.length bs)) in
        (n, 0, bs, log (SysRecv s n) (set_inbound w s q))
      else
        let n := wrap32 (Z.of_nat room) in
        (n, 0, take room bs,
         log (SysRecv s n) (set_inbound w s (Bytes (drop room bs) :: q)))
  | Failure e :: q => (-1, e, [], log (SysRecv s (-1)) (set_inbound w s q))
  | Shutdown :: _ => (0, 0, [], log (SysRecv s 0) w)
  end.

(** [send (s, block, len, MSG_NOSIGNAL)]: the world decides the result. *)
Definition send (s : SOCKET) (block : list byte) (len : Z) (w : world)
    : Z * world :=
  let r := send_outcome w (sends w) in
  (r, mk_world (inbound w) (backlog w) (send_outcome w) (S (sends w))
               (heap_serves w) (getfl_outcome w)
               (SysSend s (take (Z.to_nat (size_t len)) block) r :: trace w)).

Definition accept (w : world) : SOCKET * world :=
  match backlog w with
  | [] => (-1, log (SysAccept (-1)) w)
  | s :: rest =>
      (s, mk_world (inbound w) rest (send_outcome w) (sends w)
                   (heap_serves w) (getfl_outcome w) (SysAccept s :: trace w))
  end.

Definition close (s : SOCKET) (w : world) : world := log (SysClose s) w.

(** [fcntl (s, F_GETFL)]: the file status flags, or [-1]. *)
Definition fcntl_getfl (s : SOCKET) (w : world) : Z * world :=
  let r := getfl_outcome w s in (r, log (SysFcntlGet s r) w).

(** [fcntl (s, F_SETFL, flags)]; the program does not look at the result. *)
Definition fcntl_setfl (s : SOCKET) (flags : Z) (w : world) : world :=
  log (SysFcntlSet s flags) w.

(** [set_nonblocking]: the flags are written back with [O_NONBLOCK] added
    when the value read is positive, and left alone otherwise. *)
Definition set_nonblocking (sock : SOCKET) (w : world) : world :=
  let '(opts, w1) := fcntl_getfl sock w in
  if opts >? 0 then fcntl_setfl sock (Z.lor opts O_NONBLOCK) w1 else w1.

(** ** The participant list *)

(** The search loop of [add_participant]: the node that holds the socket, if
    there is one. *)
Fixpoint find_participant (pnt : list participant_list_struct)
    (participant_socket : SOCKET) : option participant_list_struct :=
  match pnt with
  | [] => None
  | p :: next =>
      if socket p =? participant_socket then Some p
      else find_participant next participant_socket
  end.

Definition new_entry (participant_socket : SOCKET) : participant_list_struct :=
  mk_participant participant_socket false [] 0 0.

(** [add_participant]: the accepted socket is made non-blocking before the
    search; the node is allocated only when the search found none, and the
    [assert] on the allocation ends the process.  The new node goes after
    the last node the search visited, that is at the end of the list. *)
Definition add_participant (ctx : server_context_type) (w : world)
    : outcome server_context_type :=
  let '(participant_socket, w1) := accept w in
  if participant_socket <=? 0 then Done ctx w1
  else
    let w2 := set_nonblocking participant_socket w1 in
    match find_participant (participant_list_base ctx) participant_socket with
    | Some _ => Done ctx w2
    | None =>
        if heap_serves w2 sizeof_participant_list_struct then
          Done (mk_ctx (participant_list_base ctx
                        ++ [new_entry participant_socket])
                       (wrap32 (participant_count ctx + 1))) w2
        else Abort w2
    end.

(** The loop of [terminate_participants] from node [pnt] on: the nodes that
    stay, the count and the world. *)
Fixpoint terminate_loop (pnt : list participant_list_struct)
    (force_all : bool) (count : Z) (w : world)
    : list participant_list_struct * Z * world :=
  match pnt with
  | [] => ([], count, w)
  | p :: next =>
      if closed p || force_all then
        terminate_loop next force_all (wrap32 (count - 1))
                       (close (socket p) w)
      else
        let '(kept, count', w') := terminate_loop next force_all count w in
        (p :: kept, count', w')
  end.

Definition terminate_participants (ctx : server_context_type)
    (force_all : bool) (w : world) : server_context_type * world :=
  let '(kept, count, w') :=
    terminate_loop (participant_list_base ctx) force_all
                   (participant_count ctx) w in
  (mk_ctx kept count, w').

(** ** Broadcast *)

Fixpoint share_loop (pnt : list participant_list_struct)
    (block : list byte) (len : Z) (w : world)
    : list participant_list_struct * world :=
  match pnt with
  | [] => ([], w)
  | p :: next =>
      let '(outcome, w1) := send (socket p) block len w in
      let p' := if outcome <=? 0 then set_closed p true else p in
      let '(rest, w2) := share_loop next block len w1 in
      (p' :: rest, w2)
  end.

Definition share_data (block : list byte) (len : Z)
    (ctx : server_context_type) (w : world) : server_context_type * world :=
  let '(l, w') := share_loop (participant_list_base ctx) block len w in
  (set_base ctx l, w').

(** ** The framer *)

(** Buffer growth at the head of the drain loop.  A size that the shift has
    wrapped to a non-positive [int] becomes a [size_t] beyond any address
    space, so no allocator serves it; [None] is the failed [assert]. *)
Definition grow (p : participant_list_struct) (w : world)
    : option participant_list_struct :=
  if (max_length p <=? 0)
     || (wrap32 (length p + buffer_chunk_size) >? max_length p) then
    let m := if max_length p <=? 0 then buffer_chunk_size
             else wrap32 (Z.shiftl (max_length p) 1) in
    if (0 <? m) && heap_serves w m then
      Some (set_buffer (set_max_length p m) (realloc (buffer p) m))
    else None
  else Some p.

(** Offset at which the search for the terminator starts, from the length the
    buffer had before the receive. *)
Definition onset_of (len : Z) : Z :=
  if len >? terminator_length then wrap32 (len - terminator_length) else 0.

(** The search and, on a match, the broadcast and the left-compaction, on the
    node at index [i]. *)
Definition extract (i : nat) (onset : Z) (ctx : server_context_type)
    (w : world) : outcome server_context_type :=
  match participant_list_base ctx !! i with
  | None => Fault
  | Some p =>
      match memmem (drop (Z.to_nat onset) (buffer p))
                   (size_t (length p - onset))
                   terminator_string terminator_length with
      | None => Done ctx w
      | Some k =>
          let size := wrap32 (onset + Z.of_nat k + terminator_length) in
          let '(ctx1, w1) := share_data (buffer p) size ctx w in
          match participant_list_base ctx1 !! i with
          | None => Fault
          | Some p1 =>
              let p2 := set_length p1 (wrap32 (length p1 - size)) in
              let p3 :=
                set_buffer p2 (memmove (buffer p2) size (size_t (length p2))) in
              Done (set_base ctx1 (<[i := p3]> (participant_list_base ctx1)))
                   w1
          end
      end
  end.

(** One turn of the [do ... while] of [parse_data]: the value of [numRead]
    and the context after it. *)
Definition parse_data_body (i : nat) (ctx : server_context_type) (w : world)
    : outcome (Z * server_context_type) :=
  match participant_list_base ctx !! i with
  | None => Fault
  | Some p =>
      match grow p w with
      | None => Abort w
      | Some p1 =>
          let '(numRead, errno, data, w1) :=
            recv (socket p1) (max_length p1 - length p1) w in
          let p2 := set_buffer p1 (store (buffer p1) (length p1) data) in
          let put q := set_base ctx (<[i := q]> (participant_list_base ctx)) in
          if numRead =? -1 then
            if errno =? EAGAIN then Done (numRead, put p2) w1
            else Done (numRead, put (set_closed p2 true)) w1
          else if numRead =? 0 then
            Done (numRead, put (set_closed p2 true)) w1
          else
            let onset := onset_of (length p2) in
            let p3 := set_length p2 (wrap32 (length p2 + numRead)) in
            match extract i onset (put p3) w1 with
            | Done ctx' w' => Done (numRead, ctx') w'
            | Abort w' => Abort w'
            | Fault => Fault
            | OutOfFuel => OutOfFuel
            end
      end
  end.

Fixpoint parse_data_loop (fuel : nat) (i : nat) (ctx : server_context_type)
    (w : world) : outcome server_context_type :=
  match fuel with
  | O => OutOfFuel
  | S fuel' =>
      match parse_data_body i ctx w with
      | Done (numRead, ctx') w' =>
          if numRead >? 0 then parse_data_loop fuel' i ctx' w'
          else Done ctx' w'
      | Abort w' => Abort w'
      | Fault => Fault
      | OutOfFuel => OutOfFuel
      end
  end.

(** [parse_data] on the node at index [i]; the queued input bounds the number
    of turns. *)
Definition parse_data (i : nat) (ctx : server_context_type) (w : world)
    : outcome server_context_type :=
  match participant_list_base ctx !! i with
  | None => Fault
  | Some p => parse_data_loop (S (weight (pending w (socket p)))) i ctx w
  end.

(** ** The service pass and the main loop *)

(** A descriptor set has room for the descriptors [0] to
    [FD_SETSIZE - 1]: the model keeps the members and makes each macro fail
    on any other descriptor, for which the C macro reads or writes outside
    the set. *)
Definition fd_set := gset Z.

Definition fd_fits (s : SOCKET) : bool := (0 <=? s) && (s <? FD_SETSIZE).

Definition FD_SET (s : SOCKET) (state : fd_set) : option fd_set :=
  if fd_fits s then Some ({[s]} ∪ state) else None.

Definition FD_ISSET (s : SOCKET) (state : fd_set) : option bool :=
  if fd_fits s then Some (bool_decide (s ∈ state)) else None.

(** First loop of [service_participants], from the node at index [i], for at
    most [n] nodes. *)
Fixpoint service_loop (n i : nat) (state : fd_set)
    (ctx : server_context_type) (w : world) : outcome server_context_type :=
  match n with
  | O => Done ctx w
  | S n' =>
      match participant_list_base ctx !! i with
      | None => Done ctx w
      | Some p =>
          match FD_ISSET (socket p) state with
          | None => Fault
          | Some ready =>
              let r := if ready then parse_data i ctx w else Done ctx w in
              match r with
              | Done ctx1 w1 => service_loop n' (S i) state ctx1 w1
              | other => other
              end
          end
      end
  end.

Definition service_participants (state : fd_set) (ctx : server_context_type)
    (w : world) : outcome server_context_type :=
  match service_loop (List.length (participant_list_base ctx)) O state ctx w
  with
  | Done ctx1 w1 =>
      let '(ctx2, w2) := terminate_participants ctx1 false w1 in Done ctx2 w2
  | other => other
  end.

(** The body of the loop of [main] when [select] reports the sockets of
    [reads] as readable. *)
Definition serve_ready (local_socket : SOCKET) (reads : fd_set)
    (ctx : server_context_type) (w : world) : outcome server_context_type :=
  match FD_ISSET local_socket reads with
  | None => Fault
  | Some true =>
      match add_participant ctx w with
      | Done ctx1 w1 => service_participants reads ctx1 w1
      | other => other
      end
  | Some false => service_participants reads ctx w
  end.

(** The context [main] starts with. *)
Definition initial_context : server_context_type := mk_ctx [] 0.

(** ** Two notions in the words of the specification *)

(** Start of the search as the specification gives it: the length before the
    receive minus one less than the terminator length, not below zero. *)
Definition onset_per_spec (len : Z) : Z :=
  Z.max 0 (len - (terminator_length - 1)).

#[global] Instance byte_eq_decision : EqDecision byte.
Proof.
  intros x y. destruct (Byte.eqb x y) eqn:E.
  - left. now apply Byte.byte_dec_bl.
  - right. intros ->. now rewrite Byte.byte_dec_lb in E.
Defined.

(** Number of places of [hay] at which [needle] occurs. *)
Fixpoint occurrences (needle hay : list byte) : nat :=
  match hay with
  | [] => O
  | _ :: hay' =>
      ((if bool_decide (take (List.length needle) hay = needle) then 1 else 0)
       + occurrences needle hay')%nat
  end.

(** ** Vocabulary of the proofs *)

(** The socket a receive or a send is made on. *)
Definition target (e : syscall) : option SOCKET :=
  match e with
  | SysRecv s _ => Some s
  | SysSend s _ _ => Some s
  | _ => None
  end.

(** The messages handed to [send] for socket [s], oldest first. *)
Definition sent_to (s : SOCKET) (w : world) : list (list byte) :=
  omap (fun e => match e with
                 | SysSend s' bs _ => if s' =? s then Some bs else None
                 | _ => None
                 end) (rev (trace w)).

(** The node at position [j] after the broadcast that starts in [w]. *)
Definition after_send (w : world) (j : nat) (p : participant_list_struct) :=
  if send_outcome w (sends w + j) <=? 0 then set_closed p true else p.

(** The call the broadcast makes for the node at position [j]. *)
Definition send_call (block : list byte) (len : Z) (w : world) (j : nat)
    (p : participant_list_struct) : syscall :=
  SysSend (socket p) (take (Z.to_nat (size_t len)) block)
          (send_outcome w (sends w + j)).

(** A node not marked for removal. *)
Definition is_open (p : participant_list_struct) : Prop := closed p = false.

(** Capacities the growth rule can reach: none yet, or the chunk size doubled
    a number of times that an [int] still holds. *)
Definition capacity_ok (m : Z) : Prop :=
  m = 0
  \/ exists k : nat, (k <= 14)%nat /\ m = buffer_chunk_size * 2 ^ Z.of_nat k.

(** Representation invariant of a node: the valid bytes lie within the
    block, whose size is the recorded capacity. *)
Definition well_formed (p : participant_list_struct) : Prop :=
  0 <= length p <= max_length p
  /\ Z.of_nat (List.length (buffer p)) = max_length p
  /\ capacity_ok (max_length p).

(** Capacity the growth rule asks for. *)
Definition wanted (p : participant_list_struct) : Z :=
  if max_length p =? 0 then buffer_chunk_size
  else if length p + buffer_chunk_size >? max_length p then 2 * max_length p
  else max_length p.

(** A node keeps its socket, and its [closed] flag is never reset. *)
Definition latched (p p' : participant_list_struct) : Prop :=
  socket p' = socket p /\ (closed p = true -> closed p' = true).

(** Every call is a receive or a send on one of the sockets [S]. *)
Definition calls_within (S : list SOCKET) (calls : list syscall) : Prop :=
  Forall (fun e => exists s, target e = Some s /\ s ∈ S) calls.

(** The sockets of the registry, in list order. *)
Definition sockets (ctx : server_context_type) : list SOCKET :=
  socket <$> participant_list_base ctx.

(** [ctx], [w] evolve into [ctx'], [w'] when the list has the same nodes with
    latched flags, the count is the same, and the calls made in between are
    receives and sends on sockets of the list. *)
Definition evolves (ctx : server_context_type) (w : world)
    (ctx' : server_context_type) (w' : world) : Prop :=
  Forall2 latched (participant_list_base ctx) (participant_list_base ctx')
  /\ participant_count ctx' = participant_count ctx
  /\ exists calls,
       trace w' = calls ++ trace w /\ calls_within (sockets ctx) calls.

(** The computation came back, with a context or through the [assert]. *)
Definition returns {A : Type} (o : outcome A) : Prop :=
  match o with
  | Done _ _ | Abort _ => True
  | Fault | OutOfFuel => False
  end.

(** Result of the drain loop from a turn on: of [parse_data] itself, and of
    its loop with any fuel left. *)
Definition drains_to (i : nat) (ctx : server_context_type) (w : world)
    (o : outcome server_context_type) : Prop :=
  parse_data i ctx w = o
  /\ forall fuel, parse_data_loop (S fuel) i ctx w = o.

(** The valid bytes of a node's buffer. *)
Definition valid_bytes (p : participant_list_struct) : list byte :=
  take (Z.to_nat (length p)) (buffer p).

(** ** Sample data *)

Definition bytes_of (s : string) : list byte := list_byte_of_string s.

(** A world with the given input queues, in which every [send] returns [r],
    every allocation is served, the flags of a fresh connection are
    [O_RDWR] and no connection waits to be accepted. *)
Definition calm_world (queues : list (Z * list arrival)) (r : Z) : world :=
  mk_world (list_to_map queues) [] (fun _ => r) O (fun _ => true)
           (fun _ => 2) [].

Definition one_client : server_context_type := mk_ctx [new_entry 5] 1.

Definition two_clients : server_context_type :=
  mk_ctx [new_entry 5; new_entry 6] 2.

(** A node with nine bytes in a block of one chunk. *)
Definition nine_buffered : participant_list_struct :=
  mk_participant 5 false
    (bytes_of "b</event>" ++ replicate (Z.to_nat (65536 - 9)) x00) 9 65536.

(** ** The rest of the program *)

(** The loop of [set_reads] from node [pnt] on: every socket of the list is
    added to the set, and the largest socket seen so far is tracked; [None]
    when a socket has no place in the set. *)
Fixpoint set_reads_loop (pnt : list participant_list_struct) (state : fd_set)
    (highest_socket : SOCKET) : option (fd_set * SOCKET) :=
  match pnt with
  | [] => Some (state, highest_socket)
  | p :: next =>
      match FD_SET (socket p) state with
      | None => None
      | Some state' =>
          set_reads_loop next state'
            (if socket p >? highest_socket then socket p
             else highest_socket)
      end
  end.

Definition set_reads (state : fd_set) (highest_socket : SOCKET)
    (ctx : server_context_type) : option (fd_set * SOCKET) :=
  set_reads_loop (participant_list_base ctx) state highest_socket.

(** What one turn of the loop of [main] meets outside the process: the
    sockets with input, whether [select] fails, and the key pressed if any. *)
Record tick : Type := mk_tick {
  readable : gset Z;
  select_fails : bool;
  key : option Z
}.

(** [select (nfds, &reads, ...)]: the value returned and the set it leaves
    in [reads], the members below [nfds] that have input. *)
Definition select (nfds : Z) (reads : fd_set) (t : tick) : Z * fd_set :=
  if select_fails t then (-1, reads)
  else
    let ready := filter (fun s => s ∈ readable t /\ s < nfds) reads in
    (Z.of_nat (size ready), ready).

(** The test on the character read after [_kbhit]: ['q'] or ['Q']. *)
Definition quit_key (k : option Z) : bool :=
  match k with
  | Some ch => (ch =? 113) || (ch =? 81)
  | None => false
  end.

(** How the loop of [main] was left: by the key, or by [goto finished]. *)
Inductive loop_exit : Type := ByKey | BySelect.

(** The [for (;;)] of [main], one [tick] per turn; the script running out
    leaves the loop still turning. *)
Fixpoint main_loop (script : list tick) (local_socket : SOCKET)
    (ctx : server_context_type) (w : world)
    : outcome (loop_exit * server_context_type) :=
  match script with
  | [] => OutOfFuel
  | t :: script' =>
      match FD_SET local_socket ∅ with
      | None => Fault
      | Some reads0 =>
          match set_reads reads0 local_socket ctx with
          | None => Fault
          | Some (reads, highest_socket) =>
              let '(rc, reads') := select (highest_socket + 1) reads t in
              if quit_key (key t) then Done (ByKey, ctx) w
              else if rc <? 0 then Done (BySelect, ctx) w
              else if rc >? 0 then
                match serve_ready local_socket reads' ctx w with
                | Done ctx' w' => main_loop script' local_socket ctx' w'
                | Abort w' => Abort w'
                | Fault => Fault
                | OutOfFuel => OutOfFuel
                end
              else main_loop script' local_socket ctx w
          end
      end
  end.

(** [main] from the listening socket on: the loop, then the mopping up that
    only the exit by the key reaches. *)
Definition main (script : list tick) (local_socket : SOCKET) (w : world)
    : outcome server_context_type :=
  match main_loop script local_socket initial_context w with
  | Done (ByKey, ctx) w' =>
      let '(ctx', w'') := terminate_participants ctx true w' in Done ctx' w''
  | Done (BySelect, ctx) w' => Done ctx w'
  | Abort w' => Abort w'
  | Fault => Fault
  | OutOfFuel => OutOfFuel
  end.

(** ** Vocabulary of the further proofs *)

(** [needle] lies in [block] from offset [j] on. *)
Definition occurs_at (needle block : list byte) (j : nat) : Prop :=
  take (List.length needle) (drop j block) = needle.

(** The bytes queued on a connection, in order of arrival. *)
Fixpoint stream (q : list arrival) : list byte :=
  match q with
  | [] => []
  | Bytes bs :: q' => bs ++ stream q'
  | _ :: q' => stream q'
  end.

(** A node whose socket, block and lengths are as they were. *)
Definition untouched (p p' : participant_list_struct) : Prop :=
  socket p' = socket p /\ buffer p' = buffer p
  /\ length p' = length p /\ max_length p' = max_length p.

(** A call a drain cycle on socket [s] may make: a receive on [s] or a
    send. *)
Definition drain_call (s : SOCKET) (e : syscall) : Prop :=
  match e with
  | SysRecv s' _ => s' = s
  | SysSend _ _ _ => True
  | _ => False
  end.

(** What a drain cycle on the node at index [i], of socket [s], leaves
    alone: the number of nodes, the other nodes but for their flags, the
    input queued on the other sockets, the connections waiting to be
    accepted, the allocator; and the calls it makes are receives on [s] and
    sends. *)
Definition drain_frame (i : nat) (s : SOCKET)
    (ctx : server_context_type) (w : world)
    (ctx' : server_context_type) (w' : world) : Prop :=
  List.length (participant_list_base ctx')
  = List.length (participant_list_base ctx)
  /\ (forall j p p',
        j <> i ->
        participant_list_base ctx !! j = Some p ->
        participant_list_base ctx' !! j = Some p' ->
        untouched p p')
  /\ (forall s', s' <> s -> inbound w' !! s' = inbound w !! s')
  /\ backlog w' = backlog w
  /\ heap_serves w' = heap_serves w
  /\ exists calls,
       trace w' = calls ++ trace w /\ Forall (drain_call s) calls.

(** The bytes of a call, when it is a [send] on socket [s]. *)
Definition sent_bytes (s : SOCKET) (e : syscall) : option (list byte) :=
  match e with
  | SysSend s' bs _ => if s' =? s then Some bs else None
  | _ => None
  end.

(** What holds of the registry between two turns of the loop of [main]: no
    node is flagged, every node is well formed, the sockets are distinct and
    have a place in a descriptor set, and the count is the number of
    nodes. *)
Definition registry_ok (ctx : server_context_type) : Prop :=
  Forall is_open (participant_list_base ctx)
  /\ Forall well_formed (participant_list_base ctx)
  /\ NoDup (sockets ctx)
  /\ Forall (fun s => 0 <= s < FD_SETSIZE) (sockets ctx)
  /\ participant_count ctx
     = Z.of_nat (List.length (participant_list_base ctx)).

(** A call a service pass over the ready set [state] may make before its
    compaction: a receive on a ready socket or a send. *)
Definition pass_call (state : fd_set) (e : syscall) : Prop :=
  match e with
  | SysRecv s _ => s ∈ state
  | SysSend _ _ _ => True
  | _ => False
  end.

(** What the first loop of a service pass leaves alone: the nodes whose
    socket is not ready, but for their flags, and the input queued on the
    sockets that are not ready. *)
Definition pass_frame (state : fd_set)
    (ctx : server_context_type) (w : world)
    (ctx' : server_context_type) (w' : world) : Prop :=
  List.length (participant_list_base ctx')
  = List.length (participant_list_base ctx)
  /\ (forall j p p',
        socket p ∉ state ->
        participant_list_base ctx !! j = Some p ->
        participant_list_base ctx' !! j = Some p' ->
        untouched p p')
  /\ (forall s, s ∉ state -> inbound w' !! s = inbound w !! s)
  /\ backlog w' = backlog w
  /\ exists calls,
       trace w' = calls ++ trace w /\ Forall (pass_call state) calls.

(** The queue of a connection whose next receive reports the end of the
    stream or an error other than "no data yet". *)
Definition hung_up (q : list arrival) : Prop :=
  match q with
  | Shutdown :: _ => True
  | Failure e :: _ => e <> EAGAIN
  | _ => False
  end.




(** ** Further sample data *)

(** A node that held ["b</eve"] and has just received ["nt>c"]. *)
Definition split_buffered : participant_list_struct :=
  mk_participant 5 false
    (bytes_of "b</event>c" ++ replicate (Z.to_nat (65536 - 10)) x00) 10 65536.

(** A world in which the connection 7 waits to be accepted. *)
Definition knocking_world : world :=
  mk_world ∅ [7] (fun _ => 1) O (fun _ => true) (fun _ => 2) [].

(** A turn in which the listening socket 3 is ready, and a turn in which the
    operator presses ['q']. *)
Definition accept_tick : tick := mk_tick {[3]} false None.
Definition quit_tick : tick := mk_tick ∅ false (Some 113).

(** * Proofs *)

(** ** Arithmetic of the machine integers *)

Lemma wrap32_small x : - 2 ^ 31 <= x < 2 ^ 31 -> wrap32 x = x.
Proof.
  intros H. unfold wrap32.
  rewrite Z.mod_small by lia. lia.
Qed.

Lemma size_t_small x : 0 <= x < 2 ^ 64 -> size_t x = x.
Proof. intros H. unfold size_t. now rewrite Z.mod_small. Qed.

Lemma shiftl_1 x : Z.shiftl x 1 = 2 * x.
Proof. rewrite Z.shiftl_mul_pow2 by lia. lia. Qed.

(** ** Broadcast *)

Section Broadcast.

Variables (block : list byte) (len : Z).

Lemma share_loop_spec pnt w :
  share_loop pnt block len w =
    (imap (after_send w) pnt,
     mk_world (inbound w) (backlog w) (send_outcome w)
              (sends w + List.length pnt) (heap_serves w) (getfl_outcome w)
              (rev (imap (send_call block len w) pnt) ++ trace w)).
Proof.
  revert w. induction pnt as [|p next IH]; intros w.
  - simpl. rewrite Nat.add_0_r. now destruct w.
  - cbn [share_loop]. unfold send.
    set (r := send_outcome w (sends w)).
    rewrite IH. cbn [imap rev inbound backlog send_outcome sends heap_serves trace].
    assert (Hhead : after_send w 0 p = if r <=? 0 then set_closed p true else p)
      by (unfold after_send, r; now rewrite Nat.add_0_r).
    assert (Hcall : send_call block len w 0 p
                    = SysSend (socket p) (take (Z.to_nat (size_t len)) block) r)
      by (unfold send_call, r; now rewrite Nat.add_0_r).
    rewrite Hhead, Hcall, <- app_assoc. cbn [app].
    f_equal.
    + f_equal. apply imap_ext. intros j q _. unfold after_send. cbn.
      now rewrite Nat.add_succ_r.
    + f_equal; [cbn; lia|]. do 2 f_equal.
      apply imap_ext. intros j q _. unfold send_call. cbn.
      now rewrite Nat.add_succ_r.
Qed.

Lemma share_data_spec ctx w :
  share_data block len ctx w =
    (set_base ctx (imap (after_send w) (participant_list_base ctx)),
     mk_world (inbound w) (backlog w) (send_outcome w)
              (sends w + List.length (participant_list_base ctx))
              (heap_serves w) (getfl_outcome w)
              (rev (imap (send_call block len w) (participant_list_base ctx))
               ++ trace w)).
Proof. unfold share_data. now rewrite share_loop_spec. Qed.

End Broadcast.

(** C4: a broadcast makes one [send] per node of the list, in list order,
    each with the same full byte range, whatever the results of the other
    sends are; a node is changed only when its own send returned at most 0,
    and then only its [closed] flag is set.  The list is the whole registry
    of the context, the node whose buffer holds the message included. *)
Theorem share_data_failure_is_local (block : list byte) (len : Z)
    (ctx : server_context_type) (w : world) :
  exists calls,
    trace (share_data block len ctx w).2 = rev calls ++ trace w
    /\ (forall j,
          calls !! j =
            (fun p => SysSend (socket p) (take (Z.to_nat (size_t len)) block)
                              (send_outcome w (sends w + j)))
              <$> participant_list_base ctx !! j)
    /\ (forall j,
          participant_list_base (share_data block len ctx w).1 !! j =
            (fun p => if send_outcome w (sends w + j) <=? 0
                      then set_closed p true else p)
              <$> participant_list_base ctx !! j)
    /\ participant_count (share_data block len ctx w).1
       = participant_count ctx.
Proof.
  rewrite share_data_spec. cbn.
  exists (imap (send_call block len w) (participant_list_base ctx)).
  split; [reflexivity|]. split; [|split; [|reflexivity]].
  - intros j. now rewrite list_lookup_imap.
  - intros j. now rewrite list_lookup_imap.
Qed.

(** C10: when the [send] to a node returns a positive count below the
    requested length, the node is left as it was, its [closed] flag included;
    a flag that the broadcast sets belongs to a node whose own [send]
    returned at most 0; and the broadcast makes exactly one call per node,
    each from the first byte of the message, so no call sends a remainder. *)
Theorem share_data_short_send (block : list byte) (len : Z)
    (ctx : server_context_type) (w : world) (j : nat)
    (p : participant_list_struct) :
  participant_list_base ctx !! j = Some p ->
  0 < send_outcome w (sends w + j) < len ->
  participant_list_base (share_data block len ctx w).1 !! j = Some p
  /\ (forall k q q',
        participant_list_base ctx !! k = Some q ->
        participant_list_base (share_data block len ctx w).1 !! k = Some q' ->
        closed q = false -> closed q' = true ->
        send_outcome w (sends w + k) <= 0)
  /\ exists calls,
       trace (share_data block len ctx w).2 = rev calls ++ trace w
       /\ List.length calls = List.length (participant_list_base ctx)
       /\ forall k q,
            participant_list_base ctx !! k = Some q ->
            calls !! k =
              Some (SysSend (socket q) (take (Z.to_nat (size_t len)) block)
                            (send_outcome w (sends w + k))).
Proof.
  intros Hj Hout. rewrite share_data_spec. cbn. split; [|split].
  - rewrite list_lookup_imap, Hj. cbn. unfold after_send.
    destruct (Z.leb_spec (send_outcome w (sends w + j)) 0); [lia|reflexivity].
  - intros k q q' Hk. rewrite list_lookup_imap, Hk. cbn. unfold after_send.
    destruct (Z.leb_spec (send_outcome w (sends w + k)) 0); [easy|].
    intros [= <-]. congruence.
  - exists (imap (send_call block len w) (participant_list_base ctx)).
    split; [reflexivity|]. split; [apply length_imap|].
    intros k q Hk. now rewrite list_lookup_imap, Hk.
Qed.

(** ** Compaction *)

Lemma terminate_loop_kept pnt count w :
  Forall is_open (terminate_loop pnt false count w).1.1.
Proof.
  revert count w. induction pnt as [|p next IH]; intros count w; cbn.
  - constructor.
  - destruct (closed p) eqn:Hc; cbn.
    + apply IH.
    + specialize (IH count w).
      destruct (terminate_loop next false count w) as [[kept c'] w'].
      cbn in *. constructor; [exact Hc|exact IH].
Qed.

Lemma terminate_loop_open pnt count w :
  Forall is_open pnt -> terminate_loop pnt false count w = (pnt, count, w).
Proof.
  induction 1 as [|p next Hp _ IH]; cbn; [reflexivity|].
  rewrite Hp. cbn. now rewrite IH.
Qed.

(** C8: a second [terminate_participants (ctx, false)] right after a first
    one removes no node: context and world come back as the first call left
    them. *)
Theorem terminate_participants_idempotent (ctx : server_context_type)
    (w : world) :
  terminate_participants (terminate_participants ctx false w).1 false
                         (terminate_participants ctx false w).2
  = terminate_participants ctx false w.
Proof.
  unfold terminate_participants.
  pose proof (terminate_loop_kept (participant_list_base ctx)
                (participant_count ctx) w) as Hopen.
  destruct (terminate_loop (participant_list_base ctx) false
              (participant_count ctx) w) as [[kept c'] w'].
  cbn in *. now rewrite terminate_loop_open.
Qed.

(** ** Registration *)

Lemma find_participant_Some pnt s p :
  find_participant pnt s = Some p -> p ∈ pnt /\ socket p = s.
Proof.
  induction pnt as [|q next IH]; cbn; [discriminate|].
  destruct (Z.eqb_spec (socket q) s) as [Heq|Hne].
  - intros [= <-]. split; [left|exact Heq].
  - intros H. destruct (IH H) as [Hin Hs]. split; [now right|exact Hs].
Qed.

Lemma find_participant_None pnt s :
  find_participant pnt s = None <-> s ∉ socket <$> pnt.
Proof.
  induction pnt as [|q next IH]; cbn.
  - split; [intros _; apply not_elem_of_nil|reflexivity].
  - rewrite not_elem_of_cons.
    destruct (Z.eqb_spec (socket q) s) as [Heq|Hne].
    + split; [discriminate|]. intros [Hne _]. congruence.
    + rewrite IH. split; [intros H; split; [congruence|exact H]|now intros [_ H]].
Qed.

Lemma set_nonblocking_fields sock w :
  inbound (set_nonblocking sock w) = inbound w
  /\ backlog (set_nonblocking sock w) = backlog w
  /\ send_outcome (set_nonblocking sock w) = send_outcome w
  /\ sends (set_nonblocking sock w) = sends w
  /\ heap_serves (set_nonblocking sock w) = heap_serves w
  /\ getfl_outcome (set_nonblocking sock w) = getfl_outcome w.
Proof.
  unfold set_nonblocking, fcntl_getfl, fcntl_setfl.
  destruct (getfl_outcome w sock >? 0); cbn; repeat split.
Qed.

Lemma accept_fields w :
  inbound (accept w).2 = inbound w
  /\ send_outcome (accept w).2 = send_outcome w
  /\ sends (accept w).2 = sends w
  /\ heap_serves (accept w).2 = heap_serves w
  /\ getfl_outcome (accept w).2 = getfl_outcome w.
Proof. unfold accept. destruct (backlog w); cbn; repeat split. Qed.

(** What [add_participant] returns, by the result [r] of its [accept]. *)
Lemma add_participant_unfold ctx w :
  add_participant ctx w =
    let r := (accept w).1 in
    let w1 := (accept w).2 in
    if r <=? 0 then Done ctx w1
    else if bool_decide (r ∈ sockets ctx) then
      Done ctx (set_nonblocking r w1)
    else if heap_serves w sizeof_participant_list_struct then
      Done (mk_ctx (participant_list_base ctx ++ [new_entry r])
                   (wrap32 (participant_count ctx + 1)))
           (set_nonblocking r w1)
    else Abort (set_nonblocking r w1).
Proof.
  unfold add_participant. destruct (accept w) as [r w1] eqn:Ha. cbn [fst snd].
  destruct (r <=? 0); [reflexivity|].
  assert (Hh : heap_serves (set_nonblocking r w1) = heap_serves w).
  { destruct (set_nonblocking_fields r w1) as (_ & _ & _ & _ & -> & _).
    destruct (accept_fields w) as (_ & _ & _ & H & _).
    now rewrite Ha in H. }
  rewrite Hh.
  destruct (find_participant (participant_list_base ctx) r) as [q|] eqn:Hf.
  - rewrite bool_decide_eq_true_2; [reflexivity|].
    apply find_participant_Some in Hf as [Hin <-].
    now apply list_elem_of_fmap_2.
  - apply find_participant_None in Hf.
    now rewrite bool_decide_eq_false_2 by exact Hf.
Qed.

(** C9: when [accept] yields the connection [s], a registry that already has
    a node for [s] is returned as it is, count included, and no error is
    raised; otherwise a node with [closed = false], no buffer and zero
    [length] and [max_length] is appended and the count goes up by one.  The
    one failing result is the [assert] on the allocation of the new node,
    which ends the process when the allocator refuses it. *)
Theorem add_participant_spec (ctx : server_context_type) (w : world)
    (s : SOCKET) (rest : list SOCKET) :
  backlog w = s :: rest ->
  0 < s ->
  0 <= participant_count ctx < INT_MAX ->
  add_participant ctx w =
    let w' := set_nonblocking s (accept w).2 in
    if bool_decide (s ∈ socket <$> participant_list_base ctx) then Done ctx w'
    else if heap_serves w sizeof_participant_list_struct then
      Done (mk_ctx (participant_list_base ctx
                    ++ [mk_participant s false [] 0 0])
                   (participant_count ctx + 1)) w'
    else Abort w'.
Proof.
  intros Hb Hs Hc. rewrite add_participant_unfold.
  assert (Hr : (accept w).1 = s) by (unfold accept; now rewrite Hb).
  rewrite Hr. cbn zeta.
  destruct (Z.leb_spec s 0) as [?|_]; [lia|].
  unfold sockets, new_entry.
  rewrite wrap32_small by (unfold INT_MAX in Hc; lia). reflexivity.
Qed.

(** ** The start offset of the search *)

Lemma onset_of_max len :
  - 2 ^ 31 <= len < 2 ^ 31 ->
  onset_of len = Z.max 0 (len - terminator_length).
Proof.
  intros H. unfold onset_of, terminator_length in *.
  destruct (Z.gtb_spec len 8).
  - rewrite wrap32_small by lia. lia.
  - lia.
Qed.

(** C3, as the specification words it, fails: with nine bytes buffered the
    search starts at offset 1, not at offset 2. *)
Lemma onset_of_differs_from_spec : onset_of 9 <> onset_per_spec 9.
Proof. vm_compute. discriminate. Qed.

(** ** The buffer and its capacity *)

Lemma capacity_ok_range m :
  capacity_ok m -> m = 0 \/ buffer_chunk_size <= m <= 2 ^ 30.
Proof.
  intros [->|(k & Hk & ->)]; [now left|right].
  assert (1 <= 2 ^ Z.of_nat k) by (apply Z.pow_le_mono_r with (b := 0); lia).
  assert (2 ^ Z.of_nat k <= 2 ^ 14) by (apply Z.pow_le_mono_r; lia).
  unfold buffer_chunk_size. lia.
Qed.

Lemma capacity_ok_double m :
  capacity_ok m -> 0 < m -> 2 * m < 2 ^ 31 -> capacity_ok (2 * m).
Proof.
  intros [->|(k & Hk & ->)] Hpos Hlt; [lia|].
  right. exists (S k). split.
  - destruct (decide (k = 14%nat)) as [->|]; [|lia].
    exfalso. vm_compute in Hlt. discriminate.
  - rewrite Nat2Z.inj_succ, Z.pow_succ_r by lia. lia.
Qed.

Lemma well_formed_new_entry s : well_formed (new_entry s).
Proof. repeat split; cbn; try lia. now left. Qed.

Lemma well_formed_set_closed p c : well_formed p -> well_formed (set_closed p c).
Proof. intros H. exact H. Qed.

Lemma realloc_length block size :
  0 <= size -> Z.of_nat (List.length (realloc block size)) = size.
Proof.
  intros H. unfold realloc. rewrite length_app, length_take, length_replicate.
  lia.
Qed.

Lemma realloc_prefix block size n :
  (n <= List.length block)%nat -> (n <= Z.to_nat size)%nat ->
  take n (realloc block size) = take n block.
Proof.
  intros Hb Hs. unfold realloc.
  rewrite take_app_le by (rewrite length_take; lia).
  rewrite take_take. f_equal. lia.
Qed.

Lemma wanted_cases p :
  (max_length p = 0 /\ wanted p = buffer_chunk_size)
  \/ (max_length p <> 0 /\ length p + buffer_chunk_size > max_length p
      /\ wanted p = 2 * max_length p)
  \/ (max_length p <> 0 /\ length p + buffer_chunk_size <= max_length p
      /\ wanted p = max_length p).
Proof.
  unfold wanted.
  destruct (Z.eqb_spec (max_length p) 0); [now left|right].
  destruct (Z.gtb_spec (length p + buffer_chunk_size) (max_length p));
    [left|right]; repeat split; lia.
Qed.

(** What [grow] returns, in terms of [wanted]. *)
Lemma grow_cases p w :
  well_formed p ->
  grow p w =
    if wanted p =? max_length p then Some p
    else if (wanted p <? 2 ^ 31) && heap_serves w (wanted p) then
      Some (set_buffer (set_max_length p (wanted p))
                       (realloc (buffer p) (wanted p)))
    else None.
Proof.
  intros (Hlen & Hblock & Hcap). apply capacity_ok_range in Hcap.
  unfold grow, wanted, buffer_chunk_size in *.
  rewrite wrap32_small by lia. rewrite shiftl_1.
  destruct Hcap as [H0|Hrange].
  - rewrite H0. cbn. reflexivity.
  - destruct (Z.leb_spec (max_length p) 0) as [?|_]; [lia|].
    destruct (Z.eqb_spec (max_length p) 0) as [?|_]; [lia|]. cbn [orb].
    destruct (Z.gtb_spec (length p + 65536) (max_length p)) as [Hgt|Hle].
    + destruct (Z.eqb_spec (2 * max_length p) (max_length p)) as [?|_]; [lia|].
      destruct (Z.ltb_spec (2 * max_length p) (2 ^ 31)) as [Hfit|Hbig].
      * rewrite wrap32_small by lia.
        destruct (Z.ltb_spec 0 (2 * max_length p)) as [_|?]; [|lia].
        reflexivity.
      * assert (Hm : max_length p = 2 ^ 30) by lia. rewrite Hm. reflexivity.
    + now rewrite Z.eqb_refl.
Qed.


Lemma grow_well_formed p w p' :
  well_formed p -> grow p w = Some p' -> well_formed p'.
Proof.
  intros Hwf. rewrite (grow_cases p w Hwf).
  destruct Hwf as (Hlen & Hblock & Hcap).
  pose proof (capacity_ok_range _ Hcap) as Hrange.
  destruct (Z.eqb_spec (wanted p) (max_length p)) as [_|Hne].
  - intros [= <-]. now repeat split.
  - destruct (Z.ltb_spec (wanted p) (2 ^ 31)) as [Hfit|_]; [|discriminate].
    destruct (heap_serves w (wanted p)); [|discriminate].
    intros [= <-]. cbn.
    destruct (wanted_cases p) as [[H0 Hw]|[(Hn0 & Hgt & Hw)|(_ & _ & Hw)]];
      [| |congruence]; unfold buffer_chunk_size in *.
    + repeat split; cbn; try lia.
      * rewrite realloc_length; lia.
      * rewrite Hw. right. exists O. split; [lia|reflexivity].
    + repeat split; cbn; try lia.
      * rewrite realloc_length; lia.
      * rewrite Hw. apply capacity_ok_double; [exact Hcap|lia|lia].
Qed.

(** After the growth the receive has room for a whole chunk. *)
Lemma grow_room p w p' :
  well_formed p -> grow p w = Some p' ->
  buffer_chunk_size <= max_length p' - length p'.
Proof.
  intros Hwf. rewrite (grow_cases p w Hwf).
  destruct Hwf as (Hlen & _ & Hcap). apply capacity_ok_range in Hcap.
  pose proof (wanted_cases p) as Hw. unfold buffer_chunk_size in *.
  destruct (Z.eqb_spec (wanted p) (max_length p)).
  - intros [= <-]. lia.
  - destruct ((wanted p <? 2 ^ 31) && heap_serves w (wanted p)); [|discriminate].
    intros [= <-]. cbn. lia.
Qed.

(** ** Memory primitives *)

Lemma memmem_scan_unfold h needle n :
  memmem_scan h needle n =
    if (n <=? List.length h)%nat then
      if memcmp h needle n =? 0 then Some O
      else match h with
           | [] => None
           | _ :: h' => S <$> memmem_scan h' needle n
           end
    else None.
Proof. destruct h; reflexivity. Qed.

Lemma memmem_scan_bound h needle n k :
  memmem_scan h needle n = Some k -> (k + n <= List.length h)%nat.
Proof.
  revert k. induction h as [|x h IH]; intros k; rewrite memmem_scan_unfold.
  - destruct (Nat.leb_spec n (List.length (@nil byte))) as [Hle|]; [|discriminate].
    destruct (memcmp [] needle n =? 0); [|discriminate].
    intros [= <-]. lia.
  - destruct (Nat.leb_spec n (List.length (x :: h))) as [Hle|]; [|discriminate].
    destruct (memcmp (x :: h) needle n =? 0).
    + intros [= <-]. lia.
    + destruct (memmem_scan h needle n) as [k'|]; [|discriminate].
      intros [= <-]. specialize (IH k' eq_refl). cbn. lia.
Qed.

Lemma memmem_bound haystack haystacklen needle needlelen k :
  0 <= haystacklen -> 0 <= needlelen ->
  memmem haystack haystacklen needle needlelen = Some k ->
  Z.of_nat k + needlelen <= haystacklen.
Proof.
  intros Hh Hn. unfold memmem.
  destruct ((haystacklen =? 0) || (needlelen =? 0)); [discriminate|].
  intros H. apply memmem_scan_bound in H.
  rewrite length_take in H. lia.
Qed.

Lemma store_length block at_ data :
  0 <= at_ -> at_ + Z.of_nat (List.length data) <= Z.of_nat (List.length block) ->
  List.length (store block at_ data) = List.length block.
Proof.
  intros H0 H. unfold store.
  rewrite !length_app, length_take, length_drop. lia.
Qed.

Lemma store_nil block at_ : store block at_ [] = block.
Proof.
  unfold store. cbn. rewrite Nat.add_0_r. apply take_drop.
Qed.

Lemma memmove_length block src n :
  0 <= src -> 0 <= n -> src + n <= Z.of_nat (List.length block) ->
  List.length (memmove block src n) = List.length block.
Proof.
  intros Hs Hn H. unfold memmove.
  rewrite length_app, length_take, !length_drop. lia.
Qed.

(** ** The receive *)

Lemma recv_fits s len w n e data w1 :
  0 <= len < 2 ^ 31 ->
  recv s len w = (n, e, data, w1) ->
  (n = -1 /\ data = [])
  \/ (0 <= n <= len /\ n = Z.of_nat (List.length data)).
Proof.
  intros Hlen. unfold recv.
  destruct (pending w s) as [|[bs|errno|] q].
  - intros [= <- _ <- _]. now left.
  - rewrite size_t_small by lia.
    destruct (Nat.leb_spec (List.length bs) (Z.to_nat len)) as [Hle|Hgt].
    + intros [= <- _ <- _]. right. rewrite wrap32_small by lia. lia.
    + intros [= <- _ <- _]. right. rewrite wrap32_small by lia.
      rewrite length_take. lia.
  - intros [= <- _ <- _]. now left.
  - intros [= <- _ <- _]. right. cbn. lia.
Qed.

Lemma onset_of_range len :
  0 <= len < 2 ^ 31 -> 0 <= onset_of len <= len.
Proof. intros H. rewrite onset_of_max by lia. unfold terminator_length. lia. Qed.

(** ** The invariant along the drain loop *)

Lemma after_send_fields w j p :
  socket (after_send w j p) = socket p
  /\ buffer (after_send w j p) = buffer p
  /\ length (after_send w j p) = length p
  /\ max_length (after_send w j p) = max_length p.
Proof. unfold after_send. now destruct (_ <=? 0). Qed.

Lemma after_send_well_formed w j p :
  well_formed p -> well_formed (after_send w j p).
Proof. unfold after_send. now destruct (_ <=? 0). Qed.

Lemma share_data_well_formed block len ctx w :
  Forall well_formed (participant_list_base ctx) ->
  Forall well_formed (participant_list_base (share_data block len ctx w).1).
Proof.
  intros H. rewrite share_data_spec. cbn.
  apply Forall_lookup. intros j q. rewrite list_lookup_imap.
  destruct (participant_list_base ctx !! j) as [p|] eqn:Hj; [|discriminate].
  intros [= <-]. apply after_send_well_formed.
  eapply Forall_lookup_1; eassumption.
Qed.

Lemma extract_well_formed i onset ctx w p ctx' w' :
  Forall well_formed (participant_list_base ctx) ->
  participant_list_base ctx !! i = Some p ->
  0 <= onset <= length p ->
  extract i onset ctx w = Done ctx' w' ->
  Forall well_formed (participant_list_base ctx').
Proof.
  intros Hall Hi Honset. unfold extract. rewrite Hi.
  pose proof (Forall_lookup_1 _ _ _ _ Hall Hi) as (Hlen & Hblock & Hcap).
  pose proof (capacity_ok_range _ Hcap) as Hrange.
  rewrite size_t_small by lia.
  destruct (memmem _ _ _ _) as [k|] eqn:Hm; [|now intros [= <- <-]].
  apply memmem_bound in Hm; [|lia|unfold terminator_length; lia].
  unfold terminator_length in *.
  pose proof (share_data_well_formed (buffer p)
                (wrap32 (onset + Z.of_nat k + 8)) ctx w Hall) as Hshared.
  rewrite share_data_spec in *. cbn in *.
  rewrite list_lookup_imap, Hi. cbn.
  intros [= <- <-]. cbn. apply Forall_insert; [exact Hshared|].
  destruct (after_send_fields w i p) as (_ & Hb & Hl & Hmax).
  rewrite (wrap32_small (onset + _ + 8)) by lia.
  repeat split; cbn; rewrite ?Hb, ?Hl, ?Hmax.
  - rewrite wrap32_small by lia. lia.
  - rewrite wrap32_small by lia. lia.
  - rewrite wrap32_small by lia. rewrite size_t_small by lia.
    rewrite memmove_length; lia.
  - exact Hcap.
Qed.

Lemma received_well_formed p s w n e data w1 :
  well_formed p ->
  recv s (max_length p - length p) w = (n, e, data, w1) ->
  well_formed (set_buffer p (store (buffer p) (length p) data))
  /\ (n <> -1 ->
      well_formed
        (set_length (set_buffer p (store (buffer p) (length p) data))
                    (wrap32 (length p + n)))).
Proof.
  intros (Hlen & Hblock & Hcap) Hr.
  pose proof (capacity_ok_range _ Hcap) as Hrange.
  apply recv_fits in Hr; [|lia].
  assert (Hfit : Z.of_nat (List.length data) <= max_length p - length p)
    by (destruct Hr as [[_ ->]|[? ?]]; cbn; lia).
  assert (Hstore : Z.of_nat (List.length (store (buffer p) (length p) data))
                   = max_length p)
    by (rewrite store_length; lia).
  split; [now repeat split|].
  intros Hn. destruct Hr as [[? _]|[Hn0 Hnd]]; [contradiction|].
  repeat split; cbn; try rewrite wrap32_small by lia; try lia. exact Hcap.
Qed.

Lemma parse_data_body_well_formed i ctx w n ctx' w' :
  Forall well_formed (participant_list_base ctx) ->
  parse_data_body i ctx w = Done (n, ctx') w' ->
  Forall well_formed (participant_list_base ctx').
Proof.
  intros Hall. unfold parse_data_body.
  destruct (participant_list_base ctx !! i) as [p|] eqn:Hi; [|discriminate].
  destruct (grow p w) as [p1|] eqn:Hg; [|discriminate].
  pose proof (Forall_lookup_1 _ _ _ _ Hall Hi) as Hp.
  pose proof (grow_well_formed _ _ _ Hp Hg) as Hp1.
  destruct (recv _ _ w) as [[[numRead errno] data] w1] eqn:Hr.
  destruct (received_well_formed _ _ _ _ _ _ _ Hp1 Hr) as [Hp2 Hp3].
  cbn zeta.
  destruct (Z.eqb_spec numRead (-1)) as [_|Hn1].
  { destruct (errno =? EAGAIN); intros [= <- <- <-]; cbn;
      apply Forall_insert; assumption. }
  destruct (Z.eqb_spec numRead 0) as [_|Hn0].
  { intros [= <- <- <-]; cbn. apply Forall_insert; assumption. }
  specialize (Hp3 Hn1).
  destruct (extract _ _ _ w1) as [ctx2 w2| | |] eqn:He; try discriminate.
  intros [= <- <- <-].
  eapply extract_well_formed; [| |
    |exact He].
  - cbn. apply Forall_insert; [exact Hall|exact Hp3].
  - cbn. apply list_lookup_insert_eq. eapply lookup_lt_Some; exact Hi.
  - cbn. destruct Hp1 as (Hlen & _ & Hcap).
    pose proof (capacity_ok_range _ Hcap) as Hrange.
    pose proof (onset_of_range (length p1)) as Ho.
    destruct Hp3 as (Hl3 & _). cbn in Hl3.
    apply recv_fits in Hr; [|lia].
    destruct Hr as [[? _]|[Hnr _]]; [contradiction|].
    rewrite wrap32_small in * by lia. lia.
Qed.

Lemma parse_data_loop_well_formed fuel i ctx w ctx' w' :
  Forall well_formed (participant_list_base ctx) ->
  parse_data_loop fuel i ctx w = Done ctx' w' ->
  Forall well_formed (participant_list_base ctx').
Proof.
  revert ctx w. induction fuel as [|fuel IH]; intros ctx w Hall; cbn;
    [discriminate|].
  destruct (parse_data_body i ctx w) as [[n ctx1] w1| | |] eqn:Hb;
    try discriminate.
  apply parse_data_body_well_formed in Hb; [|exact Hall].
  destruct (n >? 0).
  - now apply IH.
  - now intros [= <- <-].
Qed.

Lemma parse_data_well_formed i ctx w ctx' w' :
  Forall well_formed (participant_list_base ctx) ->
  parse_data i ctx w = Done ctx' w' ->
  Forall well_formed (participant_list_base ctx').
Proof.
  intros Hall. unfold parse_data.
  destruct (participant_list_base ctx !! i); [|discriminate].
  now apply parse_data_loop_well_formed.
Qed.

(** ** What a pass may change: the frame of the drain loop *)

Lemma latched_refl p : latched p p.
Proof. now split. Qed.

Lemma latched_trans p q r : latched p q -> latched q r -> latched p r.
Proof. intros [Hs Hc] [Hs' Hc']. split; [congruence|auto]. Qed.

Lemma Forall2_latched_refl l : Forall2 latched l l.
Proof. apply Forall_Forall2_diag, Forall_true. exact latched_refl. Qed.

Lemma Forall2_latched_sockets l l' :
  Forall2 latched l l' -> socket <$> l' = socket <$> l.
Proof. induction 1 as [|p q l l' [Hs _] _ IH]; cbn; [reflexivity|congruence]. Qed.

Lemma evolves_refl ctx w : evolves ctx w ctx w.
Proof.
  split; [apply Forall2_latched_refl|]. split; [reflexivity|].
  exists []. split; [reflexivity|constructor].
Qed.

Lemma evolves_trans ctx w ctx1 w1 ctx2 w2 :
  evolves ctx w ctx1 w1 -> evolves ctx1 w1 ctx2 w2 -> evolves ctx w ctx2 w2.
Proof.
  intros (Hl & Hc & calls & Ht & Hw) (Hl' & Hc' & calls' & Ht' & Hw').
  split; [|split; [congruence|]].
  - eapply Forall2_trans; [|exact Hl|exact Hl']. intros p q r. apply latched_trans.
  - exists (calls' ++ calls). split.
    + rewrite Ht', Ht. now rewrite app_assoc.
    + apply Forall_app. split; [|exact Hw].
      unfold calls_within, sockets in *.
      now rewrite (Forall2_latched_sockets _ _ Hl) in Hw'.
Qed.

Lemma evolves_insert ctx w i p q :
  participant_list_base ctx !! i = Some p -> latched p q ->
  evolves ctx w (set_base ctx (<[i := q]> (participant_list_base ctx))) w.
Proof.
  intros Hi Hq. split; [|split; [reflexivity|]].
  - cbn. rewrite <- (list_insert_id _ _ _ Hi) at 1.
    apply Forall2_insert; [apply Forall2_latched_refl|exact Hq].
  - exists []. split; [reflexivity|constructor].
Qed.

Lemma evolves_call ctx w w' e s :
  trace w' = e :: trace w -> target e = Some s -> s ∈ sockets ctx ->
  evolves ctx w ctx w'.
Proof.
  intros Ht He Hs. split; [apply Forall2_latched_refl|]. split; [reflexivity|].
  exists [e]. split; [exact Ht|]. constructor; [|constructor]. now exists s.
Qed.

Lemma after_send_latched w j p : latched p (after_send w j p).
Proof. unfold after_send. destruct (_ <=? 0); now split. Qed.

Lemma share_data_evolves block len ctx w :
  evolves ctx w (share_data block len ctx w).1 (share_data block len ctx w).2.
Proof.
  rewrite share_data_spec. cbn. split; [|split; [reflexivity|]].
  - cbn. apply Forall2_same_length_lookup_2; [now rewrite length_imap|].
    intros j p q Hp. rewrite list_lookup_imap, Hp. intros [= <-].
    apply after_send_latched.
  - eexists. split; [reflexivity|]. cbn.
    apply Forall_rev, Forall_lookup. intros j e.
    rewrite list_lookup_imap.
    destruct (participant_list_base ctx !! j) as [p|] eqn:Hj; [|discriminate].
    intros [= <-]. exists (socket p). split; [reflexivity|].
    unfold sockets. apply list_elem_of_fmap_2.
    eapply list_elem_of_lookup_2; exact Hj.
Qed.

Lemma recv_trace s len w n e data w1 :
  recv s len w = (n, e, data, w1) -> trace w1 = SysRecv s n :: trace w.
Proof.
  unfold recv. destruct (pending w s) as [|[bs|errno|] q];
    [| destruct (_ <=? _)%nat | |]; now intros [= <- _ _ <-].
Qed.

Lemma grow_fields p w p' :
  grow p w = Some p' ->
  socket p' = socket p /\ closed p' = closed p /\ length p' = length p.
Proof.
  unfold grow. destruct (_ || _); [destruct (_ && _)|]; try discriminate;
    now intros [= <-].
Qed.

Lemma extract_evolves i onset ctx w ctx' w' :
  extract i onset ctx w = Done ctx' w' -> evolves ctx w ctx' w'.
Proof.
  unfold extract.
  destruct (participant_list_base ctx !! i) as [p|] eqn:Hi; [|discriminate].
  destruct (memmem _ _ _ _) as [k|]; [|intros [= <- <-]; apply evolves_refl].
  pose proof (share_data_evolves (buffer p)
                (wrap32 (onset + Z.of_nat k + terminator_length)) ctx w) as Hs.
  destruct (share_data _ _ ctx w) as [ctx1 w1]. cbn in Hs.
  destruct (participant_list_base ctx1 !! i) as [p1|] eqn:Hi1; [|discriminate].
  intros [= <- <-]. eapply evolves_trans; [exact Hs|].
  eapply evolves_insert; [exact Hi1|]. now split.
Qed.

Lemma parse_data_body_evolves i ctx w n ctx' w' :
  parse_data_body i ctx w = Done (n, ctx') w' -> evolves ctx w ctx' w'.
Proof.
  unfold parse_data_body.
  destruct (participant_list_base ctx !! i) as [p|] eqn:Hi; [|discriminate].
  destruct (grow p w) as [p1|] eqn:Hg; [|discriminate].
  apply grow_fields in Hg as (Hs & Hc & _).
  destruct (recv _ _ w) as [[[numRead errno] data] w1] eqn:Hr.
  apply recv_trace in Hr. cbn zeta.
  assert (Hcall : evolves ctx w ctx w1).
  { eapply evolves_call; [exact Hr|reflexivity|].
    rewrite Hs. unfold sockets. apply list_elem_of_fmap_2.
    eapply list_elem_of_lookup_2; exact Hi. }
  assert (Hput : forall q, latched p q ->
            evolves ctx w
              (set_base ctx (<[i := q]> (participant_list_base ctx))) w1).
  { intros q Hq. eapply evolves_trans; [exact Hcall|].
    eapply evolves_insert; [exact Hi|exact Hq]. }
  destruct (numRead =? -1).
  { destruct (errno =? EAGAIN); intros [= <- <- <-]; apply Hput; split; cbn;
      auto; congruence. }
  destruct (numRead =? 0).
  { intros [= <- <- <-]; apply Hput; split; cbn; auto. }
  destruct (extract _ _ _ w1) as [ctx2 w2| | |] eqn:He; try discriminate.
  intros [= <- <- <-]. apply extract_evolves in He.
  eapply evolves_trans; [|exact He]. apply Hput. split; cbn; congruence.
Qed.

Lemma parse_data_loop_evolves fuel i ctx w ctx' w' :
  parse_data_loop fuel i ctx w = Done ctx' w' -> evolves ctx w ctx' w'.
Proof.
  revert ctx w. induction fuel as [|fuel IH]; intros ctx w; cbn;
    [discriminate|].
  destruct (parse_data_body i ctx w) as [[n ctx1] w1| | |] eqn:Hb;
    try discriminate.
  apply parse_data_body_evolves in Hb.
  destruct (n >? 0).
  - intros H. eapply evolves_trans; [exact Hb|]. now apply IH.
  - now intros [= <- <-].
Qed.

Lemma parse_data_evolves i ctx w ctx' w' :
  parse_data i ctx w = Done ctx' w' -> evolves ctx w ctx' w'.
Proof.
  unfold parse_data. destruct (participant_list_base ctx !! i); [|discriminate].
  apply parse_data_loop_evolves.
Qed.

Lemma service_loop_evolves n i state ctx w ctx' w' :
  service_loop n i state ctx w = Done ctx' w' -> evolves ctx w ctx' w'.
Proof.
  revert i ctx w. induction n as [|n IH]; intros i ctx w; cbn.
  - intros [= <- <-]. apply evolves_refl.
  - destruct (participant_list_base ctx !! i) as [p|];
      [|intros [= <- <-]; apply evolves_refl].
    destruct (FD_ISSET (socket p) state) as [[|]|]; [| |discriminate].
    + destruct (parse_data i ctx w) as [ctx1 w1| | |] eqn:Hp; try discriminate.
      intros H. apply parse_data_evolves in Hp. apply IH in H.
      eapply evolves_trans; eassumption.
    + apply IH.
Qed.

(** ** The drain loop returns *)

Lemma pending_set_inbound w s q : pending (set_inbound w s q) s = q.
Proof. unfold pending, set_inbound. cbn. now rewrite lookup_insert_eq. Qed.

Lemma recv_progress s len w n e data w1 :
  recv s len w = (n, e, data, w1) -> n > 0 ->
  (weight (pending w1 s) < weight (pending w s))%nat.
Proof.
  unfold recv. destruct (pending w s) as [|[bs|errno|] q] eqn:Hq.
  - intros [= <- _ _ _]. lia.
  - destruct (Nat.leb_spec (List.length bs) (Z.to_nat (size_t len))) as [Hle|Hgt].
    + intros [= _ _ _ <-] _. unfold pending at 1. cbn. rewrite lookup_insert_eq. cbn. lia.
    + intros [= <- _ _ <-] Hn. unfold pending at 1. cbn.
      rewrite lookup_insert_eq. cbn. rewrite length_drop.
      destruct (Z.to_nat (size_t len)) as [|room]; [now vm_compute in Hn|lia].
  - intros [= <- _ _ _]. lia.
  - intros [= <- _ _ _]. lia.
Qed.

Lemma extract_inbound i onset ctx w ctx' w' :
  extract i onset ctx w = Done ctx' w' -> inbound w' = inbound w.
Proof.
  unfold extract.
  destruct (participant_list_base ctx !! i) as [p|]; [|discriminate].
  destruct (memmem _ _ _ _) as [k|]; [|now intros [= _ <-]].
  rewrite share_data_spec. cbn.
  destruct (_ !! i); [|discriminate]. now intros [= _ <-].
Qed.

Lemma extract_returns i onset ctx w p :
  participant_list_base ctx !! i = Some p -> returns (extract i onset ctx w).
Proof.
  intros Hi. unfold extract. rewrite Hi.
  destruct (memmem _ _ _ _) as [k|]; [|exact I].
  rewrite share_data_spec. cbn. now rewrite list_lookup_imap, Hi.
Qed.

Lemma parse_data_body_returns i ctx w p :
  participant_list_base ctx !! i = Some p -> returns (parse_data_body i ctx w).
Proof.
  intros Hi. unfold parse_data_body. rewrite Hi.
  destruct (grow p w) as [p1|]; [|exact I].
  destruct (recv _ _ w) as [[[numRead errno] data] w1]. cbn zeta.
  destruct (numRead =? -1); [now destruct (errno =? EAGAIN)|].
  destruct (numRead =? 0); [exact I|].
  match goal with |- context [extract i ?o ?c ?w] =>
    pose proof (extract_returns i o c w) as He;
    destruct (extract i o c w) end; try exact I;
    eapply He; cbn; apply list_lookup_insert_eq; eapply lookup_lt_Some; exact Hi.
Qed.

Lemma parse_data_body_progress i ctx w p n ctx' w' :
  participant_list_base ctx !! i = Some p ->
  parse_data_body i ctx w = Done (n, ctx') w' -> n > 0 ->
  (weight (pending w' (socket p)) < weight (pending w (socket p)))%nat.
Proof.
  intros Hi. unfold parse_data_body. rewrite Hi.
  destruct (grow p w) as [p1|] eqn:Hg; [|discriminate].
  apply grow_fields in Hg as (Hs & _). rewrite Hs.
  destruct (recv _ _ w) as [[[numRead errno] data] w1] eqn:Hr. cbn zeta.
  destruct (numRead =? -1) eqn:H1.
  { destruct (errno =? EAGAIN); intros [= <- _ _]; lia. }
  destruct (numRead =? 0) eqn:H0.
  { intros [= <- _ _]; lia. }
  destruct (extract _ _ _ w1) as [ctx2 w2| | |] eqn:He; try discriminate.
  intros [= <- _ <-] Hn. apply extract_inbound in He.
  unfold pending at 1. rewrite He. eapply recv_progress; eassumption.
Qed.

Lemma parse_data_loop_returns fuel i ctx w p :
  participant_list_base ctx !! i = Some p ->
  (weight (pending w (socket p)) < fuel)%nat ->
  returns (parse_data_loop fuel i ctx w).
Proof.
  revert ctx w p. induction fuel as [|fuel IH]; intros ctx w p Hi Hfuel;
    [lia|]. cbn.
  pose proof (parse_data_body_returns i ctx w p Hi) as Hret.
  destruct (parse_data_body i ctx w) as [[n ctx1] w1| | |] eqn:Hb;
    try exact Hret.
  destruct (Z.gtb_spec n 0) as [Hn|_]; [|exact I].
  pose proof (parse_data_body_progress _ _ _ _ _ _ _ Hi Hb ltac:(lia)) as Hlt.
  apply parse_data_body_evolves in Hb as (Hl & _).
  destruct (Forall2_lookup_l _ _ _ _ _ Hl Hi) as (p' & Hi' & Hs & _).
  eapply IH; [exact Hi'|]. rewrite Hs. lia.
Qed.

(** The fuel of [parse_data] is enough: on a node of the list the drain loop
    comes back. *)
Lemma parse_data_returns i ctx w p :
  participant_list_base ctx !! i = Some p -> returns (parse_data i ctx w).
Proof.
  intros Hi. unfold parse_data. rewrite Hi.
  eapply parse_data_loop_returns; [exact Hi|lia].
Qed.

(** ** The end of a drain cycle *)

Lemma set_buffer_same p : set_buffer p (buffer p) = p.
Proof. now destruct p. Qed.

(** A receive that brings nothing ends the drain loop at that turn, be it the
    first turn of [parse_data] or a later one. *)
Lemma parse_data_loop_stops fuel i ctx w p p1 n e w1 :
  participant_list_base ctx !! i = Some p ->
  grow p w = Some p1 ->
  recv (socket p1) (max_length p1 - length p1) w = (n, e, [], w1) ->
  n = -1 \/ n = 0 ->
  parse_data_loop (S fuel) i ctx w =
    Done (set_base ctx
            (<[i := if (n =? -1) && (e =? EAGAIN) then p1
                    else set_closed p1 true]> (participant_list_base ctx)))
         w1.
Proof.
  intros Hi Hg Hr Hn.
  cbn [parse_data_loop]. unfold parse_data_body. rewrite Hi, Hg, Hr.
  cbn zeta. rewrite store_nil, set_buffer_same.
  destruct Hn as [-> | ->]; cbn.
  - now destruct (e =? EAGAIN).
  - reflexivity.
Qed.

Lemma drains_to_stop i ctx w p p1 n e w1 :
  participant_list_base ctx !! i = Some p ->
  grow p w = Some p1 ->
  recv (socket p1) (max_length p1 - length p1) w = (n, e, [], w1) ->
  n = -1 \/ n = 0 ->
  drains_to i ctx w
    (Done (set_base ctx
             (<[i := if (n =? -1) && (e =? EAGAIN) then p1
                     else set_closed p1 true]> (participant_list_base ctx)))
          w1).
Proof.
  intros Hi Hg Hr Hn. split.
  - unfold parse_data. rewrite Hi. eapply parse_data_loop_stops; eassumption.
  - intros fuel. eapply parse_data_loop_stops; eassumption.
Qed.

(** C7: on a node of the list a turn of the drain cycle either aborts on a
    refused growth or makes its receive.  When the receive finds no data (an
    empty queue, or [errno = EAGAIN]) the cycle ends there, after that one
    call: the flag, the length and the buffered bytes of the node are as
    before, only the capacity may have grown.  When the receive reports the
    end of the stream or another error the cycle ends there with the flag
    set. *)
Theorem parse_data_receive_ends_cycle (i : nat) (ctx : server_context_type)
    (w : world) (p : participant_list_struct) :
  participant_list_base ctx !! i = Some p ->
  well_formed p ->
  match grow p w with
  | None => drains_to i ctx w (Abort w)
  | Some p1 =>
      (pending w (socket p) = []
       \/ (exists q, pending w (socket p) = Failure EAGAIN :: q) ->
       exists w',
         drains_to i ctx w
           (Done (set_base ctx (<[i := p1]> (participant_list_base ctx))) w')
         /\ trace w' = SysRecv (socket p) (-1) :: trace w
         /\ closed p1 = closed p
         /\ length p1 = length p
         /\ take (Z.to_nat (length p)) (buffer p1)
            = take (Z.to_nat (length p)) (buffer p))
      /\ ((exists q, pending w (socket p) = Shutdown :: q)
          \/ (exists e q, pending w (socket p) = Failure e :: q /\ e <> EAGAIN) ->
          exists w' n,
            drains_to i ctx w
              (Done (set_base ctx (<[i := set_closed p1 true]>
                                     (participant_list_base ctx))) w')
            /\ trace w' = SysRecv (socket p) n :: trace w
            /\ n <= 0
            /\ closed (set_closed p1 true) = true)
  end.
Proof.
  intros Hi Hwf. destruct (grow p w) as [p1|] eqn:Hg.
  - pose proof (grow_fields _ _ _ Hg) as (Hs & Hc & Hl).
    assert (Hpre : take (Z.to_nat (length p)) (buffer p1)
                   = take (Z.to_nat (length p)) (buffer p)).
    { rewrite (grow_cases p w Hwf) in Hg.
      destruct Hwf as (Hlen & Hblock & Hcap).
      pose proof (wanted_cases p) as Hw.
      destruct (wanted p =? max_length p); [now injection Hg as <-|].
      destruct (_ && _); [|discriminate]. injection Hg as <-. cbn.
      apply realloc_prefix; unfold buffer_chunk_size in *; lia. }
    split.
    + intros Hq.
      destruct Hq as [Hq|[q Hq]].
      * assert (Hr : recv (socket p1) (max_length p1 - length p1) w
                     = (-1, EAGAIN, [], log (SysRecv (socket p) (-1)) w)).
        { unfold recv. now rewrite Hs, Hq. }
        exists (log (SysRecv (socket p) (-1)) w).
        split; [|now repeat split].
        apply (drains_to_stop _ _ _ _ _ _ _ _ Hi Hg Hr). now left.
      * assert (Hr : recv (socket p1) (max_length p1 - length p1) w
                     = (-1, EAGAIN, [], log (SysRecv (socket p) (-1))
                                            (set_inbound w (socket p) q))).
        { unfold recv. now rewrite Hs, Hq. }
        exists (log (SysRecv (socket p) (-1)) (set_inbound w (socket p) q)).
        split; [|now repeat split].
        apply (drains_to_stop _ _ _ _ _ _ _ _ Hi Hg Hr). now left.
    + intros Hq.
      destruct Hq as [[q Hq]|(e & q & Hq & Hne)].
      * assert (Hr : recv (socket p1) (max_length p1 - length p1) w
                     = (0, 0, [], log (SysRecv (socket p) 0) w)).
        { unfold recv. now rewrite Hs, Hq. }
        exists (log (SysRecv (socket p) 0) w), 0.
        split; [|cbn; repeat split; lia].
        apply (drains_to_stop _ _ _ _ _ _ _ _ Hi Hg Hr). now right.
      * assert (Hr : recv (socket p1) (max_length p1 - length p1) w
                     = (-1, e, [], log (SysRecv (socket p) (-1))
                                       (set_inbound w (socket p) q))).
        { unfold recv. now rewrite Hs, Hq. }
        pose proof (drains_to_stop _ _ _ _ _ _ _ _ Hi Hg Hr
                      ltac:(now left)) as Hd.
        destruct (Z.eqb_spec e EAGAIN) as [?|_]; [contradiction|].
        exists (log (SysRecv (socket p) (-1)) (set_inbound w (socket p) q)),
               (-1).
        split; [exact Hd|cbn; repeat split; lia].
  - split.
    + unfold parse_data. rewrite Hi. cbn. unfold parse_data_body.
      now rewrite Hi, Hg.
    + intros fuel. cbn. unfold parse_data_body. now rewrite Hi, Hg.
Qed.

(** ** The other operations of the loop *)

Lemma terminate_loop_Forall (P : participant_list_struct -> Prop) pnt f c w :
  Forall P pnt -> Forall P (terminate_loop pnt f c w).1.1.
Proof.
  intros H. revert c w. induction H as [|p next Hp _ IH]; intros c w; cbn.
  - constructor.
  - destruct (closed p || f); [apply IH|].
    specialize (IH c w).
    destruct (terminate_loop next f c w) as [[kept c'] w'].
    cbn in *. now constructor.
Qed.

Lemma terminate_loop_trace pnt f c w :
  exists closes,
    trace (terminate_loop pnt f c w).2 = closes ++ trace w
    /\ Forall (fun e => exists s, e = SysClose s) closes.
Proof.
  revert c w. induction pnt as [|p next IH]; intros c w; cbn.
  - exists []. split; [reflexivity|constructor].
  - destruct (closed p || f).
    + destruct (IH (wrap32 (c - 1)) (close (socket p) w)) as (closes & Ht & Hc).
      exists (closes ++ [SysClose (socket p)]). split.
      * rewrite Ht. cbn. now rewrite <- app_assoc.
      * apply Forall_app. split; [exact Hc|]. constructor; [|constructor].
        now exists (socket p).
    + specialize (IH c w).
      destruct (terminate_loop next f c w) as [[kept c'] w']. exact IH.
Qed.

Lemma add_participant_Forall (P : participant_list_struct -> Prop)
    ctx w ctx' w' :
  (forall s, P (new_entry s)) ->
  Forall P (participant_list_base ctx) ->
  add_participant ctx w = Done ctx' w' ->
  Forall P (participant_list_base ctx').
Proof.
  intros Hnew H. rewrite add_participant_unfold. cbn zeta.
  destruct (_ <=? 0); [now intros [= <- _]|].
  destruct (bool_decide _); [now intros [= <- _]|].
  destruct (heap_serves w _); [|discriminate]. intros [= <- _]. cbn.
  apply Forall_app. split; [exact H|]. constructor; [apply Hnew|constructor].
Qed.

(** Sockets that have a place in a descriptor set. *)
Lemma fd_fits_spec s : fd_fits s = true <-> 0 <= s < FD_SETSIZE.
Proof. unfold fd_fits. rewrite andb_true_iff. lia. Qed.

Lemma FD_ISSET_Some s state b :
  FD_ISSET s state = Some b ->
  0 <= s < FD_SETSIZE /\ (b = true <-> s ∈ state).
Proof.
  unfold FD_ISSET. destruct (fd_fits s) eqn:Hf; [|discriminate].
  intros [= <-]. split; [now apply fd_fits_spec|].
  split; [apply bool_decide_eq_true_1|apply bool_decide_eq_true_2].
Qed.

Lemma evolves_sockets ctx w ctx' w' :
  evolves ctx w ctx' w' -> sockets ctx' = sockets ctx.
Proof. intros (H & _). now apply Forall2_latched_sockets. Qed.

Lemma service_loop_well_formed n i state ctx w ctx' w' :
  Forall well_formed (participant_list_base ctx) ->
  service_loop n i state ctx w = Done ctx' w' ->
  Forall well_formed (participant_list_base ctx').
Proof.
  revert i ctx w. induction n as [|n IH]; intros i ctx w Hall; cbn.
  - now intros [= <- <-].
  - destruct (participant_list_base ctx !! i) as [p|]; [|now intros [= <- <-]].
    destruct (FD_ISSET (socket p) state) as [[|]|];
      [|now apply IH|discriminate].
    destruct (parse_data i ctx w) as [ctx1 w1| | |] eqn:Hp; try discriminate.
    apply IH. eapply parse_data_well_formed; eassumption.
Qed.

Lemma service_participants_well_formed state ctx w ctx' w' :
  Forall well_formed (participant_list_base ctx) ->
  service_participants state ctx w = Done ctx' w' ->
  Forall well_formed (participant_list_base ctx').
Proof.
  intros Hall. unfold service_participants, terminate_participants.
  destruct (service_loop _ _ _ _ _) as [ctx1 w1| | |] eqn:Hs; try discriminate.
  apply service_loop_well_formed in Hs; [|exact Hall].
  pose proof (terminate_loop_Forall well_formed _ false
                (participant_count ctx1) w1 Hs) as Hk.
  destruct (terminate_loop _ _ _ _) as [[kept c'] w2]. cbn in Hk.
  now intros [= <- <-].
Qed.

Lemma FD_ISSET_None s state :
  FD_ISSET s state = None -> ~ 0 <= s < FD_SETSIZE.
Proof.
  unfold FD_ISSET. destruct (fd_fits s) eqn:Hf; [discriminate|].
  intros _ H. apply fd_fits_spec in H. congruence.
Qed.

(** The first loop of a pass comes back, or stops at the test of a socket
    that has no place in the descriptor set. *)
Lemma service_loop_returns n i state ctx w :
  returns (service_loop n i state ctx w)
  \/ (service_loop n i state ctx w = Fault
      /\ Exists (fun s => ~ 0 <= s < FD_SETSIZE) (sockets ctx)).
Proof.
  revert i ctx w. induction n as [|n IH]; intros i ctx w; cbn;
    [now left|].
  destruct (participant_list_base ctx !! i) as [p|] eqn:Hi; [|now left].
  destruct (FD_ISSET (socket p) state) as [ready|] eqn:Hready.
  2:{ right. split; [reflexivity|]. apply Exists_exists.
      exists (socket p). split; [|now apply FD_ISSET_None in Hready].
      apply list_elem_of_fmap_2. eapply list_elem_of_lookup_2, Hi. }
  destruct ready; [|apply IH].
  pose proof (parse_data_returns i ctx w p Hi) as Hret.
  destruct (parse_data i ctx w) as [ctx1 w1| | |] eqn:Hd;
    try contradiction; [|now left].
  apply parse_data_evolves, evolves_sockets in Hd. rewrite <- Hd. apply IH.
Qed.

Lemma service_participants_returns state ctx w :
  returns (service_participants state ctx w)
  \/ (service_participants state ctx w = Fault
      /\ Exists (fun s => ~ 0 <= s < FD_SETSIZE) (sockets ctx)).
Proof.
  unfold service_participants.
  destruct (service_loop_returns
              (List.length (participant_list_base ctx)) 0 state ctx w)
    as [H|[-> H]]; [|now right].
  left. destruct (service_loop _ _ _ _ _); try exact H.
  now destruct (terminate_participants _ _ _).
Qed.

(** C6: the invariant of a node, [0 <= length <= max_length] with
    [max_length] the size of the allocated block, is kept by every operation:
    by a growth that returns, by the receive that follows it and advances
    [length], by the search with its broadcast and left-compaction, hence by
    a whole drain cycle, by a whole service pass with its compaction, and by
    the registration of a new connection.  The drain cycle comes back, with
    a context or through the failed [assert]; so does the pass, unless it
    stops at the test of a socket that has no place in the descriptor
    set. *)
Theorem length_within_capacity (i : nat) (ctx : server_context_type)
    (w : world) :
  Forall well_formed (participant_list_base ctx) ->
  Forall (fun p => 0 <= length p <= max_length p
                   /\ Z.of_nat (List.length (buffer p)) = max_length p)
         (participant_list_base ctx)
  /\ (forall p p1,
        participant_list_base ctx !! i = Some p ->
        grow p w = Some p1 ->
        well_formed p1
        /\ forall n e data w1,
             recv (socket p1) (max_length p1 - length p1) w
             = (n, e, data, w1) ->
             n <> -1 ->
             well_formed
               (set_length
                  (set_buffer p1 (store (buffer p1) (length p1) data))
                  (wrap32 (length p1 + n))))
  /\ (forall p onset ctx' w',
        participant_list_base ctx !! i = Some p ->
        0 <= onset <= length p ->
        extract i onset ctx w = Done ctx' w' ->
        Forall well_formed (participant_list_base ctx'))
  /\ (forall ctx' w',
        parse_data i ctx w = Done ctx' w' ->
        Forall well_formed (participant_list_base ctx'))
  /\ (forall p,
        participant_list_base ctx !! i = Some p ->
        returns (parse_data i ctx w))
  /\ (forall state ctx' w',
        service_participants state ctx w = Done ctx' w' ->
        Forall well_formed (participant_list_base ctx'))
  /\ (forall state,
        returns (service_participants state ctx w)
        \/ (service_participants state ctx w = Fault
            /\ Exists (fun s => ~ 0 <= s < FD_SETSIZE) (sockets ctx)))
  /\ (forall ctx' w',
        add_participant ctx w = Done ctx' w' ->
        Forall well_formed (participant_list_base ctx')).
Proof.
  intros Hall. repeat apply conj.
  - eapply Forall_impl; [exact Hall|]. intros p (Hl & Hb & _). now split.
  - intros p p1 Hi Hg.
    assert (Hp1 : well_formed p1).
    { eapply grow_well_formed; [|exact Hg].
      eapply Forall_lookup_1; eassumption. }
    split; [exact Hp1|]. intros n e data w1 Hr Hn.
    eapply received_well_formed; [exact Hp1|exact Hr|exact Hn].
  - intros p onset ctx' w' Hi Ho He.
    eapply extract_well_formed; eassumption.
  - intros ctx' w'. now apply parse_data_well_formed.
  - intros p. apply parse_data_returns.
  - intros state ctx' w'. now apply service_participants_well_formed.
  - intros state. apply service_participants_returns.
  - intros ctx' w'.
    apply add_participant_Forall; [apply well_formed_new_entry|exact Hall].
Qed.

(** Both invariants hold in the context [main] starts with, and the body of
    its loop keeps them. *)
Lemma serve_ready_invariant local_socket reads ctx w ctx' w' :
  Forall is_open (participant_list_base ctx) ->
  Forall well_formed (participant_list_base ctx) ->
  serve_ready local_socket reads ctx w = Done ctx' w' ->
  Forall is_open (participant_list_base ctx')
  /\ Forall well_formed (participant_list_base ctx').
Proof.
  intros Hopen Hwf. unfold serve_ready.
  assert (H : forall c v,
            Forall well_formed (participant_list_base c) ->
            service_participants reads c v = Done ctx' w' ->
            Forall is_open (participant_list_base ctx')
            /\ Forall well_formed (participant_list_base ctx')).
  { intros c v Hc Hs. split;
      [|eapply service_participants_well_formed; eassumption].
    unfold service_participants, terminate_participants in Hs.
    destruct (service_loop _ _ _ _ _) as [c1 v1| | |]; try discriminate.
    pose proof (terminate_loop_kept (participant_list_base c1)
                  (participant_count c1) v1) as Hk.
    destruct (terminate_loop _ _ _ _) as [[kept n] v2]. cbn in Hk.
    now injection Hs as <- <-. }
  destruct (FD_ISSET local_socket reads) as [[|]|]; [| |discriminate].
  - destruct (add_participant ctx w) as [c v| | |] eqn:Ha; try discriminate.
    apply H.
    eapply add_participant_Forall; [apply well_formed_new_entry|exact Hwf|].
    exact Ha.
  - now apply H.
Qed.

Lemma initial_context_invariant :
  Forall is_open (participant_list_base initial_context)
  /\ Forall well_formed (participant_list_base initial_context).
Proof. split; constructor. Qed.

(** ** Closed participants *)


(** ** What an extraction sends and what it keeps *)

Lemma memcmp_zero a b n : memcmp a b n = 0 -> take n a = take n b.
Proof.
  revert a b. induction n as [|n IH]; intros a b; [reflexivity|].
  destruct a as [|x a], b as [|y b]; cbn; try discriminate; [reflexivity|].
  destruct (Byte.eqb x y) eqn:Hxy.
  - apply Byte.byte_dec_bl in Hxy as ->. intros H. f_equal. now apply IH.
  - now destruct (_ <? _)%N.
Qed.

Lemma memmem_scan_sound h needle n k :
  memmem_scan h needle n = Some k -> take n (drop k h) = take n needle.
Proof.
  revert k. induction h as [|x h IH]; intros k; rewrite memmem_scan_unfold.
  - destruct (_ <=? _)%nat; [|discriminate].
    destruct (Z.eqb_spec (memcmp [] needle n) 0) as [Hm|_]; [|discriminate].
    intros [= <-]. now apply memcmp_zero.
  - destruct (_ <=? _)%nat; [|discriminate].
    destruct (Z.eqb_spec (memcmp (x :: h) needle n) 0) as [Hm|_].
    + intros [= <-]. now apply memcmp_zero.
    + destruct (memmem_scan h needle n) as [k'|]; [|discriminate].
      intros [= <-]. cbn. now apply IH.
Qed.

(** A match of [memmem] at distance [k] of the haystack pointer is an
    occurrence of the needle in the block, within the haystack. *)
Lemma memmem_sound block from haystacklen needle k :
  0 <= haystacklen ->
  memmem (drop from block) haystacklen needle (Z.of_nat (List.length needle))
  = Some k ->
  take (List.length needle) (drop (from + k) block) = needle
  /\ Z.of_nat k + Z.of_nat (List.length needle) <= haystacklen.
Proof.
  intros Hh Hm. pose proof Hm as Hb.
  apply memmem_bound in Hb; [|lia|lia]. split; [|exact Hb].
  unfold memmem in Hm. destruct (_ || _); [discriminate|].
  apply memmem_scan_sound in Hm. rewrite Nat2Z.id in Hm.
  rewrite firstn_all in Hm. etransitivity; [|exact Hm].
  rewrite (take_drop_commute (take _ _)), take_take.
  rewrite Nat.min_l by lia.
  now rewrite <- take_drop_commute, drop_drop.
Qed.

(** When the search finds the terminator, the bytes each [send] of the
    broadcast is given run from the start of the buffer to the end of that
    terminator, and the valid bytes that follow it are what the node keeps. *)
Lemma extract_found i onset ctx w p k :
  well_formed p ->
  participant_list_base ctx !! i = Some p ->
  0 <= onset <= length p ->
  memmem (drop (Z.to_nat onset) (buffer p)) (size_t (length p - onset))
         terminator_string terminator_length = Some k ->
  let size := onset + Z.of_nat k + terminator_length in
  let message := take (Z.to_nat size) (buffer p) in
  drop (Z.to_nat (size - terminator_length)) message = terminator_string
  /\ size <= length p
  /\ (forall j q,
        send_call (buffer p) size w j q
        = SysSend (socket q) message (send_outcome w (sends w + j)))
  /\ exists ctx',
       extract i onset ctx w
       = Done ctx' (share_data (buffer p) size ctx w).2
       /\ valid_bytes <$> participant_list_base ctx' !! i
          = Some (drop (Z.to_nat size) (valid_bytes p)).
Proof.
  intros (Hlen & Hblock & Hcap) Hi Honset Hm.
  pose proof (capacity_ok_range _ Hcap) as Hrange.
  rewrite size_t_small in Hm by lia.
  pose proof Hm as Hfound.
  apply (memmem_sound (buffer p) (Z.to_nat onset) _ terminator_string k)
    in Hfound as [Hocc Hfit]; [|lia].
  change (Z.of_nat (List.length terminator_string)) with 8 in Hfit.
  change (List.length terminator_string) with 8%nat in Hocc.
  unfold terminator_length in *. cbn zeta.
  assert (Hsize : Z.to_nat (onset + Z.of_nat k + 8)
                  = (Z.to_nat onset + k + 8)%nat) by lia.
  split; [|split; [lia|split]].
  - replace (Z.to_nat (onset + Z.of_nat k + 8 - 8))
      with (Z.to_nat onset + k)%nat by lia.
    rewrite Hsize. now rewrite <- take_drop_commute.
  - intros j q. unfold send_call. now rewrite size_t_small by lia.
  - unfold extract, terminator_length. rewrite Hi, size_t_small, Hm by lia.
    rewrite (wrap32_small (onset + _ + 8)) by lia.
    rewrite !share_data_spec. cbn.
    rewrite list_lookup_imap, Hi. cbn.
    eexists. split; [reflexivity|].
    cbn. rewrite list_lookup_insert_eq
      by (rewrite length_imap; eapply lookup_lt_Some; exact Hi).
    cbn. f_equal. unfold valid_bytes.
    destruct (after_send_fields w i p) as (_ & Hb & Hl & _).
    cbn. rewrite Hb, Hl.
    rewrite wrap32_small by lia. rewrite size_t_small by lia.
    unfold memmove.
    rewrite take_app_le by (rewrite length_take, length_drop; lia).
    rewrite take_take, Nat.min_id.
    rewrite take_drop_commute. do 2 f_equal. lia.
Qed.

(** * The theorems at concrete inputs *)

Lemma share_data_short_send_witness :
  participant_list_base two_clients !! 1%nat = Some (new_entry 6)
  /\ 0 < send_outcome (calm_world [] 4) (sends (calm_world [] 4) + 1) < 9
  /\ participant_list_base
       (share_data (bytes_of "x</event>") 9 two_clients (calm_world [] 4)).1
     !! 1%nat = Some (new_entry 6).
Proof.
  split; [reflexivity|]. split; [cbn; lia|].
  apply (share_data_short_send (bytes_of "x</event>") 9 two_clients
           (calm_world [] 4) 1 (new_entry 6)); [reflexivity|cbn; lia].
Defined.

Lemma add_participant_spec_witness :
  backlog knocking_world = [7]
  /\ 0 < 7
  /\ 0 <= participant_count one_client < INT_MAX
  /\ exists w',
       add_participant one_client knocking_world
       = Done (mk_ctx [new_entry 5; mk_participant 7 false [] 0 0] 2) w'
       /\ trace w' = [SysFcntlSet 7 2050; SysFcntlGet 7 2; SysAccept 7].
Proof.
  assert (Hc : 0 <= participant_count one_client < INT_MAX)
    by (cbn; unfold INT_MAX; lia).
  split; [reflexivity|]. split; [lia|]. split; [exact Hc|].
  eexists. split.
  - exact (add_participant_spec one_client knocking_world 7 []
             eq_refl ltac:(lia) Hc).
  - reflexivity.
Defined.

Lemma nine_buffered_well_formed : well_formed nine_buffered.
Proof.
  split; [cbn; lia|]. split; [vm_compute; reflexivity|].
  right. exists O. split; [lia|reflexivity].
Qed.


Lemma length_within_capacity_witness :
  Forall well_formed (participant_list_base one_client)
  /\ exists ctx' w',
       parse_data 0 one_client
         (calm_world [(5, [Bytes (bytes_of "a</event>b")])] 10)
       = Done ctx' w'
       /\ Forall well_formed (participant_list_base ctx').
Proof.
  assert (H : Forall well_formed (participant_list_base one_client))
    by (repeat constructor; cbn; auto; lia).
  split; [exact H|].
  do 2 eexists. split; [reflexivity|].
  destruct (length_within_capacity 0 one_client
              (calm_world [(5, [Bytes (bytes_of "a</event>b")])] 10) H)
    as (_ & _ & _ & Hcycle & _).
  eapply Hcycle. reflexivity.
Defined.

Lemma parse_data_receive_ends_cycle_witness :
  participant_list_base one_client !! 0%nat = Some (new_entry 5)
  /\ well_formed (new_entry 5)
  /\ exists ctx' w',
       parse_data 0 one_client (calm_world [] 1) = Done ctx' w'
       /\ trace w' = [SysRecv 5 (-1)].
Proof.
  split; [reflexivity|]. split; [apply well_formed_new_entry|].
  pose proof (parse_data_receive_ends_cycle 0 one_client (calm_world [] 1)
                (new_entry 5) eq_refl (well_formed_new_entry 5)) as H.
  assert (Hg : grow (new_entry 5) (calm_world [] 1)
               = Some (mk_participant 5 false (realloc [] 65536) 0 65536))
    by reflexivity.
  rewrite Hg in H. destruct H as [Hblock _].
  destruct (Hblock (or_introl eq_refl)) as (w' & Hd & Htrace & _).
  destruct Hd as [Hdone _].
  eexists _, w'. split; [exact Hdone|exact Htrace].
Defined.

(** * Where the code departs from the specification *)

(** C1 at a failing input: one chunk that holds two complete messages.  The
    stream has two terminators; the drain cycle consumes the whole chunk,
    hands one message to [send] and leaves the second message, terminator
    included, in the buffer. *)
Theorem two_messages_in_one_chunk :
  occurrences terminator_string (bytes_of "a</event>b</event>") = 2%nat
  /\ match parse_data 0 one_client
             (calm_world [(5, [Bytes (bytes_of "a</event>b</event>")])] 9)
     with
     | Done ctx' w' =>
         sent_to 5 w' = [bytes_of "a</event>"]
         /\ pending w' 5 = []
         /\ valid_bytes <$> participant_list_base ctx'
            = [bytes_of "b</event>"]
     | _ => False
     end.
Proof. vm_compute. repeat split. Qed.

(** The scenario of the specification: three chunks, two terminators, one
    message sent in the pass. *)
Example scenario_of_the_specification :
  match parse_data 0 one_client
          (calm_world [(5, [Bytes (bytes_of "<event>A");
                            Bytes (bytes_of "B</eve");
                            Bytes (bytes_of "nt><event>C</event>")])] 17)
  with
  | Done ctx' w' =>
      sent_to 5 w' = [bytes_of "<event>AB</event>"]
      /\ valid_bytes <$> participant_list_base ctx'
         = [bytes_of "<event>C</event>"]
  | _ => False
  end.
Proof. vm_compute. repeat split. Qed.

(** A terminator left behind the start of the search is never seen on its
    own: the next message goes out with the stale one in front of it. *)
Example stale_message_is_merged :
  match parse_data 0 one_client
          (calm_world [(5, [Bytes (bytes_of "a</event>b</event>c");
                            Bytes (bytes_of "d</event>")])] 9)
  with
  | Done ctx' w' =>
      sent_to 5 w' = [bytes_of "a</event>"; bytes_of "b</event>cd</event>"]
  | _ => False
  end.
Proof. vm_compute. repeat split. Qed.

(** With nine bytes buffered the search does reach back to offset 1: a
    terminator that ends the old bytes is found on the next receive. *)
Example search_reaches_back_a_whole_terminator :
  match parse_data 0 (mk_ctx [nine_buffered] 1)
          (calm_world [(5, [Bytes (bytes_of "c")])] 9)
  with
  | Done ctx' w' =>
      sent_to 5 w' = [bytes_of "b</event>"]
      /\ valid_bytes <$> participant_list_base ctx' = [bytes_of "c"]
  | _ => False
  end.
Proof. vm_compute. repeat split. Qed.


(** * Further properties of the code *)

(** ** The search routine *)

Lemma memcmp_equal a b n :
  (n <= List.length a)%nat -> take n a = take n b -> memcmp a b n = 0.
Proof.
  revert a b. induction n as [|n IH]; intros a b Hn; [intros _; now destruct a|].
  destruct a as [|x a]; [cbn in Hn; lia|].
  destruct b as [|y b]; cbn; [discriminate|].
  intros [= -> Hrest]. rewrite Byte.byte_dec_lb by reflexivity.
  apply IH; [cbn in Hn; lia|exact Hrest].
Qed.

Lemma memmem_scan_first h needle n k :
  memmem_scan h needle n = Some k ->
  forall k', (k' < k)%nat -> take n (drop k' h) <> take n needle.
Proof.
  revert k. induction h as [|x h IH]; intros k; rewrite memmem_scan_unfold.
  - destruct (_ <=? _)%nat; [|discriminate].
    destruct (memcmp [] needle n =? 0); [|discriminate].
    intros [= <-] k' Hk'. lia.
  - destruct (Nat.leb_spec n (List.length (x :: h))) as [Hn|]; [|discriminate].
    destruct (Z.eqb_spec (memcmp (x :: h) needle n) 0) as [|Hne].
    + intros [= <-] k' Hk'. lia.
    + destruct (memmem_scan h needle n) as [k0|] eqn:Hscan; [|discriminate].
      intros [= <-] [|k'] Hk'.
      * intros Heq. apply Hne. now apply memcmp_equal.
      * cbn. apply (IH k0 eq_refl). lia.
Qed.

Lemma memmem_scan_none h needle n :
  memmem_scan h needle n = None ->
  forall k, (k + n <= List.length h)%nat -> take n (drop k h) <> take n needle.
Proof.
  induction h as [|x h IH]; rewrite memmem_scan_unfold.
  - destruct (Nat.leb_spec n (List.length (@nil byte))) as [Hn|Hn].
    + destruct (Z.eqb_spec (memcmp [] needle n) 0) as [|Hne]; [discriminate|].
      intros _ k Hk Heq. apply Hne. apply memcmp_equal; [exact Hn|].
      now rewrite drop_nil in Heq.
    + intros _ k Hk. cbn in *. lia.
  - destruct (Nat.leb_spec n (List.length (x :: h))) as [Hn|Hn].
    + destruct (Z.eqb_spec (memcmp (x :: h) needle n) 0) as [|Hne];
        [discriminate|].
      destruct (memmem_scan h needle n) as [k0|] eqn:Hscan; [discriminate|].
      intros _ [|k] Hk.
      * intros Heq. apply Hne. now apply memcmp_equal.
      * cbn. apply IH; [reflexivity|cbn in Hk; lia].
    + intros _ k Hk. lia.
Qed.

(** An occurrence needs the whole needle to lie in the block. *)
Lemma occurs_at_fits needle block j :
  occurs_at needle block j ->
  (j + List.length needle <= List.length block)%nat \/ needle = [].
Proof.
  unfold occurs_at. intros H.
  destruct needle as [|c needle]; [now right|left].
  apply (f_equal List.length) in H.
  rewrite length_take, length_drop in H.
  change (List.length (c :: needle)) with (S (List.length needle)) in *. lia.
Qed.

(** A window of the haystack read at an offset within it. *)
Lemma take_drop_window {A} (l : list A) n k m :
  (k + n <= m)%nat -> take n (drop k (take m l)) = take n (drop k l).
Proof.
  intros H. rewrite (take_drop_commute (take m l)), take_take.
  rewrite Nat.min_l by lia. now rewrite <- take_drop_commute.
Qed.

Lemma memmem_cases (block needle : list byte) (from : nat)
    (haystacklen : Z) :
  0 <= haystacklen ->
  needle <> [] ->
  match memmem (drop from block) haystacklen needle
               (Z.of_nat (List.length needle)) with
  | Some k =>
      occurs_at needle block (from + k)
      /\ Z.of_nat k + Z.of_nat (List.length needle) <= haystacklen
      /\ forall k', (k' < k)%nat -> ~ occurs_at needle block (from + k')
  | None =>
      forall k,
        Z.of_nat k + Z.of_nat (List.length needle) <= haystacklen ->
        ~ occurs_at needle block (from + k)
  end.
Proof.
  intros Hh Hneedle.
  destruct (memmem _ _ _ _) as [k|] eqn:Hm.
  - destruct (memmem_sound _ _ _ _ _ Hh Hm) as [Hocc Hfit].
    split; [exact Hocc|]. split; [exact Hfit|].
    intros k' Hk' Hocc'. unfold memmem in Hm.
    destruct (_ || _); [discriminate|]. rewrite Nat2Z.id in Hm.
    apply (memmem_scan_first _ _ _ _ Hm k' Hk').
    rewrite firstn_all, take_drop_window by lia.
    rewrite drop_drop. exact Hocc'.
  - intros k Hk Hocc. unfold memmem in Hm.
    assert (Hlen : (0 < List.length needle)%nat)
      by (destruct needle; [contradiction|cbn; lia]).
    destruct (Z.eqb_spec haystacklen 0) as [?|_]; [lia|].
    destruct (Z.eqb_spec (Z.of_nat (List.length needle)) 0) as [?|_]; [lia|].
    cbn in Hm. rewrite Nat2Z.id in Hm.
    destruct (occurs_at_fits _ _ _ Hocc) as [Hfits|?]; [|contradiction].
    apply (memmem_scan_none _ _ _ Hm k).
    + rewrite length_take, length_drop. lia.
    + rewrite firstn_all, take_drop_window by lia.
      rewrite drop_drop. exact Hocc.
Qed.

(** The routine returns the first place of the haystack at which the needle
    lies wholly within [haystacklen] bytes, and [NULL] when there is none. *)
Theorem memmem_first_occurrence (block needle : list byte) (from : nat)
    (haystacklen : Z) :
  0 <= haystacklen ->
  needle <> [] ->
  match memmem (drop from block) haystacklen needle
               (Z.of_nat (List.length needle)) with
  | Some k =>
      occurs_at needle block (from + k)
      /\ Z.of_nat k + Z.of_nat (List.length needle) <= haystacklen
      /\ forall k', (k' < k)%nat -> ~ occurs_at needle block (from + k')
  | None =>
      forall k,
        Z.of_nat k + Z.of_nat (List.length needle) <= haystacklen ->
        ~ occurs_at needle block (from + k)
  end.
Proof. exact (memmem_cases block needle from haystacklen). Qed.

(** The routine returns [NULL] for an empty haystack, for an empty needle
    and for a haystack shorter than the needle. *)
Theorem memmem_nothing_to_find (haystack needle : list byte)
    (haystacklen needlelen : Z) :
  0 <= haystacklen -> 0 <= needlelen ->
  haystacklen = 0 \/ needlelen = 0 \/ haystacklen < needlelen ->
  memmem haystack haystacklen needle needlelen = None.
Proof.
  intros Hh Hn Hcase.
  destruct (memmem haystack haystacklen needle needlelen) as [k|] eqn:Hm;
    [|reflexivity].
  pose proof (memmem_bound _ _ _ _ _ Hh Hn Hm) as Hb.
  unfold memmem in Hm.
  destruct (Z.eqb_spec haystacklen 0), (Z.eqb_spec needlelen 0);
    cbn in Hm; try discriminate. lia.
Qed.

(** ** The descriptor set of [select] *)

Lemma FD_SET_cases s state :
  FD_SET s state
  = if fd_fits s then Some ({[s]} ∪ state) else None.
Proof. reflexivity. Qed.

Lemma set_reads_loop_cases pnt state highest :
  match set_reads_loop pnt state highest with
  | Some (state', h) =>
      Forall (fun p => 0 <= socket p < FD_SETSIZE) pnt
      /\ state' = list_to_set (socket <$> pnt) ∪ state
      /\ highest <= h
      /\ Forall (fun p => socket p <= h) pnt
      /\ (h = highest \/ h ∈ socket <$> pnt)
  | None => Exists (fun p => ~ 0 <= socket p < FD_SETSIZE) pnt
  end.
Proof.
  revert state highest. induction pnt as [|p next IH]; intros state highest.
  - cbn. split; [constructor|]. split; [now rewrite (left_id_L ∅ (∪))|].
    split; [lia|]. split; [constructor|now left].
  - cbn [set_reads_loop]. rewrite FD_SET_cases.
    destruct (fd_fits (socket p)) eqn:Hfit.
    + apply fd_fits_spec in Hfit.
      specialize (IH ({[socket p]} ∪ state)
                     (if socket p >? highest then socket p else highest)).
      destruct (set_reads_loop next _ _) as [[state' h]|].
      * destruct IH as (Hall & Hset & Hge & Hle & Hwhich).
        assert (Hp : highest <= h /\ socket p <= h)
          by (destruct (Z.gtb_spec (socket p) highest); lia).
        split; [now constructor|]. split.
        { rewrite Hset. cbn. apply set_eq. intros s.
          rewrite !elem_of_union. tauto. }
        split; [lia|]. split; [constructor; [lia|exact Hle]|].
        destruct Hwhich as [Hr|Hr].
        -- destruct (Z.gtb_spec (socket p) highest).
           ++ right. rewrite Hr. cbn. left.
           ++ now left.
        -- right. cbn. now right.
      * now apply Exists_cons_tl.
    + apply Exists_cons_hd. rewrite <- fd_fits_spec. congruence.
Qed.

(** [set_reads] adds the socket of every participant to the set, removes
    none, and returns the largest of the given socket and the participants'
    sockets, when every socket has a place in the set; it leaves the defined
    behaviour of [FD_SET] exactly when some socket has none. *)
Theorem set_reads_spec (state : fd_set) (highest_socket : SOCKET)
    (ctx : server_context_type) :
  match set_reads state highest_socket ctx with
  | Some (state', highest) =>
      Forall (fun s => 0 <= s < FD_SETSIZE) (sockets ctx)
      /\ (forall s, s ∈ state' <-> s ∈ state \/ s ∈ sockets ctx)
      /\ highest_socket <= highest
      /\ (forall s, s ∈ sockets ctx -> s <= highest)
      /\ (highest = highest_socket \/ highest ∈ sockets ctx)
  | None => exists s, s ∈ sockets ctx /\ ~ 0 <= s < FD_SETSIZE
  end.
Proof.
  unfold set_reads, sockets.
  pose proof (set_reads_loop_cases (participant_list_base ctx) state
                highest_socket) as H.
  destruct (set_reads_loop _ _ _) as [[state' highest]|].
  - destruct H as (Hall & -> & Hge & Hle & Hwhich).
    split; [now apply Forall_fmap|].
    split; [|split; [exact Hge|split; [|exact Hwhich]]].
    + intros s. rewrite elem_of_union, elem_of_list_to_set. tauto.
    + intros s Hs. apply list_elem_of_fmap in Hs as (p & -> & Hp).
      exact (proj1 (Forall_forall _ _) Hle p Hp).
  - apply Exists_exists in H as (p & Hp & Hout).
    exists (socket p). split; [now apply list_elem_of_fmap_2|exact Hout].
Qed.

(** ** Removal from the registry *)

Lemma filter_all {A} (P : A -> Prop) `{forall x, Decision (P x)} (l : list A) :
  (forall x, P x) -> filter P l = l.
Proof.
  intros HP. induction l as [|x l IH]; [reflexivity|].
  rewrite (filter_cons_True P x l) by apply HP. now rewrite IH.
Qed.

Lemma filter_none {A} (P : A -> Prop) `{forall x, Decision (P x)}
    (l : list A) :
  (forall x, ~ P x) -> filter P l = [].
Proof.
  intros HP. induction l as [|x l IH]; [reflexivity|].
  now rewrite (filter_cons_False P x l) by apply HP.
Qed.

Lemma terminate_loop_spec pnt f c w :
  (terminate_loop pnt f c w).1.1
  = filter (fun p => closed p || f = false) pnt
  /\ (terminate_loop pnt f c w).2
     = mk_world (inbound w) (backlog w) (send_outcome w) (sends w)
         (heap_serves w) (getfl_outcome w)
         (rev (SysClose <$>
                 (socket <$> filter (fun p => closed p || f = true) pnt))
          ++ trace w).
Proof.
  revert c w. induction pnt as [|p next IH]; intros c w.
  - cbn. split; [reflexivity|now destruct w].
  - cbn [terminate_loop]. destruct (closed p || f) eqn:Hp.
    + destruct (IH (wrap32 (c - 1)) (close (socket p) w)) as [Hk Hw].
      rewrite Hk, Hw.
      rewrite (filter_cons_False (fun q => closed q || f = false) p next)
        by (rewrite Hp; discriminate).
      rewrite (filter_cons_True (fun q => closed q || f = true) p next)
        by exact Hp.
      split; [reflexivity|]. cbn. now rewrite <- app_assoc.
    + destruct (IH c w) as [Hk Hw].
      destruct (terminate_loop next f c w) as [[kept c'] w'].
      cbn [fst snd] in *.
      rewrite (filter_cons_True (fun q => closed q || f = false) p next)
        by exact Hp.
      rewrite (filter_cons_False (fun q => closed q || f = true) p next)
        by (rewrite Hp; discriminate).
      now rewrite Hk, Hw.
Qed.

Lemma terminate_loop_count pnt f c w :
  Z.of_nat (List.length pnt) <= c < 2 ^ 31 ->
  (terminate_loop pnt f c w).1.2
  = c - Z.of_nat (List.length pnt)
    + Z.of_nat (List.length (terminate_loop pnt f c w).1.1).
Proof.
  revert c w. induction pnt as [|p next IH]; intros c w Hc; cbn [terminate_loop].
  - cbn. lia.
  - change (List.length (p :: next)) with (S (List.length next)) in *.
    destruct (closed p || f).
    + rewrite IH by (rewrite wrap32_small; lia).
      rewrite wrap32_small by lia. lia.
    + specialize (IH c w ltac:(lia)).
      destruct (terminate_loop next f c w) as [[kept c'] w']. cbn in *. lia.
Qed.

(** [terminate_participants] with [force_all] set removes every node and
    closes every socket of the registry once, in list order, whatever the
    [closed] flags are; it makes no other call. *)
Theorem terminate_participants_force_all (ctx : server_context_type)
    (w : world) :
  participant_list_base (terminate_participants ctx true w).1 = []
  /\ (terminate_participants ctx true w).2
     = mk_world (inbound w) (backlog w) (send_outcome w) (sends w)
         (heap_serves w) (getfl_outcome w)
         (rev (SysClose <$> sockets ctx) ++ trace w).
Proof.
  unfold terminate_participants, sockets.
  destruct (terminate_loop_spec (participant_list_base ctx) true
              (participant_count ctx) w) as [Hk Hw].
  destruct (terminate_loop _ _ _ _) as [[kept c'] w']. cbn in *.
  subst kept w'. split.
  - apply filter_none. intros p. rewrite orb_true_r. discriminate.
  - rewrite (filter_all (fun p => closed p || true = true));
      [reflexivity|]. intros p. apply orb_true_r.
Qed.

(** [terminate_participants] without [force_all] keeps the nodes that are
    not flagged, in their order, and closes the sockets of the flagged ones
    once each, in list order; it makes no other call. *)
Theorem terminate_participants_closed_only (ctx : server_context_type)
    (w : world) :
  participant_list_base (terminate_participants ctx false w).1
  = filter (fun p => closed p = false) (participant_list_base ctx)
  /\ (terminate_participants ctx false w).2
     = mk_world (inbound w) (backlog w) (send_outcome w) (sends w)
         (heap_serves w) (getfl_outcome w)
         (rev (SysClose <$>
                 (socket <$> filter (fun p => closed p = true)
                                    (participant_list_base ctx)))
          ++ trace w).
Proof.
  unfold terminate_participants.
  destruct (terminate_loop_spec (participant_list_base ctx) false
              (participant_count ctx) w) as [Hk Hw].
  destruct (terminate_loop _ _ _ _) as [[kept c'] w']. cbn in *.
  subst kept w'. split.
  - apply list_filter_iff. intros p. now rewrite orb_false_r.
  - do 5 f_equal. apply list_filter_iff. intros p. now rewrite orb_false_r.
Qed.

(** ** Registration, again *)

Lemma set_nonblocking_trace sock w :
  trace (set_nonblocking sock w)
  = (if getfl_outcome w sock >? 0
     then [SysFcntlSet sock (Z.lor (getfl_outcome w sock) O_NONBLOCK)]
     else [])
    ++ SysFcntlGet sock (getfl_outcome w sock) :: trace w.
Proof.
  unfold set_nonblocking, fcntl_getfl, fcntl_setfl.
  now destruct (getfl_outcome w sock >? 0).
Qed.

Lemma add_participant_cases (ctx : server_context_type) (w : world) :
  exists r calls,
    (r <= 0 -> calls = [])
    /\ (0 < r ->
        calls
        = (if getfl_outcome w r >? 0
           then [SysFcntlSet r (Z.lor (getfl_outcome w r) O_NONBLOCK)]
           else [])
          ++ [SysFcntlGet r (getfl_outcome w r)])
    /\ match add_participant ctx w with
       | Done ctx' w' =>
           trace w' = calls ++ SysAccept r :: trace w
           /\ inbound w' = inbound w
           /\ ((ctx' = ctx /\ (r <= 0 \/ r ∈ sockets ctx))
               \/ (0 < r /\ (r ∉ sockets ctx)
                   /\ heap_serves w sizeof_participant_list_struct = true
                   /\ ctx'
                      = mk_ctx (participant_list_base ctx ++ [new_entry r])
                               (wrap32 (participant_count ctx + 1))))
       | Abort w' =>
           trace w' = calls ++ SysAccept r :: trace w
           /\ 0 < r /\ (r ∉ sockets ctx)
           /\ heap_serves w sizeof_participant_list_struct = false
       | _ => False
       end.
Proof.
  rewrite add_participant_unfold. cbn zeta.
  set (r := (accept w).1). set (w1 := (accept w).2).
  assert (Ht : trace w1 = SysAccept r :: trace w)
    by (unfold w1, r, accept; now destruct (backlog w)).
  destruct (accept_fields w) as (Hin & _ & _ & _ & Hfl). fold w1 in Hin, Hfl.
  exists r. destruct (Z.leb_spec r 0) as [Hr|Hr].
  { exists []. split; [reflexivity|]. split; [lia|].
    split; [exact Ht|]. split; [exact Hin|]. left. split; [reflexivity|].
    now left. }
  eexists. split; [lia|]. split; [reflexivity|].
  assert (Htrace : trace (set_nonblocking r w1)
                   = ((if getfl_outcome w r >? 0
                       then [SysFcntlSet r
                               (Z.lor (getfl_outcome w r) O_NONBLOCK)]
                       else [])
                      ++ [SysFcntlGet r (getfl_outcome w r)])
                     ++ SysAccept r :: trace w).
  { rewrite set_nonblocking_trace, Hfl, Ht. now rewrite <- app_assoc. }
  assert (Hinb : inbound (set_nonblocking r w1) = inbound w).
  { destruct (set_nonblocking_fields r w1) as (-> & _). exact Hin. }
  destruct (bool_decide_reflect (r ∈ sockets ctx)) as [Hold|Hnew].
  { split; [exact Htrace|]. split; [exact Hinb|]. left.
    split; [reflexivity|now right]. }
  destruct (heap_serves w sizeof_participant_list_struct) eqn:Hheap.
  - split; [exact Htrace|]. split; [exact Hinb|]. right. now repeat split.
  - split; [exact Htrace|]. now repeat split.
Qed.

(** The context [add_participant] returns. *)
Lemma add_participant_Done ctx w ctx' w' :
  add_participant ctx w = Done ctx' w' ->
  ctx' = ctx
  \/ exists r,
       0 < r /\ (r ∉ sockets ctx)
       /\ ctx' = mk_ctx (participant_list_base ctx ++ [new_entry r])
                        (wrap32 (participant_count ctx + 1)).
Proof.
  intros Ha. destruct (add_participant_cases ctx w) as (r & calls & _ & _ & H).
  rewrite Ha in H. destruct H as (_ & _ & [[-> _]|(Hr & Hnew & _ & ->)]).
  - now left.
  - right. now exists r.
Qed.

(** [add_participant] makes one [accept]; for an accepted socket it reads
    the file status flags and, when they are positive, writes them back with
    [O_NONBLOCK] added, also when the registry has the socket; it makes no
    other call.  When the [accept] fails, or yields a socket the registry
    has, the context is returned as it is; otherwise the nodes of the
    registry stay as they are and in place and one fresh node follows them,
    unless the allocator refuses the node: then the [assert] ends the
    process. *)
Theorem add_participant_frame (ctx : server_context_type) (w : world) :
  exists r calls,
    (r <= 0 -> calls = [])
    /\ (0 < r ->
        calls
        = (if getfl_outcome w r >? 0
           then [SysFcntlSet r (Z.lor (getfl_outcome w r) O_NONBLOCK)]
           else [])
          ++ [SysFcntlGet r (getfl_outcome w r)])
    /\ match add_participant ctx w with
       | Done ctx' w' =>
           trace w' = calls ++ SysAccept r :: trace w
           /\ inbound w' = inbound w
           /\ ((ctx' = ctx /\ (r <= 0 \/ r ∈ sockets ctx))
               \/ (0 < r /\ (r ∉ sockets ctx)
                   /\ heap_serves w sizeof_participant_list_struct = true
                   /\ ctx'
                      = mk_ctx (participant_list_base ctx ++ [new_entry r])
                               (wrap32 (participant_count ctx + 1))))
       | Abort w' =>
           trace w' = calls ++ SysAccept r :: trace w
           /\ 0 < r /\ (r ∉ sockets ctx)
           /\ heap_serves w sizeof_participant_list_struct = false
       | _ => False
       end.
Proof. exact (add_participant_cases ctx w). Qed.

(** ** Invariants of the registry along the loop of [main] *)

Lemma service_participants_sublist state ctx w ctx' w' :
  service_participants state ctx w = Done ctx' w' ->
  sockets ctx' `sublist_of` sockets ctx
  /\ (participant_count ctx = Z.of_nat (List.length (participant_list_base ctx))
      -> participant_count ctx < 2 ^ 31
      -> participant_count ctx'
         = Z.of_nat (List.length (participant_list_base ctx'))).
Proof.
  unfold service_participants, terminate_participants.
  destruct (service_loop _ _ _ _ _) as [ctx1 w1| | |] eqn:Hs; try discriminate.
  apply service_loop_evolves in Hs as (Hl & Hc & _).
  pose proof (Forall2_latched_sockets _ _ Hl) as Hsock.
  pose proof (Forall2_length _ _ _ Hl) as Hlen.
  destruct (terminate_loop_spec (participant_list_base ctx1) false
              (participant_count ctx1) w1) as [Hk _].
  pose proof (terminate_loop_count (participant_list_base ctx1) false
                (participant_count ctx1) w1) as Hn.
  destruct (terminate_loop _ _ _ _) as [[kept c'] w2]. cbn in *.
  intros [= <- <-]. cbn. split.
  - unfold sockets. rewrite <- Hsock, Hk.
    apply fmap_sublist, sublist_filter.
  - intros Hcount Hfit. rewrite Hn by lia. lia.
Qed.

Lemma serve_ready_NoDup (local_socket : SOCKET) (reads : fd_set)
    (ctx : server_context_type) (w : world)
    (ctx' : server_context_type) (w' : world) :
  NoDup (sockets ctx) ->
  serve_ready local_socket reads ctx w = Done ctx' w' ->
  NoDup (sockets ctx').
Proof.
  intros Hnd. unfold serve_ready.
  assert (Hadd : forall c v,
            add_participant ctx w = Done c v -> NoDup (sockets c)).
  { intros c v Ha.
    destruct (add_participant_Done _ _ _ _ Ha) as [->|(r & _ & Hfresh & ->)];
      [exact Hnd|].
    unfold sockets in *. cbn. rewrite fmap_app. cbn.
    apply NoDup_app. split; [exact Hnd|]. split; [|apply NoDup_singleton].
    intros s Hs ->%list_elem_of_singleton. contradiction. }
  destruct (FD_ISSET local_socket reads) as [[|]|]; [| |discriminate].
  - destruct (add_participant ctx w) as [c v| | |] eqn:Ha; try discriminate.
    specialize (Hadd c v eq_refl). intros Hs.
    apply service_participants_sublist in Hs as [Hsub _].
    exact (sublist_NoDup _ _ Hadd Hsub).
  - intros Hs. apply service_participants_sublist in Hs as [Hsub _].
    exact (sublist_NoDup _ _ Hnd Hsub).
Qed.

Lemma serve_ready_counted (local_socket : SOCKET) (reads : fd_set)
    (ctx : server_context_type) (w : world)
    (ctx' : server_context_type) (w' : world) :
  participant_count ctx = Z.of_nat (List.length (participant_list_base ctx)) ->
  participant_count ctx < INT_MAX ->
  serve_ready local_socket reads ctx w = Done ctx' w' ->
  participant_count ctx' = Z.of_nat (List.length (participant_list_base ctx'))
  /\ participant_count ctx' <= participant_count ctx + 1.
Proof.
  intros Hcount Hfit. unfold serve_ready, INT_MAX in *.
  assert (Hadd : forall c v,
            add_participant ctx w = Done c v ->
            participant_count c
            = Z.of_nat (List.length (participant_list_base c))
            /\ participant_count c <= participant_count ctx + 1).
  { intros c v Ha.
    destruct (add_participant_Done _ _ _ _ Ha) as [->|(r & _ & _ & ->)];
      [lia|].
    cbn. rewrite length_app. cbn. rewrite wrap32_small by lia. lia. }
  assert (Hpass : forall c v,
            participant_count c
            = Z.of_nat (List.length (participant_list_base c)) ->
            participant_count c <= participant_count ctx + 1 ->
            service_participants reads c v = Done ctx' w' ->
            participant_count ctx'
            = Z.of_nat (List.length (participant_list_base ctx'))
            /\ participant_count ctx' <= participant_count ctx + 1).
  { intros c v Hc Hle Hs.
    apply service_participants_sublist in Hs as [Hsub Hkeep].
    split; [apply Hkeep; lia|].
    apply sublist_length in Hsub. unfold sockets in Hsub.
    rewrite !length_fmap in Hsub. rewrite Hkeep by lia. lia. }
  destruct (FD_ISSET local_socket reads) as [[|]|]; [| |discriminate].
  - destruct (add_participant ctx w) as [c v| | |] eqn:Ha; try discriminate.
    destruct (Hadd c v eq_refl). now apply Hpass.
  - apply Hpass; [exact Hcount|lia].
Qed.

(** The body of the loop of [main] keeps the sockets of the registry
    distinct: a node is added only for a socket the registry lacks, and the
    drain cycles and the compaction rename none. *)
Theorem serve_ready_distinct_sockets (local_socket : SOCKET) (reads : fd_set)
    (ctx : server_context_type) (w : world)
    (ctx' : server_context_type) (w' : world) :
  NoDup (sockets ctx) ->
  serve_ready local_socket reads ctx w = Done ctx' w' ->
  NoDup (sockets ctx').
Proof. exact (serve_ready_NoDup local_socket reads ctx w ctx' w'). Qed.

(** The body of the loop of [main] keeps [participant_count] equal to the
    number of nodes of the registry, which grows by one node at most. *)
Theorem serve_ready_count (local_socket : SOCKET) (reads : fd_set)
    (ctx : server_context_type) (w : world)
    (ctx' : server_context_type) (w' : world) :
  participant_count ctx = Z.of_nat (List.length (participant_list_base ctx)) ->
  participant_count ctx < INT_MAX ->
  serve_ready local_socket reads ctx w = Done ctx' w' ->
  participant_count ctx' = Z.of_nat (List.length (participant_list_base ctx'))
  /\ participant_count ctx' <= participant_count ctx + 1.
Proof. exact (serve_ready_counted local_socket reads ctx w ctx' w'). Qed.

(** ** What a drain cycle leaves alone *)

Lemma untouched_refl p : untouched p p.
Proof. now repeat split. Qed.

Lemma drain_frame_refl i s ctx w : drain_frame i s ctx w ctx w.
Proof.
  split; [reflexivity|]. split.
  - intros j p p' _ Hp Hp'. rewrite Hp in Hp'. injection Hp' as <-.
    apply untouched_refl.
  - split; [reflexivity|]. split; [reflexivity|]. split; [reflexivity|].
    exists []. split; [reflexivity|constructor].
Qed.

Lemma drain_frame_trans i s ctx w ctx1 w1 ctx2 w2 :
  drain_frame i s ctx w ctx1 w1 -> drain_frame i s ctx1 w1 ctx2 w2 ->
  drain_frame i s ctx w ctx2 w2.
Proof.
  intros (Hlen & Hnodes & Hin & Hback & Hheap & calls & Ht & Hcalls)
         (Hlen' & Hnodes' & Hin' & Hback' & Hheap' & calls' & Ht' & Hcalls').
  split; [congruence|]. split.
  - intros j p p2 Hj Hp Hp2.
    destruct (lookup_lt_is_Some_2 (participant_list_base ctx1) j) as [p1 Hp1].
    { rewrite Hlen. eapply lookup_lt_Some; exact Hp. }
    destruct (Hnodes j p p1 Hj Hp Hp1) as (? & ? & ? & ?).
    destruct (Hnodes' j p1 p2 Hj Hp1 Hp2) as (? & ? & ? & ?).
    repeat split; congruence.
  - split; [intros s' Hs'; rewrite Hin', Hin by exact Hs'; reflexivity|].
    split; [congruence|]. split; [congruence|].
    exists (calls' ++ calls). split.
    + rewrite Ht', Ht. now rewrite app_assoc.
    + apply Forall_app. now split.
Qed.

Lemma drain_frame_insert i s ctx w q :
  drain_frame i s ctx w
    (set_base ctx (<[i := q]> (participant_list_base ctx))) w.
Proof.
  split; [cbn; apply length_insert|]. split.
  - intros j p p' Hj Hp. cbn. rewrite list_lookup_insert_ne by congruence.
    rewrite Hp. intros [= <-]. apply untouched_refl.
  - split; [reflexivity|]. split; [reflexivity|]. split; [reflexivity|].
    exists []. split; [reflexivity|constructor].
Qed.

Lemma drain_frame_share i s block len ctx w :
  drain_frame i s ctx w
    (share_data block len ctx w).1 (share_data block len ctx w).2.
Proof.
  rewrite share_data_spec. unfold drain_frame.
  cbn [fst snd set_base participant_list_base inbound backlog heap_serves
       trace].
  split; [apply length_imap|]. split.
  - intros j p p' _ Hp. rewrite list_lookup_imap, Hp. intros [= <-].
    destruct (after_send_fields w j p) as (? & ? & ? & ?). now repeat split.
  - split; [reflexivity|]. split; [reflexivity|]. split; [reflexivity|].
    eexists. split; [reflexivity|].
    apply Forall_rev, Forall_lookup. intros j e. rewrite list_lookup_imap.
    destruct (participant_list_base ctx !! j); [|discriminate].
    now intros [= <-].
Qed.

Lemma drain_frame_recv i s len ctx w n e data w1 :
  recv s len w = (n, e, data, w1) -> drain_frame i s ctx w ctx w1.
Proof.
  intros Hr. split; [reflexivity|]. split.
  - intros j p p' _ Hp Hp'. rewrite Hp in Hp'. injection Hp' as <-.
    apply untouched_refl.
  - pose proof (recv_trace _ _ _ _ _ _ _ Hr) as Ht.
    assert (Hw : (forall s', s' <> s -> inbound w1 !! s' = inbound w !! s')
                 /\ backlog w1 = backlog w
                 /\ heap_serves w1 = heap_serves w).
    { unfold recv in Hr.
      destruct (pending w s) as [|[bs|errno|] q];
        [| destruct (_ <=? _)%nat | |]; injection Hr as _ _ _ <-; cbn;
        (split; [intros s' Hs'|split; reflexivity]);
        try reflexivity; now rewrite lookup_insert_ne by congruence. }
    destruct Hw as (Hin & Hback & Hheap).
    split; [exact Hin|]. split; [exact Hback|]. split; [exact Hheap|].
    exists [SysRecv s n]. split; [exact Ht|].
    constructor; [reflexivity|constructor].
Qed.

Lemma extract_frame i s onset ctx w ctx' w' :
  extract i onset ctx w = Done ctx' w' -> drain_frame i s ctx w ctx' w'.
Proof.
  unfold extract.
  destruct (participant_list_base ctx !! i) as [p|]; [|discriminate].
  destruct (memmem _ _ _ _) as [k|];
    [|intros [= <- <-]; apply drain_frame_refl].
  pose proof (drain_frame_share i s (buffer p)
                (wrap32 (onset + Z.of_nat k + terminator_length)) ctx w) as Hs.
  destruct (share_data _ _ ctx w) as [ctx1 w1]. cbn [fst snd] in Hs.
  destruct (participant_list_base ctx1 !! i) as [p1|]; [|discriminate].
  intros [= <- <-]. eapply drain_frame_trans; [exact Hs|].
  apply drain_frame_insert.
Qed.

Lemma parse_data_body_frame i ctx w p n ctx' w' :
  participant_list_base ctx !! i = Some p ->
  parse_data_body i ctx w = Done (n, ctx') w' ->
  drain_frame i (socket p) ctx w ctx' w'.
Proof.
  intros Hi. unfold parse_data_body. rewrite Hi.
  destruct (grow p w) as [p1|] eqn:Hg; [|discriminate].
  apply grow_fields in Hg as (Hs & _). rewrite Hs.
  destruct (recv _ _ w) as [[[numRead errno] data] w1] eqn:Hr.
  apply (drain_frame_recv i _ _ ctx) in Hr. cbn zeta.
  assert (Hput : forall q,
            drain_frame i (socket p) ctx w
              (set_base ctx (<[i := q]> (participant_list_base ctx))) w1).
  { intros q. eapply drain_frame_trans; [exact Hr|].
    apply drain_frame_insert. }
  destruct (numRead =? -1).
  { destruct (errno =? EAGAIN); intros [= <- <- <-]; apply Hput. }
  destruct (numRead =? 0).
  { intros [= <- <- <-]; apply Hput. }
  destruct (extract _ _ _ w1) as [ctx2 w2| | |] eqn:He; try discriminate.
  intros [= <- <- <-]. apply (extract_frame i (socket p)) in He.
  eapply drain_frame_trans; [apply Hput|exact He].
Qed.

Lemma parse_data_loop_frame fuel i ctx w p ctx' w' :
  participant_list_base ctx !! i = Some p ->
  parse_data_loop fuel i ctx w = Done ctx' w' ->
  drain_frame i (socket p) ctx w ctx' w'.
Proof.
  revert ctx w p. induction fuel as [|fuel IH]; intros ctx w p Hi; cbn;
    [discriminate|].
  destruct (parse_data_body i ctx w) as [[n ctx1] w1| | |] eqn:Hb;
    try discriminate.
  pose proof (parse_data_body_frame _ _ _ _ _ _ _ Hi Hb) as Hframe.
  apply parse_data_body_evolves in Hb as (Hl & _).
  destruct (Forall2_lookup_l _ _ _ _ _ Hl Hi) as (p1 & Hi1 & Hs & _).
  destruct (n >? 0).
  - intros H. apply (IH _ _ _ Hi1) in H. rewrite Hs in H.
    eapply drain_frame_trans; eassumption.
  - now intros [= <- <-].
Qed.

(** A drain cycle on one connection receives from that connection only; it
    leaves the input queued on every other connection and the connections
    waiting to be accepted as they are, and of the other nodes it changes
    nothing but the flag: their blocks and lengths are as before. *)
Theorem parse_data_isolation (i : nat) (ctx : server_context_type)
    (w : world) (p : participant_list_struct)
    (ctx' : server_context_type) (w' : world) :
  participant_list_base ctx !! i = Some p ->
  parse_data i ctx w = Done ctx' w' ->
  (forall j q,
     j <> i -> participant_list_base ctx !! j = Some q ->
     exists q',
       participant_list_base ctx' !! j = Some q'
       /\ socket q' = socket q /\ buffer q' = buffer q
       /\ length q' = length q /\ max_length q' = max_length q)
  /\ (forall s, s <> socket p -> pending w' s = pending w s)
  /\ backlog w' = backlog w
  /\ exists calls,
       trace w' = calls ++ trace w
       /\ Forall (fun e => match e with
                           | SysRecv s _ => s = socket p
                           | SysSend _ _ _ => True
                           | _ => False
                           end) calls.
Proof.
  intros Hi Hp. unfold parse_data in Hp. rewrite Hi in Hp.
  apply (parse_data_loop_frame _ _ _ _ _ _ _ Hi) in Hp
    as (Hlen & Hnodes & Hin & Hback & _ & Hcalls).
  split; [|split; [|split; [exact Hback|exact Hcalls]]].
  - intros j q Hj Hq.
    destruct (lookup_lt_is_Some_2 (participant_list_base ctx') j) as [q' Hq'].
    { rewrite Hlen. eapply lookup_lt_Some; exact Hq. }
    exists q'. split; [exact Hq'|]. exact (Hnodes j q q' Hj Hq Hq').
  - intros s Hs. unfold pending. now rewrite Hin.
Qed.

(** ** No byte is lost, none is made up *)

Lemma sent_to_calls s w w' calls :
  trace w' = calls ++ trace w ->
  sent_to s w' = sent_to s w ++ omap (sent_bytes s) (rev calls).
Proof.
  intros Ht. unfold sent_to. rewrite Ht, rev_app_distr.
  apply (omap_app (sent_bytes s)).
Qed.

Lemma omap_imap_calls s (g : nat -> participant_list_struct -> syscall)
    (h : participant_list_struct -> option (list byte)) ps :
  (forall j q, sent_bytes s (g j q) = h q) ->
  omap (sent_bytes s) (imap g ps) = omap h ps.
Proof.
  revert g. induction ps as [|q ps IH]; intros g Hg; [reflexivity|].
  cbn. rewrite Hg. rewrite (IH (g ∘ S)) by (intros j q'; apply Hg).
  reflexivity.
Qed.

Lemma omap_one_socket (m : list byte) ps i p :
  NoDup (socket <$> ps) -> ps !! i = Some p ->
  omap (fun q => if socket q =? socket p then Some m else None) ps = [m].
Proof.
  revert i. induction ps as [|q ps IH]; intros i Hnd Hi; [discriminate|].
  cbn in Hnd. apply NoDup_cons in Hnd as [Hq Hnd]. cbn.
  destruct i as [|i]; cbn in Hi.
  - injection Hi as ->. rewrite Z.eqb_refl. cbn. f_equal.
    clear IH Hnd. induction ps as [|q ps IH]; [reflexivity|].
    cbn. rewrite fmap_cons, not_elem_of_cons in Hq. destruct Hq as [Hne Hq].
    destruct (Z.eqb_spec (socket q) (socket p)); [congruence|].
    cbn. now apply IH.
  - destruct (Z.eqb_spec (socket q) (socket p)) as [Heq|_].
    + exfalso. apply Hq. rewrite Heq. apply list_elem_of_fmap_2.
      eapply list_elem_of_lookup_2; exact Hi.
    + cbn. eapply IH; eassumption.
Qed.

(** A broadcast hands its message to each socket of a registry of distinct
    sockets once. *)
Lemma share_data_sent_to block len ctx w i p :
  NoDup (sockets ctx) -> participant_list_base ctx !! i = Some p ->
  sent_to (socket p) (share_data block len ctx w).2
  = sent_to (socket p) w ++ [take (Z.to_nat (size_t len)) block].
Proof.
  intros Hnd Hi. rewrite share_data_spec. cbn [snd].
  erewrite sent_to_calls by reflexivity. f_equal.
  rewrite rev_involutive.
  rewrite (omap_imap_calls _ _
             (fun q => if socket q =? socket p
                       then Some (take (Z.to_nat (size_t len)) block)
                       else None)) by reflexivity.
  eapply omap_one_socket; eassumption.
Qed.

Lemma recv_stream s len w n e data w1 :
  recv s len w = (n, e, data, w1) ->
  data ++ stream (pending w1 s) = stream (pending w s)
  /\ sent_to s w1 = sent_to s w.
Proof.
  intros Hr. split.
  - unfold recv in Hr. destruct (pending w s) as [|[bs|errno|] q] eqn:Hq.
    + injection Hr as _ _ <- <-. unfold pending in *. cbn. now rewrite Hq.
    + destruct (_ <=? _)%nat; injection Hr as _ _ <- <-;
        unfold pending at 1; cbn; rewrite lookup_insert_eq; cbn;
        [reflexivity|].
      now rewrite app_assoc, take_drop.
    + injection Hr as _ _ <- <-. unfold pending at 1. cbn.
      now rewrite lookup_insert_eq.
    + injection Hr as _ _ <- <-. unfold pending in *. cbn. now rewrite Hq.
  - apply recv_trace in Hr.
    rewrite (sent_to_calls s w w1 [SysRecv s n] Hr). cbn.
    apply app_nil_r.
Qed.

Lemma grow_valid_bytes p w p1 :
  well_formed p -> grow p w = Some p1 -> valid_bytes p1 = valid_bytes p.
Proof.
  intros Hwf Hg. pose proof (grow_fields _ _ _ Hg) as (_ & _ & Hl).
  unfold valid_bytes. rewrite Hl.
  rewrite (grow_cases p w Hwf) in Hg.
  destruct Hwf as (Hlen & Hblock & Hcap).
  pose proof (wanted_cases p) as Hw.
  destruct (wanted p =? max_length p); [now injection Hg as <-|].
  destruct (_ && _); [|discriminate]. injection Hg as <-. cbn.
  apply realloc_prefix; unfold buffer_chunk_size in *; lia.
Qed.

Lemma received_valid_bytes p data n :
  well_formed p ->
  n = Z.of_nat (List.length data) -> n <= max_length p - length p ->
  valid_bytes (set_length (set_buffer p (store (buffer p) (length p) data))
                          (wrap32 (length p + n)))
  = valid_bytes p ++ data.
Proof.
  intros (Hlen & Hblock & Hcap) -> Hfit.
  pose proof (capacity_ok_range _ Hcap) as Hrange.
  unfold valid_bytes, store. cbn. rewrite wrap32_small by lia.
  replace (Z.to_nat (length p + Z.of_nat (List.length data)))
    with (List.length (take (Z.to_nat (length p)) (buffer p))
          + List.length data)%nat
    by (rewrite length_take; lia).
  rewrite take_app_add, take_app_length. reflexivity.
Qed.

Lemma extract_conserves i onset ctx w p ctx' w' :
  well_formed p ->
  participant_list_base ctx !! i = Some p ->
  NoDup (sockets ctx) ->
  0 <= onset <= length p ->
  extract i onset ctx w = Done ctx' w' ->
  exists p' msgs,
    participant_list_base ctx' !! i = Some p'
    /\ sent_to (socket p) w' = sent_to (socket p) w ++ msgs
    /\ concat msgs ++ valid_bytes p' = valid_bytes p
    /\ Forall (fun m => terminator_string `suffix_of` m) msgs.
Proof.
  intros Hwf Hi Hnd Honset He.
  destruct (memmem (drop (Z.to_nat onset) (buffer p))
              (size_t (length p - onset)) terminator_string
              terminator_length) as [k|] eqn:Hm.
  - destruct (extract_found i onset ctx w p k Hwf Hi Honset Hm)
      as (Hend & Hsize & Hcall & ctx1 & He1 & Hkept).
    cbn zeta in *. rewrite He in He1. injection He1 as <- ->.
    destruct (participant_list_base ctx' !! i) as [p'|]; [|discriminate].
    injection Hkept as Hkept.
    set (size := onset + Z.of_nat k + terminator_length) in *.
    exists p', [take (Z.to_nat size) (buffer p)].
    split; [reflexivity|]. split; [|split].
    + rewrite (share_data_sent_to _ _ _ _ _ _ Hnd Hi). do 2 f_equal.
      specialize (Hcall O p). unfold send_call in Hcall.
      now injection Hcall.
    + cbn. rewrite app_nil_r, Hkept. unfold valid_bytes.
      rewrite <- (take_drop (Z.to_nat size)
                    (take (Z.to_nat (length p)) (buffer p))) at 2.
      f_equal. rewrite take_take. f_equal. lia.
    + constructor; [|constructor].
      exists (take (Z.to_nat (size - terminator_length))
                   (take (Z.to_nat size) (buffer p))).
      rewrite <- Hend. symmetry. apply take_drop.
  - unfold extract in He. rewrite Hi, Hm in He. injection He as <- <-.
    exists p, []. split; [exact Hi|]. split; [now rewrite app_nil_r|].
    split; [reflexivity|constructor].
Qed.

Lemma parse_data_body_conserves i ctx w p n ctx' w' :
  Forall well_formed (participant_list_base ctx) ->
  NoDup (sockets ctx) ->
  participant_list_base ctx !! i = Some p ->
  parse_data_body i ctx w = Done (n, ctx') w' ->
  exists p' msgs,
    participant_list_base ctx' !! i = Some p'
    /\ sent_to (socket p) w' = sent_to (socket p) w ++ msgs
    /\ concat msgs ++ valid_bytes p' ++ stream (pending w' (socket p))
       = valid_bytes p ++ stream (pending w (socket p))
    /\ Forall (fun m => terminator_string `suffix_of` m) msgs.
Proof.
  intros Hall Hnd Hi. unfold parse_data_body. rewrite Hi.
  pose proof (Forall_lookup_1 _ _ _ _ Hall Hi) as Hp.
  destruct (grow p w) as [p1|] eqn:Hg; [|discriminate].
  pose proof (grow_well_formed _ _ _ Hp Hg) as Hp1.
  pose proof (grow_valid_bytes _ _ _ Hp Hg) as Hv1.
  pose proof (grow_fields _ _ _ Hg) as (Hs & _ & _).
  destruct (recv _ _ w) as [[[numRead errno] data] w1] eqn:Hr.
  rewrite Hs in Hr.
  destruct (recv_stream _ _ _ _ _ _ _ Hr) as [Hstream Hsent].
  rewrite <- Hs in Hr.
  destruct (received_well_formed _ _ _ _ _ _ _ Hp1 Hr) as [Hp2 Hp3].
  destruct Hp1 as (Hlen1 & Hblock1 & Hcap1).
  pose proof (capacity_ok_range _ Hcap1) as Hrange.
  pose proof (recv_fits (socket p1) (max_length p1 - length p1) w _ _ _ _
                ltac:(lia) Hr) as Hfits.
  assert (Hi' : forall q,
            participant_list_base
              (set_base ctx (<[i := q]> (participant_list_base ctx))) !! i
            = Some q).
  { intros q. cbn. apply list_lookup_insert_eq.
    eapply lookup_lt_Some; exact Hi. }
  assert (Hstay : forall c,
            data = [] ->
            valid_bytes (set_closed
                           (set_buffer p1 (store (buffer p1) (length p1) data))
                           c)
            = valid_bytes p).
  { intros c ->. rewrite store_nil, set_buffer_same. exact Hv1. }
  assert (Hquiet : forall c,
            data = [] ->
            exists p' msgs,
              Some (set_closed
                      (set_buffer p1 (store (buffer p1) (length p1) data)) c)
              = Some p'
              /\ sent_to (socket p) w1 = sent_to (socket p) w ++ msgs
              /\ concat msgs ++ valid_bytes p'
                 ++ stream (pending w1 (socket p))
                 = valid_bytes p ++ stream (pending w (socket p))
              /\ Forall (fun m => terminator_string `suffix_of` m) msgs).
  { intros c Hd. eexists _, []. split; [reflexivity|].
    split; [now rewrite app_nil_r|]. split; [|constructor].
    cbn. rewrite (Hstay c Hd), <- Hstream, Hd. reflexivity. }
  cbn zeta.
  destruct (Z.eqb_spec numRead (-1)) as [Hn1|Hn1].
  { assert (Hd : data = []) by (destruct Hfits as [[_ ?]|[? _]]; [easy|lia]).
    destruct (errno =? EAGAIN); intros [= <- <- <-]; rewrite Hi'.
    - destruct (Hquiet (closed p1) Hd) as (p' & msgs & Hp' & Hrest).
      exists p', msgs. split; [|exact Hrest]. rewrite <- Hp'. reflexivity.
    - apply Hquiet, Hd. }
  destruct (Z.eqb_spec numRead 0) as [Hn0|Hn0].
  { assert (Hd : data = []).
    { destruct Hfits as [[? _]|[_ Hl]]; [lia|].
      destruct data; [reflexivity|cbn in Hl; lia]. }
    intros [= <- <- <-]; rewrite Hi'. apply Hquiet, Hd. }
  destruct Hfits as [[? _]|[Hrange_n Hn]]; [contradiction|].
  specialize (Hp3 Hn1).
  destruct (extract _ _ _ w1) as [ctx2 w2| | |] eqn:He; try discriminate.
  intros [= <- <- <-].
  pose proof (extract_inbound _ _ _ _ _ _ He) as Hin.
  eapply extract_conserves in He;
    [|exact Hp3|apply Hi'| |].
  - destruct He as (p' & msgs & Hlook & Hsent' & Hcat & Hends).
    exists p', msgs. split; [exact Hlook|].
    cbn [socket set_length set_buffer] in Hsent'. rewrite Hs in Hsent'.
    split; [now rewrite Hsent', Hsent|]. split; [|exact Hends].
    unfold pending at 1. rewrite Hin. fold (pending w1 (socket p)).
    rewrite app_assoc, Hcat.
    rewrite (received_valid_bytes p1 data numRead
               (conj Hlen1 (conj Hblock1 Hcap1)) Hn) by lia.
    rewrite Hv1, <- app_assoc, Hstream. reflexivity.
  - unfold sockets in *. cbn. rewrite list_fmap_insert.
    rewrite list_insert_id; [exact Hnd|].
    rewrite list_lookup_fmap, Hi. cbn. now rewrite Hs.
  - cbn. pose proof (onset_of_range (length p1) ltac:(lia)) as Ho.
    rewrite wrap32_small by lia. lia.
Qed.

Lemma parse_data_loop_conserves fuel i ctx w p ctx' w' :
  Forall well_formed (participant_list_base ctx) ->
  NoDup (sockets ctx) ->
  participant_list_base ctx !! i = Some p ->
  parse_data_loop fuel i ctx w = Done ctx' w' ->
  exists p' msgs,
    participant_list_base ctx' !! i = Some p'
    /\ sent_to (socket p) w' = sent_to (socket p) w ++ msgs
    /\ concat msgs ++ valid_bytes p' ++ stream (pending w' (socket p))
       = valid_bytes p ++ stream (pending w (socket p))
    /\ Forall (fun m => terminator_string `suffix_of` m) msgs.
Proof.
  revert ctx w p. induction fuel as [|fuel IH]; intros ctx w p Hall Hnd Hi;
    cbn; [discriminate|].
  destruct (parse_data_body i ctx w) as [[n ctx1] w1| | |] eqn:Hb;
    try discriminate.
  destruct (parse_data_body_conserves _ _ _ _ _ _ _ Hall Hnd Hi Hb)
    as (p1 & msgs1 & Hi1 & Hsent1 & Hcat1 & Hends1).
  pose proof (parse_data_body_well_formed _ _ _ _ _ _ Hall Hb) as Hall1.
  pose proof (parse_data_body_evolves _ _ _ _ _ _ Hb) as (Hl & _).
  pose proof (Forall2_latched_sockets _ _ Hl) as Hsock.
  destruct (Forall2_lookup_lr _ _ _ _ _ _ Hl Hi Hi1) as [Hs1 _].
  destruct (n >? 0).
  - intros Hloop.
    assert (Hnd1 : NoDup (sockets ctx1)) by (unfold sockets; now rewrite Hsock).
    destruct (IH _ _ _ Hall1 Hnd1 Hi1 Hloop)
      as (p2 & msgs2 & Hi2 & Hsent2 & Hcat2 & Hends2).
    rewrite Hs1 in *.
    exists p2, (msgs1 ++ msgs2). split; [exact Hi2|].
    split; [now rewrite Hsent2, Hsent1, app_assoc|].
    split; [|now apply Forall_app].
    rewrite concat_app, <- app_assoc, Hcat2, <- Hcat1. reflexivity.
  - intros [= <- <-]. exists p1, msgs1. now repeat split.
Qed.

(** A drain cycle loses no byte and makes none up: the bytes the node held
    followed by the bytes queued on its connection are, in the same order,
    the messages the cycle hands to [send] followed by the bytes the node
    holds afterwards and the bytes still queued.  Every message handed to
    [send] ends with the terminator. *)
Theorem parse_data_conserves_stream (i : nat) (ctx : server_context_type)
    (w : world) (p : participant_list_struct)
    (ctx' : server_context_type) (w' : world) :
  Forall well_formed (participant_list_base ctx) ->
  NoDup (sockets ctx) ->
  participant_list_base ctx !! i = Some p ->
  parse_data i ctx w = Done ctx' w' ->
  exists p' msgs,
    participant_list_base ctx' !! i = Some p'
    /\ sent_to (socket p) w' = sent_to (socket p) w ++ msgs
    /\ concat msgs ++ valid_bytes p' ++ stream (pending w' (socket p))
       = valid_bytes p ++ stream (pending w (socket p))
    /\ Forall (fun m => terminator_string `suffix_of` m) msgs.
Proof.
  intros Hall Hnd Hi Hp. unfold parse_data in Hp. rewrite Hi in Hp.
  eapply parse_data_loop_conserves; eassumption.
Qed.

(** ** A terminator split across receives *)

Lemma occurs_at_take needle block n j :
  needle <> [] ->
  occurs_at needle (take n block) j
  <-> occurs_at needle block j /\ (j + List.length needle <= n)%nat.
Proof.
  intros Hne. split.
  - intros Hocc.
    destruct (occurs_at_fits _ _ _ Hocc) as [Hfit|?]; [|contradiction].
    rewrite length_take in Hfit. split; [|lia].
    unfold occurs_at in *. now rewrite take_drop_window in Hocc by lia.
  - intros [Hocc Hfit]. unfold occurs_at in *.
    now rewrite take_drop_window by lia.
Qed.

Lemma terminator_string_length :
  Z.of_nat (List.length terminator_string) = terminator_length.
Proof. reflexivity. Qed.

(** When the bytes a node held before a receive contain no terminator, the
    search after the receive, though it starts only [terminator_length] bytes
    before the new bytes, finds the first terminator of all the valid bytes,
    also when the receive brought only its tail: the message sent runs to
    the end of that terminator and the bytes after it are kept.  When the
    valid bytes contain no terminator nothing is sent and nothing changes. *)
Theorem extract_first_terminator (i : nat) (ctx : server_context_type)
    (w : world) (p : participant_list_struct) (length_before : Z) :
  participant_list_base ctx !! i = Some p ->
  well_formed p ->
  0 <= length_before <= length p ->
  (forall j,
     ~ occurs_at terminator_string
         (take (Z.to_nat length_before) (buffer p)) j) ->
  ((forall j, ~ occurs_at terminator_string (valid_bytes p) j) ->
   extract i (onset_of length_before) ctx w = Done ctx w)
  /\ (forall j,
        occurs_at terminator_string (valid_bytes p) j ->
        (forall j', (j' < j)%nat ->
                    ~ occurs_at terminator_string (valid_bytes p) j') ->
        let size := Z.of_nat j + terminator_length in
        exists ctx',
          extract i (onset_of length_before) ctx w
          = Done ctx' (share_data (buffer p) size ctx w).2
          /\ (forall k q,
                send_call (buffer p) size w k q
                = SysSend (socket q) (take (Z.to_nat size) (valid_bytes p))
                          (send_outcome w (sends w + k)))
          /\ valid_bytes <$> participant_list_base ctx' !! i
             = Some (drop (Z.to_nat size) (valid_bytes p))).
Proof.
  intros Hi Hwf Hbefore Hold.
  pose proof Hwf as (Hlen & Hblock & Hcap).
  pose proof (capacity_ok_range _ Hcap) as Hrange.
  pose proof (onset_of_range length_before ltac:(lia)) as Ho.
  assert (Honset : 0 <= onset_of length_before <= length p) by lia.
  assert (Hne : terminator_string <> []) by discriminate.
  pose proof (memmem_cases (buffer p) terminator_string
                (Z.to_nat (onset_of length_before))
                (length p - onset_of length_before) ltac:(lia) Hne) as Hcases.
  rewrite terminator_string_length in Hcases.
  assert (Hvalid : forall j,
            occurs_at terminator_string (valid_bytes p) j
            <-> occurs_at terminator_string (buffer p) j
                /\ Z.of_nat j + terminator_length <= length p).
  { intros j. unfold valid_bytes. rewrite occurs_at_take by exact Hne.
    rewrite <- terminator_string_length. split; intros [? ?]; split;
      try assumption; lia. }
  assert (Hnew : forall j,
            occurs_at terminator_string (valid_bytes p) j ->
            (Z.to_nat (onset_of length_before) <= j)%nat).
  { intros j Hocc. apply Hvalid in Hocc as [Hocc Hfit].
    destruct (Z_le_gt_dec (Z.of_nat j + terminator_length) length_before)
      as [Hin|Hout].
    - exfalso. apply (Hold j). apply occurs_at_take; [exact Hne|].
      split; [exact Hocc|]. rewrite <- terminator_string_length in Hin. lia.
    - rewrite onset_of_max by lia. lia. }
  destruct (memmem _ _ _ _) as [k|] eqn:Hm.
  - destruct Hcases as (Hocc & Hfit & Hfirst).
    assert (Hfound : occurs_at terminator_string (valid_bytes p)
                       (Z.to_nat (onset_of length_before) + k)).
    { apply Hvalid. split; [exact Hocc|]. lia. }
    split; [intros Hnone; exfalso; eapply Hnone; exact Hfound|].
    intros j Hocc_j Hfirst_j. cbn zeta.
    assert (Hj : j = (Z.to_nat (onset_of length_before) + k)%nat).
    { pose proof (Hnew j Hocc_j) as Hge.
      destruct (Nat.lt_trichotomy j (Z.to_nat (onset_of length_before) + k))
        as [Hlt|[Heq|Hgt]]; [|exact Heq|].
      - exfalso.
        apply (Hfirst (j - Z.to_nat (onset_of length_before))%nat); [lia|].
        replace (Z.to_nat (onset_of length_before)
                 + (j - Z.to_nat (onset_of length_before)))%nat with j by lia.
        now apply Hvalid in Hocc_j as [? _].
      - exfalso. exact (Hfirst_j _ Hgt Hfound). }
    rewrite <- (size_t_small (length p - onset_of length_before)) in Hm by lia.
    destruct (extract_found i _ ctx w p k Hwf Hi Honset Hm)
      as (_ & Hsize & Hcall & ctx' & He & Hkept).
    cbn zeta in *.
    replace (onset_of length_before + Z.of_nat k + terminator_length)
      with (Z.of_nat j + terminator_length) in * by lia.
    exists ctx'. split; [exact He|]. split; [|exact Hkept].
    intros k0 q. rewrite Hcall. unfold valid_bytes.
    rewrite take_take, Nat.min_l by lia. reflexivity.
  - split.
    + intros _. unfold extract. rewrite Hi.
      rewrite size_t_small by lia. now rewrite Hm.
    + intros j Hocc_j _. exfalso.
      pose proof (Hnew j Hocc_j) as Hge.
      apply Hvalid in Hocc_j as [Hocc_j Hfit_j].
      apply (Hcases (j - Z.to_nat (onset_of length_before))%nat); [lia|].
      replace (Z.to_nat (onset_of length_before)
               + (j - Z.to_nat (onset_of length_before)))%nat with j by lia.
      exact Hocc_j.
Qed.

(** ** The loop of [main] *)

(** A pass that returns has tested every socket of the registry against the
    descriptor set, so every socket has a place in it. *)
Lemma service_loop_fits n i state ctx w ctx' w' :
  service_loop n i state ctx w = Done ctx' w' ->
  forall j s,
    (i <= j < i + n)%nat -> sockets ctx !! j = Some s ->
    0 <= s < FD_SETSIZE.
Proof.
  revert i ctx w. induction n as [|n IH]; intros i ctx w; cbn [service_loop];
    [intros _ j s Hj; lia|].
  destruct (participant_list_base ctx !! i) as [p|] eqn:Hi.
  2:{ intros _ j s Hj Hs. apply lookup_lt_Some in Hs.
      apply lookup_ge_None in Hi. unfold sockets in Hs.
      rewrite length_fmap in Hs. lia. }
  destruct (FD_ISSET (socket p) state) as [ready|] eqn:Hready;
    [|discriminate].
  apply FD_ISSET_Some in Hready as [Hfit _].
  assert (Hrest : forall c v,
            sockets c = sockets ctx ->
            service_loop n (S i) state c v = Done ctx' w' ->
            forall j s,
              (i <= j < i + S n)%nat -> sockets ctx !! j = Some s ->
              0 <= s < FD_SETSIZE).
  { intros c v Hsame Hloop j s Hj Hs.
    destruct (decide (j = i)) as [->|Hne].
    - unfold sockets in Hs. rewrite list_lookup_fmap, Hi in Hs.
      now injection Hs as <-.
    - eapply (IH _ _ _ Hloop j); [lia|]. now rewrite Hsame. }
  destruct ready.
  - destruct (parse_data i ctx w) as [ctx1 w1| | |] eqn:Hd; try discriminate.
    apply Hrest. now apply parse_data_evolves, evolves_sockets in Hd.
  - now apply Hrest.
Qed.

Lemma service_participants_fits state ctx w ctx' w' :
  service_participants state ctx w = Done ctx' w' ->
  Forall (fun s => 0 <= s < FD_SETSIZE) (sockets ctx).
Proof.
  unfold service_participants.
  destruct (service_loop _ _ _ _ _) as [ctx1 w1| | |] eqn:Hs; try discriminate.
  intros _. apply Forall_lookup_2. intros j s Hj.
  eapply (service_loop_fits _ _ _ _ _ _ _ Hs j); [|exact Hj].
  apply lookup_lt_Some in Hj. unfold sockets in Hj.
  rewrite length_fmap in Hj. lia.
Qed.

(** Distinct sockets that have a place in a descriptor set are no more than
    the set has places. *)
Lemma fitting_sockets_count (l : list SOCKET) :
  NoDup l -> Forall (fun s => 0 <= s < FD_SETSIZE) l ->
  Z.of_nat (List.length l) <= FD_SETSIZE.
Proof.
  intros Hnd Hfit.
  assert (Hsub : l ⊆+ seqZ 0 FD_SETSIZE).
  { apply NoDup_submseteq; [exact Hnd|]. intros s Hs.
    apply elem_of_seqZ. exact (proj1 (Forall_forall _ _) Hfit s Hs). }
  apply submseteq_length in Hsub. rewrite length_seqZ in Hsub.
  unfold FD_SETSIZE in *. lia.
Qed.

Lemma registry_ok_count ctx :
  registry_ok ctx -> 0 <= participant_count ctx <= FD_SETSIZE.
Proof.
  intros (_ & _ & Hnd & Hfit & ->).
  pose proof (fitting_sockets_count _ Hnd Hfit) as H.
  unfold sockets in H. rewrite length_fmap in H. lia.
Qed.

Lemma serve_ready_registry_ok local_socket reads ctx w ctx' w' :
  registry_ok ctx ->
  serve_ready local_socket reads ctx w = Done ctx' w' ->
  registry_ok ctx'.
Proof.
  intros Hok Hs. pose proof (registry_ok_count _ Hok) as Hc.
  destruct Hok as (Hopen & Hwf & Hnd & Hfit & Hcount).
  assert (Hmax : participant_count ctx < INT_MAX)
    by (unfold FD_SETSIZE, INT_MAX in *; lia).
  destruct (serve_ready_invariant _ _ _ _ _ _ Hopen Hwf Hs) as [Hopen' Hwf'].
  destruct (serve_ready_counted _ _ _ _ _ _ Hcount Hmax Hs) as [Hcount' _].
  pose proof (serve_ready_NoDup _ _ _ _ _ _ Hnd Hs) as Hnd'.
  repeat split; try assumption.
  unfold serve_ready in Hs.
  assert (Hpass : forall c v,
            service_participants reads c v = Done ctx' w' ->
            Forall (fun s => 0 <= s < FD_SETSIZE) (sockets ctx')).
  { intros c v Hp. pose proof (service_participants_fits _ _ _ _ _ Hp) as Hc'.
    apply service_participants_sublist in Hp as [Hsub _].
    eapply Forall_forall. intros s Hin.
    eapply (proj1 (Forall_forall _ _) Hc').
    eapply elem_of_sublist; eassumption. }
  destruct (FD_ISSET local_socket reads) as [[|]|]; [| |discriminate].
  - destruct (add_participant ctx w) as [c v| | |]; try discriminate.
    now apply (Hpass c v).
  - now apply (Hpass ctx w).
Qed.

Lemma main_loop_registry_ok script local_socket ctx w e ctx' w' :
  registry_ok ctx ->
  main_loop script local_socket ctx w = Done (e, ctx') w' ->
  registry_ok ctx'.
Proof.
  revert ctx w. induction script as [|t script IH]; intros ctx w Hok;
    [discriminate|].
  cbn [main_loop].
  destruct (FD_SET local_socket ∅) as [reads0|]; [|discriminate].
  destruct (set_reads reads0 local_socket ctx) as [[reads highest_socket]|];
    [|discriminate].
  destruct (select _ reads t) as [rc reads'].
  destruct (quit_key (key t)); [now intros [= _ <- _]|].
  destruct (rc <? 0); [now intros [= _ <- _]|].
  destruct (rc >? 0).
  - destruct (serve_ready _ _ ctx w) as [ctx1 w1| | |] eqn:Hs;
      try discriminate.
    apply serve_ready_registry_ok in Hs; [|exact Hok].
    now apply IH.
  - now apply IH.
Qed.

Lemma initial_context_ok : registry_ok initial_context.
Proof. repeat split; constructor. Qed.

(** Whenever the loop of [main] is left, no node of the registry is flagged,
    every node satisfies the buffer invariant, the sockets of the registry
    are distinct and have a place in a descriptor set, and
    [participant_count] is the number of nodes, at most [FD_SETSIZE]. *)
Theorem main_loop_keeps_registry (script : list tick) (local_socket : SOCKET)
    (w : world) (e : loop_exit) (ctx' : server_context_type) (w' : world) :
  main_loop script local_socket initial_context w = Done (e, ctx') w' ->
  Forall is_open (participant_list_base ctx')
  /\ Forall well_formed (participant_list_base ctx')
  /\ NoDup (sockets ctx')
  /\ Forall (fun s => 0 <= s < FD_SETSIZE) (sockets ctx')
  /\ participant_count ctx'
     = Z.of_nat (List.length (participant_list_base ctx'))
  /\ participant_count ctx' <= FD_SETSIZE.
Proof.
  intros Hloop.
  pose proof (main_loop_registry_ok _ _ _ _ _ _ _ initial_context_ok Hloop)
    as Hok.
  pose proof (registry_ok_count _ Hok) as Hc.
  destruct Hok as (H1 & H2 & H3 & H4 & H5). repeat split; try assumption.
  lia.
Qed.

(** When the loop of [main] is left by the key, [main] closes the socket of
    every participant still registered, once each and in list order, and
    returns with an empty registry and a count of zero. *)
Theorem main_quit_closes_all (script : list tick) (local_socket : SOCKET)
    (w : world) (ctx1 : server_context_type) (w1 : world) :
  main_loop script local_socket initial_context w = Done (ByKey, ctx1) w1 ->
  main script local_socket w
  = Done (mk_ctx [] 0)
         (mk_world (inbound w1) (backlog w1) (send_outcome w1) (sends w1)
                   (heap_serves w1) (getfl_outcome w1)
                   (rev (SysClose <$> sockets ctx1) ++ trace w1)).
Proof.
  intros Hloop. unfold main. rewrite Hloop.
  pose proof (main_loop_registry_ok _ _ _ _ _ _ _ initial_context_ok Hloop)
    as Hok.
  pose proof (registry_ok_count _ Hok) as Hc.
  destruct Hok as (_ & _ & _ & _ & Hcount).
  unfold terminate_participants, sockets.
  destruct (terminate_loop_spec (participant_list_base ctx1) true
              (participant_count ctx1) w1) as [Hk Hw].
  pose proof (terminate_loop_count (participant_list_base ctx1) true
                (participant_count ctx1) w1) as Hn.
  destruct (terminate_loop _ _ _ _) as [[kept c'] w2]. cbn [fst snd] in *.
  rewrite (filter_none (fun p => closed p || true = false)) in Hk
    by (intros p; rewrite orb_true_r; discriminate).
  rewrite (filter_all (fun p => closed p || true = true)) in Hw
    by (intros p; apply orb_true_r).
  subst kept w2. rewrite Hn by (unfold FD_SETSIZE in *; lia).
  cbn [List.length]. do 2 f_equal. lia.
Qed.

(** ** When a drain cycle cannot abort *)

Lemma grow_succeeds p w :
  well_formed p ->
  (forall m, 0 < m -> heap_serves w m = true) ->
  length p + buffer_chunk_size <= 2 ^ 30 ->
  grow p w <> None.
Proof.
  intros Hwf Hheap Hsmall. rewrite (grow_cases p w Hwf).
  destruct Hwf as (Hlen & _ & Hcap). apply capacity_ok_range in Hcap.
  pose proof (wanted_cases p) as Hw. unfold buffer_chunk_size in *.
  destruct (wanted p =? max_length p); [discriminate|].
  rewrite Hheap by lia.
  destruct (Z.ltb_spec (wanted p) (2 ^ 31)); [discriminate|lia].
Qed.

Lemma extract_never_aborts i onset ctx w v :
  extract i onset ctx w <> Abort v.
Proof.
  unfold extract.
  destruct (participant_list_base ctx !! i); [|discriminate].
  destruct (memmem _ _ _ _); [|discriminate].
  destruct (share_data _ _ _ _) as [ctx1 w1].
  destruct (participant_list_base ctx1 !! i); discriminate.
Qed.

Lemma parse_data_body_abort i ctx w p v :
  participant_list_base ctx !! i = Some p ->
  parse_data_body i ctx w = Abort v -> grow p w = None.
Proof.
  intros Hi. unfold parse_data_body. rewrite Hi.
  destruct (grow p w) as [p1|]; [|reflexivity].
  destruct (recv _ _ w) as [[[numRead errno] data] w1]. cbn zeta.
  destruct (numRead =? -1); [now destruct (errno =? EAGAIN)|].
  destruct (numRead =? 0); [discriminate|].
  match goal with
  | |- context [extract i ?o ?c ?w] =>
      pose proof (extract_never_aborts i o c w) as He;
      destruct (extract i o c w)
  end; try discriminate.
  intros _. exfalso. eapply He. reflexivity.
Qed.

Lemma parse_data_loop_completes fuel i ctx w p :
  Forall well_formed (participant_list_base ctx) ->
  NoDup (sockets ctx) ->
  participant_list_base ctx !! i = Some p ->
  (forall m, 0 < m -> heap_serves w m = true) ->
  Z.of_nat (List.length (valid_bytes p ++ stream (pending w (socket p))))
  + buffer_chunk_size <= 2 ^ 30 ->
  (weight (pending w (socket p)) < fuel)%nat ->
  exists ctx' w', parse_data_loop fuel i ctx w = Done ctx' w'.
Proof.
  revert ctx w p. induction fuel as [|fuel IH];
    intros ctx w p Hall Hnd Hi Hheap Hsmall Hfuel; [lia|].
  pose proof (Forall_lookup_1 _ _ _ _ Hall Hi) as Hp.
  assert (Hvalid : Z.of_nat (List.length (valid_bytes p)) = length p).
  { destruct Hp as (Hlen & Hblock & _). unfold valid_bytes.
    rewrite length_take. lia. }
  rewrite length_app in Hsmall.
  assert (Hg : grow p w <> None) by (apply grow_succeeds; [assumption..|lia]).
  cbn [parse_data_loop].
  pose proof (parse_data_body_returns i ctx w p Hi) as Hret.
  destruct (parse_data_body i ctx w) as [[n ctx1] w1|v| |] eqn:Hb;
    try contradiction.
  - destruct (parse_data_body_conserves _ _ _ _ _ _ _ Hall Hnd Hi Hb)
      as (p1 & msgs & Hi1 & _ & Hcat & _).
    pose proof (parse_data_body_well_formed _ _ _ _ _ _ Hall Hb) as Hall1.
    pose proof (parse_data_body_frame _ _ _ _ _ _ _ Hi Hb)
      as (_ & _ & _ & _ & Hheap1 & _).
    pose proof (parse_data_body_evolves _ _ _ _ _ _ Hb) as (Hl & _).
    pose proof (Forall2_latched_sockets _ _ Hl) as Hsock.
    destruct (Forall2_lookup_lr _ _ _ _ _ _ Hl Hi Hi1) as [Hs1 _].
    destruct (Z.gtb_spec n 0) as [Hn|_]; [|eauto].
    pose proof (parse_data_body_progress _ _ _ _ _ _ _ Hi Hb ltac:(lia)) as Hlt.
    eapply IH; try eassumption.
    + unfold sockets. now rewrite Hsock.
    + now rewrite Hheap1.
    + rewrite Hs1. apply (f_equal List.length) in Hcat.
      rewrite !length_app in Hcat. rewrite length_app. lia.
    + rewrite Hs1. lia.
  - exfalso. apply Hg. eapply parse_data_body_abort; eassumption.
Qed.

(** On a heap that serves every request, a drain cycle comes back with a
    context (the [assert] does not fire) as long as the bytes the node holds
    and the bytes queued on its connection, with one chunk of slack, stay
    within 2^30: the doubling then never leaves the range of an [int]. *)
Theorem parse_data_completes (i : nat) (ctx : server_context_type)
    (w : world) (p : participant_list_struct) :
  Forall well_formed (participant_list_base ctx) ->
  NoDup (sockets ctx) ->
  participant_list_base ctx !! i = Some p ->
  (forall m, 0 < m -> heap_serves w m = true) ->
  Z.of_nat (List.length (valid_bytes p ++ stream (pending w (socket p))))
  + buffer_chunk_size <= 2 ^ 30 ->
  exists ctx' w', parse_data i ctx w = Done ctx' w'.
Proof.
  intros Hall Hnd Hi Hheap Hsmall. unfold parse_data. rewrite Hi.
  eapply parse_data_loop_completes; try eassumption. lia.
Qed.

(** ** What a service pass leaves alone *)

Lemma pass_frame_refl state ctx w : pass_frame state ctx w ctx w.
Proof.
  split; [reflexivity|]. split.
  - intros j p p' _ Hp Hp'. rewrite Hp in Hp'. injection Hp' as <-.
    apply untouched_refl.
  - split; [reflexivity|]. split; [reflexivity|].
    exists []. split; [reflexivity|constructor].
Qed.

Lemma pass_frame_trans state ctx w ctx1 w1 ctx2 w2 :
  pass_frame state ctx w ctx1 w1 -> pass_frame state ctx1 w1 ctx2 w2 ->
  pass_frame state ctx w ctx2 w2.
Proof.
  intros (Hlen & Hnodes & Hin & Hback & calls & Ht & Hcalls)
         (Hlen' & Hnodes' & Hin' & Hback' & calls' & Ht' & Hcalls').
  split; [congruence|]. split.
  - intros j p p2 Hs Hp Hp2.
    destruct (lookup_lt_is_Some_2 (participant_list_base ctx1) j) as [p1 Hp1].
    { rewrite Hlen. eapply lookup_lt_Some; exact Hp. }
    pose proof (Hnodes j p p1 Hs Hp Hp1) as (Hs1 & ? & ? & ?).
    assert (Hs' : socket p1 ∉ state) by now rewrite Hs1.
    destruct (Hnodes' j p1 p2 Hs' Hp1 Hp2) as (? & ? & ? & ?).
    repeat split; congruence.
  - split; [intros s Hs; rewrite Hin', Hin by exact Hs; reflexivity|].
    split; [congruence|].
    exists (calls' ++ calls). split.
    + rewrite Ht', Ht. now rewrite app_assoc.
    + apply Forall_app. now split.
Qed.

Lemma drain_frame_pass state i s ctx w ctx' w' p :
  participant_list_base ctx !! i = Some p -> socket p = s -> s ∈ state ->
  drain_frame i s ctx w ctx' w' -> pass_frame state ctx w ctx' w'.
Proof.
  intros Hi Hs Hready (Hlen & Hnodes & Hin & Hback & _ & calls & Ht & Hcalls).
  split; [exact Hlen|]. split.
  - intros j q q' Hq Hj Hj'. apply (Hnodes j q q'); try assumption.
    intros ->. rewrite Hi in Hj. injection Hj as <-. congruence.
  - split; [intros s' Hs'; apply Hin; congruence|]. split; [exact Hback|].
    exists calls. split; [exact Ht|].
    eapply Forall_impl; [exact Hcalls|].
    intros [r|s' r|s' bs r|s'|s' r|s' f]; cbn; try easy. now intros ->.
Qed.

Lemma service_loop_frame n k state ctx w ctx' w' :
  service_loop n k state ctx w = Done ctx' w' ->
  pass_frame state ctx w ctx' w'.
Proof.
  revert k ctx w. induction n as [|n IH]; intros k ctx w; cbn.
  - intros [= <- <-]. apply pass_frame_refl.
  - destruct (participant_list_base ctx !! k) as [p|] eqn:Hk;
      [|intros [= <- <-]; apply pass_frame_refl].
    destruct (FD_ISSET (socket p) state) as [ready|] eqn:Hready;
      [|discriminate].
    apply FD_ISSET_Some in Hready as [_ Hready]. destruct ready.
    + pose proof (proj1 Hready eq_refl).
      destruct (parse_data k ctx w) as [ctx1 w1| | |] eqn:Hp;
        try discriminate.
      intros Hrest. apply IH in Hrest.
      unfold parse_data in Hp. rewrite Hk in Hp.
      apply (parse_data_loop_frame _ _ _ _ _ _ _ Hk) in Hp.
      eapply pass_frame_trans; [|exact Hrest].
      eapply drain_frame_pass; [exact Hk|reflexivity|assumption|exact Hp].
    + apply IH.
Qed.

(** A service pass that returns has found a place in the descriptor set for
    every socket of the registry, and receives only from sockets of the
    ready set.  It leaves the input queued on the other sockets and the
    connections waiting to be accepted as they are, and every node it keeps
    whose socket is not ready has the block and the lengths it had before
    the pass. *)
Theorem service_participants_ready_only (state : fd_set)
    (ctx : server_context_type) (w : world)
    (ctx' : server_context_type) (w' : world) :
  service_participants state ctx w = Done ctx' w' ->
  Forall (fun s => 0 <= s < FD_SETSIZE) (sockets ctx)
  /\ (forall s, s ∉ state -> pending w' s = pending w s)
  /\ backlog w' = backlog w
  /\ (forall p',
        p' ∈ participant_list_base ctx' -> socket p' ∉ state ->
        exists p,
          p ∈ participant_list_base ctx
          /\ socket p = socket p' /\ buffer p = buffer p'
          /\ length p = length p' /\ max_length p = max_length p')
  /\ exists calls closes,
       trace w' = closes ++ calls ++ trace w
       /\ Forall (fun e => match e with
                           | SysRecv s _ => s ∈ state
                           | SysSend _ _ _ => True
                           | _ => False
                           end) calls
       /\ Forall (fun e => exists s, e = SysClose s) closes.
Proof.
  intros Hpass. split; [exact (service_participants_fits _ _ _ _ _ Hpass)|].
  revert Hpass. unfold service_participants, terminate_participants.
  destruct (service_loop _ _ _ _ _) as [ctx1 w1| | |] eqn:Hs; try discriminate.
  pose proof (service_loop_evolves _ _ _ _ _ _ _ Hs) as (Hl & _).
  apply service_loop_frame in Hs
    as (Hlen & Hnodes & Hin & Hback & calls & Ht & Hcalls).
  destruct (terminate_loop_spec (participant_list_base ctx1) false
              (participant_count ctx1) w1) as [Hk Hw].
  destruct (terminate_loop_trace (participant_list_base ctx1) false
              (participant_count ctx1) w1) as (closes & Hc & Hcloses).
  destruct (terminate_loop _ _ _ _) as [[kept c'] w2]. cbn [fst snd] in *.
  intros [= <- <-]. cbn [participant_list_base].
  split; [|split; [|split]].
  - intros s Hs. unfold pending. rewrite Hw. cbn. now rewrite Hin.
  - rewrite Hw. exact Hback.
  - intros p' Hp' Hunready. rewrite Hk in Hp'.
    apply list_elem_of_filter in Hp' as [_ Hp'].
    apply list_elem_of_lookup in Hp' as [j Hj'].
    destruct (Forall2_lookup_r _ _ _ _ _ Hl Hj') as (p & Hj & Hsock & _).
    exists p. split; [eapply list_elem_of_lookup_2; exact Hj|].
    destruct (Hnodes j p p' ltac:(congruence) Hj Hj') as (? & ? & ? & ?).
    now repeat split.
  - exists calls, closes. rewrite Hc, Ht. split; [reflexivity|].
    split; [exact Hcalls|exact Hcloses].
Qed.

(** ** A connection that hangs up *)

Lemma NoDup_sockets_lookup ctx i j p q :
  NoDup (sockets ctx) ->
  participant_list_base ctx !! i = Some p ->
  participant_list_base ctx !! j = Some q ->
  socket p = socket q -> i = j.
Proof.
  intros Hnd Hi Hj Hs. unfold sockets in Hnd.
  eapply NoDup_lookup; [exact Hnd| |].
  - rewrite list_lookup_fmap, Hi. reflexivity.
  - rewrite list_lookup_fmap, Hj. cbn. now rewrite Hs.
Qed.

Lemma parse_data_hung_up i ctx w p ctx1 w1 :
  participant_list_base ctx !! i = Some p ->
  hung_up (pending w (socket p)) ->
  parse_data i ctx w = Done ctx1 w1 ->
  exists p1,
    participant_list_base ctx1 !! i = Some p1
    /\ socket p1 = socket p /\ closed p1 = true.
Proof.
  intros Hi Hq Hp.
  destruct (grow p w) as [p0|] eqn:Hg.
  - pose proof (grow_fields _ _ _ Hg) as (Hs & _).
    assert (Hr : exists n e v,
              recv (socket p0) (max_length p0 - length p0) w = (n, e, [], v)
              /\ (n = -1 \/ n = 0)
              /\ (n =? -1) && (e =? EAGAIN) = false).
    { unfold recv. rewrite Hs.
      destruct (pending w (socket p)) as [|[bs|e|] q]; try contradiction.
      - cbn in Hq. eexists _, _, _. split; [reflexivity|].
        split; [now left|]. cbn. now apply Z.eqb_neq.
      - eexists _, _, _. split; [reflexivity|]. split; [now right|easy]. }
    destruct Hr as (n & e & v & Hr & Hn & Hclose).
    destruct (drains_to_stop _ _ _ _ _ _ _ _ Hi Hg Hr Hn) as [Hd _].
    rewrite Hclose, Hp in Hd. injection Hd as -> ->.
    exists (set_closed p0 true). split; [|split; [|reflexivity]].
    + cbn. apply list_lookup_insert_eq. eapply lookup_lt_Some; exact Hi.
    + exact Hs.
  - exfalso. unfold parse_data in Hp. rewrite Hi in Hp. cbn in Hp.
    unfold parse_data_body in Hp. now rewrite Hi, Hg in Hp.
Qed.

Lemma service_loop_hung_up n k state ctx w ctx' w' i p :
  (k <= i < k + n)%nat ->
  NoDup (sockets ctx) ->
  participant_list_base ctx !! i = Some p ->
  socket p ∈ state ->
  hung_up (pending w (socket p)) ->
  service_loop n k state ctx w = Done ctx' w' ->
  exists p',
    participant_list_base ctx' !! i = Some p'
    /\ socket p' = socket p /\ closed p' = true.
Proof.
  revert k ctx w p. induction n as [|n IH];
    intros k ctx w p Hk Hnd Hi Hready Hq; [lia|]. cbn.
  destruct (participant_list_base ctx !! k) as [pk|] eqn:Hpk.
  2:{ exfalso. apply lookup_ge_None in Hpk.
      apply lookup_lt_Some in Hi. lia. }
  destruct (decide (k = i)) as [->|Hne].
  - rewrite Hi in Hpk. injection Hpk as <-.
    destruct (FD_ISSET (socket p) state) as [ready|] eqn:Hr; [|discriminate].
    apply FD_ISSET_Some in Hr as [_ Hr].
    rewrite (proj2 Hr Hready).
    destruct (parse_data i ctx w) as [ctx1 w1| | |] eqn:Hp; try discriminate.
    destruct (parse_data_hung_up _ _ _ _ _ _ Hi Hq Hp)
      as (p1 & Hi1 & Hs1 & Hc1).
    intros Hrest. apply service_loop_evolves in Hrest as (Hl & _).
    destruct (Forall2_lookup_l _ _ _ _ _ Hl Hi1) as (p' & Hi' & Hs' & Hc').
    exists p'. split; [exact Hi'|]. split; [congruence|auto].
  - destruct (FD_ISSET (socket pk) state) as [[|]|]; [| |discriminate].
    + destruct (parse_data k ctx w) as [ctx1 w1| | |] eqn:Hp;
        try discriminate.
      pose proof (parse_data_evolves _ _ _ _ _ Hp) as (Hl & _).
      unfold parse_data in Hp. rewrite Hpk in Hp.
      apply (parse_data_loop_frame _ _ _ _ _ _ _ Hpk) in Hp
        as (Hlen & Hnodes & Hin & _).
      destruct (Forall2_lookup_l _ _ _ _ _ Hl Hi) as (p1 & Hi1 & Hs1 & _).
      assert (Hdiff : socket p <> socket pk).
      { intros Heq. apply Hne. symmetry.
        eapply NoDup_sockets_lookup; eassumption. }
      intros Hrest. rewrite <- Hs1.
      eapply (IH (S k) ctx1 w1 p1); [lia| |exact Hi1| | |exact Hrest].
      * unfold sockets. now rewrite (Forall2_latched_sockets _ _ Hl).
      * now rewrite Hs1.
      * rewrite Hs1. unfold pending. now rewrite Hin.
    + apply IH; [lia|assumption..].
Qed.

Lemma pass_call_no_close state e :
  pass_call state e -> forall s, e <> SysClose s.
Proof. destruct e; cbn; try easy. Qed.

(** A participant whose connection is ready and whose next receive reports
    the end of the stream, or an error other than "no data yet", is no
    longer in the registry when the service pass returns, and the compaction
    of that pass has closed its socket, once. *)
Theorem service_participants_drops_hung_up (state : fd_set)
    (ctx : server_context_type) (w : world) (i : nat)
    (p : participant_list_struct)
    (ctx' : server_context_type) (w' : world) :
  NoDup (sockets ctx) ->
  participant_list_base ctx !! i = Some p ->
  socket p ∈ state ->
  hung_up (pending w (socket p)) ->
  service_participants state ctx w = Done ctx' w' ->
  (socket p ∉ sockets ctx')
  /\ exists closes calls,
       trace w' = closes ++ calls ++ trace w
       /\ (SysClose (socket p) ∈ closes)
       /\ NoDup closes
       /\ Forall (fun e => forall s, e <> SysClose s) calls.
Proof.
  intros Hnd Hi Hready Hq.
  unfold service_participants, terminate_participants.
  destruct (service_loop _ _ _ _ _) as [ctx1 w1| | |] eqn:Hs; try discriminate.
  pose proof (service_loop_evolves _ _ _ _ _ _ _ Hs) as (Hl & _).
  pose proof (service_loop_frame _ _ _ _ _ _ _ Hs)
    as (_ & _ & _ & _ & calls & Ht & Hcalls).
  pose proof (lookup_lt_Some _ _ _ Hi) as Hlt.
  destruct (service_loop_hung_up
              (List.length (participant_list_base ctx)) 0 state ctx w
              ctx1 w1 i p ltac:(lia) Hnd Hi Hready Hq Hs)
    as (p1 & Hi1 & Hs1 & Hc1).
  assert (Hnd1 : NoDup (sockets ctx1))
    by (unfold sockets; now rewrite (Forall2_latched_sockets _ _ Hl)).
  destruct (terminate_loop_spec (participant_list_base ctx1) false
              (participant_count ctx1) w1) as [Hk Hw].
  destruct (terminate_loop _ _ _ _) as [[kept c'] w2]. cbn [fst snd] in *.
  intros [= <- <-]. split.
  - unfold sockets. cbn [participant_list_base]. rewrite Hk.
    intros Hin. apply list_elem_of_fmap in Hin as (q & Hsq & Hq').
    apply list_elem_of_filter in Hq' as [Hopen Hq'].
    apply list_elem_of_lookup in Hq' as [j Hj].
    assert (i = j)
      by (eapply NoDup_sockets_lookup; [exact Hnd1|exact Hi1|exact Hj|];
          congruence).
    subst j. rewrite Hi1 in Hj. injection Hj as <-.
    rewrite Hc1 in Hopen. discriminate.
  - eexists _, calls. rewrite Hw. cbn [trace]. rewrite Ht.
    split; [reflexivity|]. split; [|split].
    + apply list_elem_of_In, (proj1 (in_rev _ _)), list_elem_of_In.
      rewrite <- Hs1.
      apply list_elem_of_fmap_2, list_elem_of_fmap_2.
      apply list_elem_of_filter. split; [now rewrite Hc1|].
      eapply list_elem_of_lookup_2; exact Hi1.
    + apply NoDup_ListNoDup, NoDup_rev, NoDup_ListNoDup.
      apply (NoDup_fmap_2_strong SysClose); [now intros x y _ _ [= ->]|].
      eapply sublist_NoDup; [exact Hnd1|].
      apply fmap_sublist, sublist_filter.
    + eapply Forall_impl; [exact Hcalls|]. apply pass_call_no_close.
Qed.

(** ** The further properties at concrete inputs *)

Lemma memmem_first_occurrence_witness :
  0 <= 11
  /\ terminator_string <> []
  /\ occurs_at terminator_string (bytes_of "ab</event>c") 2
  /\ ~ occurs_at terminator_string (bytes_of "ab</event>c") 1.
Proof.
  split; [lia|]. split; [discriminate|].
  pose proof (memmem_first_occurrence (bytes_of "ab</event>c")
                terminator_string 0 11 ltac:(lia) ltac:(discriminate)) as H.
  assert (E : memmem (drop 0 (bytes_of "ab</event>c")) 11 terminator_string
                     (Z.of_nat (List.length terminator_string))
              = Some 2%nat) by reflexivity.
  rewrite E in H. destruct H as (Hocc & _ & Hfirst).
  split; [exact Hocc|]. apply (Hfirst 1%nat). lia.
Defined.

Lemma memmem_nothing_to_find_witness :
  0 <= 3 /\ 0 <= 8
  /\ memmem (bytes_of "</e") 3 terminator_string 8 = None.
Proof.
  split; [lia|]. split; [lia|].
  apply (memmem_nothing_to_find (bytes_of "</e") terminator_string 3 8);
    lia.
Defined.

Lemma one_client_distinct : NoDup (sockets one_client).
Proof. apply NoDup_singleton. Qed.

Lemma two_clients_distinct : NoDup (sockets two_clients).
Proof.
  change (NoDup [5; 6]). apply NoDup_cons. split; [|apply NoDup_singleton].
  intros H. apply list_elem_of_singleton in H. discriminate.
Qed.

Lemma one_client_well_formed :
  Forall well_formed (participant_list_base one_client).
Proof. repeat constructor; cbn; auto; lia. Qed.

Lemma two_clients_well_formed :
  Forall well_formed (participant_list_base two_clients).
Proof. repeat constructor; cbn; auto; lia. Qed.

Lemma serve_ready_distinct_sockets_witness :
  NoDup (sockets one_client)
  /\ exists w',
       serve_ready 3 {[3]} one_client knocking_world
       = Done (mk_ctx [new_entry 5; new_entry 7] 2) w'
       /\ NoDup (sockets (mk_ctx [new_entry 5; new_entry 7] 2)).
Proof.
  split; [exact one_client_distinct|].
  assert (E : exists w',
             serve_ready 3 {[3]} one_client knocking_world
             = Done (mk_ctx [new_entry 5; new_entry 7] 2) w')
    by (eexists; vm_compute; reflexivity).
  destruct E as [w' E]. exists w'. split; [exact E|].
  exact (serve_ready_distinct_sockets _ _ _ _ _ _ one_client_distinct E).
Defined.

Lemma serve_ready_count_witness :
  participant_count one_client
  = Z.of_nat (List.length (participant_list_base one_client))
  /\ participant_count one_client < INT_MAX
  /\ exists w',
       serve_ready 3 {[3]} one_client knocking_world
       = Done (mk_ctx [new_entry 5; new_entry 7] 2) w'
       /\ participant_count (mk_ctx [new_entry 5; new_entry 7] 2) = 2.
Proof.
  split; [reflexivity|]. split; [reflexivity|].
  assert (E : exists w',
             serve_ready 3 {[3]} one_client knocking_world
             = Done (mk_ctx [new_entry 5; new_entry 7] 2) w')
    by (eexists; vm_compute; reflexivity).
  destruct E as [w' E]. exists w'. split; [exact E|].
  exact (proj1 (serve_ready_count 3 {[3]} one_client knocking_world _ _
                  eq_refl eq_refl E)).
Defined.

Lemma parse_data_isolation_witness :
  participant_list_base two_clients !! 1%nat = Some (new_entry 6)
  /\ exists ctx' w',
       parse_data 1 two_clients
         (calm_world [(5, [Bytes (bytes_of "zz")]);
                      (6, [Bytes (bytes_of "x</event>")])] 9)
       = Done ctx' w'
       /\ pending w' 5 = [Bytes (bytes_of "zz")].
Proof.
  split; [reflexivity|].
  do 2 eexists. split; [reflexivity|].
  destruct (parse_data_isolation 1 two_clients
              (calm_world [(5, [Bytes (bytes_of "zz")]);
                           (6, [Bytes (bytes_of "x</event>")])] 9)
              (new_entry 6) _ _ eq_refl eq_refl) as (_ & Hquiet & _).
  etransitivity; [apply (Hquiet 5); discriminate|reflexivity].
Defined.

Lemma parse_data_conserves_stream_witness :
  Forall well_formed (participant_list_base one_client)
  /\ NoDup (sockets one_client)
  /\ participant_list_base one_client !! 0%nat = Some (new_entry 5)
  /\ exists ctx' w',
       parse_data 0 one_client
         (calm_world [(5, [Bytes (bytes_of "a</event>b")])] 10)
       = Done ctx' w'
       /\ exists p' msgs,
            participant_list_base ctx' !! 0%nat = Some p'
            /\ concat msgs ++ valid_bytes p' ++ stream (pending w' 5)
               = bytes_of "a</event>b".
Proof.
  split; [exact one_client_well_formed|].
  split; [exact one_client_distinct|]. split; [reflexivity|].
  do 2 eexists. split; [reflexivity|].
  destruct (parse_data_conserves_stream 0 one_client
              (calm_world [(5, [Bytes (bytes_of "a</event>b")])] 10)
              (new_entry 5) _ _ one_client_well_formed one_client_distinct
              eq_refl eq_refl) as (p' & msgs & Hi & _ & Hcat & _).
  exists p', msgs. split; [exact Hi|]. exact Hcat.
Defined.

Lemma split_buffered_well_formed : well_formed split_buffered.
Proof.
  split; [cbn; lia|]. split; [vm_compute; reflexivity|].
  right. exists O. split; [lia|reflexivity].
Qed.

Lemma split_buffered_old_bytes j :
  ~ occurs_at terminator_string (take (Z.to_nat 6) (buffer split_buffered)) j.
Proof.
  intros H. apply occurs_at_fits in H as [H|H]; [|discriminate].
  rewrite length_take in H.
  change (List.length terminator_string) with 8%nat in H. lia.
Qed.

Lemma extract_first_terminator_witness :
  participant_list_base (mk_ctx [split_buffered] 1) !! 0%nat
  = Some split_buffered
  /\ well_formed split_buffered
  /\ 0 <= 6 <= length split_buffered
  /\ exists ctx' w',
       extract 0 (onset_of 6) (mk_ctx [split_buffered] 1) (calm_world [] 9)
       = Done ctx' w'
       /\ valid_bytes <$> participant_list_base ctx' !! 0%nat
          = Some (bytes_of "c").
Proof.
  split; [reflexivity|]. split; [exact split_buffered_well_formed|].
  split; [cbn; lia|].
  destruct (extract_first_terminator 0 (mk_ctx [split_buffered] 1)
              (calm_world [] 9) split_buffered 6 eq_refl
              split_buffered_well_formed ltac:(cbn; lia)
              split_buffered_old_bytes) as [_ Hfound].
  destruct (Hfound 1%nat) as (ctx' & He & _ & Hkept).
  - reflexivity.
  - intros j' Hj'. assert (j' = 0%nat) as -> by lia. discriminate.
  - exists ctx'. eexists. split; [exact He|exact Hkept].
Defined.

Lemma main_loop_keeps_registry_witness :
  exists w',
    main_loop [accept_tick; quit_tick] 3 initial_context knocking_world
    = Done (ByKey, mk_ctx [new_entry 7] 1) w'
    /\ participant_count (mk_ctx [new_entry 7] 1) = 1
    /\ Forall (fun s => 0 <= s < FD_SETSIZE) [7].
Proof.
  assert (E : exists w',
             main_loop [accept_tick; quit_tick] 3 initial_context
               knocking_world
             = Done (ByKey, mk_ctx [new_entry 7] 1) w')
    by (eexists; vm_compute; reflexivity).
  destruct E as [w' E]. exists w'. split; [exact E|].
  destruct (main_loop_keeps_registry _ _ _ _ _ _ E)
    as (_ & _ & _ & Hfit & Hcount & _).
  split; [exact Hcount|exact Hfit].
Defined.

Lemma main_quit_closes_all_witness :
  exists w1 w2,
    main_loop [accept_tick; quit_tick] 3 initial_context knocking_world
    = Done (ByKey, mk_ctx [new_entry 7] 1) w1
    /\ main [accept_tick; quit_tick] 3 knocking_world
       = Done (mk_ctx [] 0) w2
    /\ trace w2
       = [SysClose 7; SysFcntlSet 7 2050; SysFcntlGet 7 2; SysAccept 7].
Proof.
  assert (E : exists w',
             main_loop [accept_tick; quit_tick] 3 initial_context
               knocking_world
             = Done (ByKey, mk_ctx [new_entry 7] 1) w'
             /\ trace w'
                = [SysFcntlSet 7 2050; SysFcntlGet 7 2; SysAccept 7])
    by (eexists; vm_compute; split; reflexivity).
  destruct E as (w1 & E & Ht). exists w1. eexists. split; [exact E|].
  split; [exact (main_quit_closes_all _ _ _ _ _ E)|].
  cbn. now rewrite Ht.
Defined.

Lemma parse_data_completes_witness :
  Forall well_formed (participant_list_base one_client)
  /\ NoDup (sockets one_client)
  /\ participant_list_base one_client !! 0%nat = Some (new_entry 5)
  /\ exists ctx' w',
       parse_data 0 one_client (calm_world [(5, [Bytes (bytes_of "abc")])] 1)
       = Done ctx' w'.
Proof.
  split; [exact one_client_well_formed|].
  split; [exact one_client_distinct|]. split; [reflexivity|].
  apply (parse_data_completes 0 one_client
           (calm_world [(5, [Bytes (bytes_of "abc")])] 1) (new_entry 5)
           one_client_well_formed one_client_distinct eq_refl).
  - reflexivity.
  - vm_compute. discriminate.
Defined.

Lemma service_participants_ready_only_witness :
  exists w',
    service_participants {[5]} two_clients
      (calm_world [(5, [Shutdown]); (6, [Bytes (bytes_of "x")])] 1)
    = Done (mk_ctx [new_entry 6] 1) w'
    /\ pending w' 6 = [Bytes (bytes_of "x")].
Proof.
  assert (E : exists w',
             service_participants {[5]} two_clients
               (calm_world [(5, [Shutdown]); (6, [Bytes (bytes_of "x")])] 1)
             = Done (mk_ctx [new_entry 6] 1) w')
    by (eexists; vm_compute; reflexivity).
  destruct E as [w' E]. exists w'. split; [exact E|].
  destruct (service_participants_ready_only _ _ _ _ _ E) as (_ & Hquiet & _).
  etransitivity; [apply (Hquiet 6)|reflexivity].
  intros H. apply elem_of_singleton in H. discriminate.
Defined.

Lemma service_participants_drops_hung_up_witness :
  NoDup (sockets two_clients)
  /\ participant_list_base two_clients !! 0%nat = Some (new_entry 5)
  /\ hung_up (pending (calm_world [(5, [Shutdown])] 1) 5)
  /\ exists w',
       service_participants {[5]} two_clients (calm_world [(5, [Shutdown])] 1)
       = Done (mk_ctx [new_entry 6] 1) w'
       /\ exists closes calls,
            trace w' = closes ++ calls ++ []
            /\ SysClose 5 ∈ closes.
Proof.
  split; [exact two_clients_distinct|]. split; [reflexivity|].
  split; [exact I|].
  assert (E : exists w',
             service_participants {[5]} two_clients
               (calm_world [(5, [Shutdown])] 1)
             = Done (mk_ctx [new_entry 6] 1) w')
    by (eexists; vm_compute; reflexivity).
  destruct E as [w' E]. exists w'. split; [exact E|].
  assert (Hready : socket (new_entry 5) ∈ ({[5]} : fd_set))
    by (apply elem_of_singleton; reflexivity).
  destruct (service_participants_drops_hung_up {[5]} two_clients
              (calm_world [(5, [Shutdown])] 1) 0 (new_entry 5) _ _
              two_clients_distinct eq_refl Hready I E)
    as (_ & closes & calls & Ht & Hin & _).
  exists closes, calls. split; [exact Ht|exact Hin].
Defined.

(** ** The capacity of a buffer *)

Lemma extract_node_capacity i onset ctx w p ctx' w' :
  participant_list_base ctx !! i = Some p ->
  extract i onset ctx w = Done ctx' w' ->
  exists p',
    participant_list_base ctx' !! i = Some p'
    /\ max_length p' = max_length p.
Proof.
  intros Hi. unfold extract. rewrite Hi.
  destruct (memmem _ _ _ _) as [k|]; [|intros [= <- <-]; eauto].
  rewrite share_data_spec. cbn [fst snd set_base participant_list_base].
  rewrite list_lookup_imap, Hi. cbn [fmap option_fmap option_map].
  intros [= <- <-]. eexists. split.
  - cbn. apply list_lookup_insert_eq. rewrite length_imap.
    eapply lookup_lt_Some; exact Hi.
  - cbn. now destruct (after_send_fields w i p) as (_ & _ & _ & ->).
Qed.

Lemma grow_capacity p w p1 :
  well_formed p -> grow p w = Some p1 -> max_length p <= max_length p1.
Proof.
  intros Hwf. rewrite (grow_cases p w Hwf).
  destruct Hwf as (_ & _ & Hcap). apply capacity_ok_range in Hcap.
  pose proof (wanted_cases p) as Hw. unfold buffer_chunk_size in *.
  destruct (wanted p =? max_length p); [intros [= <-]; lia|].
  destruct (_ && _); [|discriminate]. intros [= <-]. cbn. lia.
Qed.

Lemma parse_data_body_node_capacity i ctx w p n ctx' w' :
  well_formed p ->
  participant_list_base ctx !! i = Some p ->
  parse_data_body i ctx w = Done (n, ctx') w' ->
  exists p',
    participant_list_base ctx' !! i = Some p'
    /\ max_length p <= max_length p'.
Proof.
  intros Hwf Hi. unfold parse_data_body. rewrite Hi.
  destruct (grow p w) as [p1|] eqn:Hg; [|discriminate].
  apply (grow_capacity _ _ _ Hwf) in Hg.
  destruct (recv _ _ w) as [[[numRead errno] data] w1]. cbn zeta.
  assert (Hi' : forall q,
            participant_list_base
              (set_base ctx (<[i := q]> (participant_list_base ctx))) !! i
            = Some q).
  { intros q. cbn. apply list_lookup_insert_eq.
    eapply lookup_lt_Some; exact Hi. }
  destruct (numRead =? -1).
  { destruct (errno =? EAGAIN); intros [= <- <- <-]; eexists;
      (split; [apply Hi'|exact Hg]). }
  destruct (numRead =? 0).
  { intros [= <- <- <-]; eexists; (split; [apply Hi'|exact Hg]). }
  destruct (extract _ _ _ w1) as [ctx2 w2| | |] eqn:He; try discriminate.
  intros [= <- <- <-].
  destruct (extract_node_capacity _ _ _ _ _ _ _ (Hi' _) He) as (p' & Hp' & Hm).
  exists p'. split; [exact Hp'|]. rewrite Hm. exact Hg.
Qed.

Lemma parse_data_loop_capacity fuel i ctx w p ctx' w' :
  Forall well_formed (participant_list_base ctx) ->
  participant_list_base ctx !! i = Some p ->
  parse_data_loop fuel i ctx w = Done ctx' w' ->
  exists p',
    participant_list_base ctx' !! i = Some p'
    /\ max_length p <= max_length p'.
Proof.
  revert ctx w p. induction fuel as [|fuel IH]; intros ctx w p Hall Hi; cbn;
    [discriminate|].
  destruct (parse_data_body i ctx w) as [[n ctx1] w1| | |] eqn:Hb;
    try discriminate.
  pose proof (Forall_lookup_1 _ _ _ _ Hall Hi) as Hp.
  destruct (parse_data_body_node_capacity _ _ _ _ _ _ _ Hp Hi Hb)
    as (p1 & Hi1 & Hle).
  pose proof (parse_data_body_well_formed _ _ _ _ _ _ Hall Hb) as Hall1.
  destruct (n >? 0).
  - intros Hloop.
    destruct (IH _ _ _ Hall1 Hi1 Hloop) as (p2 & Hi2 & Hle2).
    exists p2. split; [exact Hi2|lia].
  - intros [= <- <-]. eauto.
Qed.

(** A drain cycle never shrinks a buffer: the capacity of the node it
    drains is afterwards at least what it was, also after messages have been
    taken out of the buffer, and the capacity of every other node is what it
    was. *)
Theorem parse_data_capacity_never_shrinks (i : nat)
    (ctx : server_context_type) (w : world)
    (ctx' : server_context_type) (w' : world) :
  Forall well_formed (participant_list_base ctx) ->
  parse_data i ctx w = Done ctx' w' ->
  forall j p,
    participant_list_base ctx !! j = Some p ->
    exists p',
      participant_list_base ctx' !! j = Some p'
      /\ max_length p <= max_length p'
      /\ (j <> i -> max_length p' = max_length p).
Proof.
  intros Hall Hp j p Hj. unfold parse_data in Hp.
  destruct (participant_list_base ctx !! i) as [pi|] eqn:Hi; [|discriminate].
  destruct (decide (j = i)) as [->|Hne].
  - rewrite Hi in Hj. injection Hj as ->.
    destruct (parse_data_loop_capacity _ _ _ _ _ _ _ Hall Hi Hp)
      as (p' & Hp' & Hle).
    exists p'. split; [exact Hp'|]. split; [exact Hle|contradiction].
  - apply (parse_data_loop_frame _ _ _ _ _ _ _ Hi) in Hp
      as (Hlen & Hnodes & _).
    destruct (lookup_lt_is_Some_2 (participant_list_base ctx') j) as [p' Hp'].
    { rewrite Hlen. eapply lookup_lt_Some; exact Hj. }
    destruct (Hnodes j p p' Hne Hj Hp') as (_ & _ & _ & Hm).
    exists p'. split; [exact Hp'|]. split; [lia|now intros _].
Qed.

Lemma parse_data_capacity_never_shrinks_witness :
  Forall well_formed (participant_list_base one_client)
  /\ exists ctx' w' p',
       parse_data 0 one_client
         (calm_world [(5, [Bytes (bytes_of "a</event>b")])] 10)
       = Done ctx' w'
       /\ participant_list_base ctx' !! 0%nat = Some p'
       /\ 0 <= max_length p'.
Proof.
  split; [exact one_client_well_formed|].
  assert (E : exists ctx' w',
             parse_data 0 one_client
               (calm_world [(5, [Bytes (bytes_of "a</event>b")])] 10)
             = Done ctx' w') by (do 2 eexists; reflexivity).
  destruct E as (ctx' & w' & E).
  destruct (parse_data_capacity_never_shrinks 0 one_client _ ctx' w'
              one_client_well_formed E 0%nat (new_entry 5) eq_refl)
    as (p' & Hp' & Hle & _).
  exists ctx', w', p'. split; [exact E|]. split; [exact Hp'|exact Hle].
Defined.

(** ** The window of the search *)

(** What the search and the cut of [extract] do, by the offsets from
    [onset] on at which the terminator lies within the valid bytes: with
    none, nothing is sent and nothing changes; otherwise the message runs to
    the end of the first of them.  Offsets before [onset] are not looked
    at. *)
Lemma extract_window i onset ctx w p :
  participant_list_base ctx !! i = Some p ->
  well_formed p ->
  0 <= onset <= length p ->
  ((forall j, (Z.to_nat onset <= j)%nat ->
              ~ occurs_at terminator_string (valid_bytes p) j) ->
   extract i onset ctx w = Done ctx w)
  /\ (forall j,
        (Z.to_nat onset <= j)%nat ->
        occurs_at terminator_string (valid_bytes p) j ->
        (forall j', (Z.to_nat onset <= j' < j)%nat ->
                    ~ occurs_at terminator_string (valid_bytes p) j') ->
        let size := Z.of_nat j + terminator_length in
        exists ctx',
          extract i onset ctx w
          = Done ctx' (share_data (buffer p) size ctx w).2
          /\ (forall k q,
                send_call (buffer p) size w k q
                = SysSend (socket q) (take (Z.to_nat size) (valid_bytes p))
                          (send_outcome w (sends w + k)))
          /\ valid_bytes <$> participant_list_base ctx' !! i
             = Some (drop (Z.to_nat size) (valid_bytes p))).
Proof.
  intros Hi Hwf Honset.
  pose proof Hwf as (Hlen & Hblock & Hcap).
  pose proof (capacity_ok_range _ Hcap) as Hrange.
  assert (Hne : terminator_string <> []) by discriminate.
  pose proof (memmem_cases (buffer p) terminator_string (Z.to_nat onset)
                (length p - onset) ltac:(lia) Hne) as Hcases.
  rewrite terminator_string_length in Hcases.
  assert (Hvalid : forall j,
            occurs_at terminator_string (valid_bytes p) j
            <-> occurs_at terminator_string (buffer p) j
                /\ Z.of_nat j + terminator_length <= length p).
  { intros j. unfold valid_bytes. rewrite occurs_at_take by exact Hne.
    rewrite <- terminator_string_length. split; intros [? ?]; split;
      try assumption; lia. }
  destruct (memmem _ _ _ _) as [k|] eqn:Hm.
  - destruct Hcases as (Hocc & Hfit & Hfirst).
    assert (Hfound : occurs_at terminator_string (valid_bytes p)
                       (Z.to_nat onset + k)).
    { apply Hvalid. split; [exact Hocc|]. lia. }
    split.
    { intros Hnone. exfalso. apply (Hnone (Z.to_nat onset + k)%nat); [lia|].
      exact Hfound. }
    intros j Hge Hocc_j Hfirst_j. cbn zeta.
    assert (Hj : j = (Z.to_nat onset + k)%nat).
    { destruct (Nat.lt_trichotomy j (Z.to_nat onset + k))
        as [Hlt|[Heq|Hgt]]; [|exact Heq|].
      - exfalso. apply (Hfirst (j - Z.to_nat onset)%nat); [lia|].
        replace (Z.to_nat onset + (j - Z.to_nat onset))%nat with j by lia.
        now apply Hvalid in Hocc_j as [? _].
      - exfalso. apply (Hfirst_j (Z.to_nat onset + k)%nat); [lia|].
        exact Hfound. }
    rewrite <- (size_t_small (length p - onset)) in Hm by lia.
    destruct (extract_found i _ ctx w p k Hwf Hi Honset Hm)
      as (_ & Hsize & Hcall & ctx' & He & Hkept).
    cbn zeta in *.
    replace (onset + Z.of_nat k + terminator_length)
      with (Z.of_nat j + terminator_length) in * by lia.
    exists ctx'. split; [exact He|]. split; [|exact Hkept].
    intros k0 q. rewrite Hcall. unfold valid_bytes.
    rewrite take_take, Nat.min_l by lia. reflexivity.
  - split.
    + intros _. unfold extract. rewrite Hi.
      rewrite size_t_small by lia. now rewrite Hm.
    + intros j Hge Hocc_j _. exfalso.
      apply Hvalid in Hocc_j as [Hocc_j Hfit_j].
      apply (Hcases (j - Z.to_nat onset)%nat); [lia|].
      replace (Z.to_nat onset + (j - Z.to_nat onset))%nat with j by lia.
      exact Hocc_j.
Qed.

(** C3, as amended: in a turn of the drain loop whose receive brings [n]
    bytes to a node that held [length p], the search looks at the offsets
    from [max 0 (length p - terminator_length)] on, and at no other: the
    terminator is found at the first of these offsets at which it lies
    within the [length p + n] valid bytes, the offset
    [length p - terminator_length] itself included, and the message sent
    runs to its end; when it lies at none of them nothing is sent, whatever
    lies before. *)
Theorem search_starts_a_terminator_back (i : nat) (ctx : server_context_type)
    (w : world) (p : participant_list_struct) (bs : list byte)
    (q : list arrival) :
  participant_list_base ctx !! i = Some p ->
  well_formed p ->
  grow p w <> None ->
  pending w (socket p) = Bytes bs :: q ->
  bs <> [] ->
  exists n p3 w1,
    0 < n <= Z.of_nat (List.length bs)
    /\ length p3 = length p + n
    /\ valid_bytes p3 = valid_bytes p ++ take (Z.to_nat n) bs
    /\ trace w1 = SysRecv (socket p) n :: trace w
    /\ let onset := Z.to_nat (Z.max 0 (length p - terminator_length)) in
       let ctx1 := set_base ctx (<[i := p3]> (participant_list_base ctx)) in
       ((forall j, (onset <= j)%nat ->
                   ~ occurs_at terminator_string (valid_bytes p3) j) ->
        parse_data_body i ctx w = Done (n, ctx1) w1)
       /\ (forall j,
             (onset <= j)%nat ->
             occurs_at terminator_string (valid_bytes p3) j ->
             (forall j', (onset <= j' < j)%nat ->
                         ~ occurs_at terminator_string (valid_bytes p3) j') ->
             let size := Z.of_nat j + terminator_length in
             exists ctx',
               parse_data_body i ctx w
               = Done (n, ctx') (share_data (buffer p3) size ctx1 w1).2
               /\ (forall k r,
                     send_call (buffer p3) size w1 k r
                     = SysSend (socket r)
                         (take (Z.to_nat size) (valid_bytes p3))
                         (send_outcome w1 (sends w1 + k)))
               /\ valid_bytes <$> participant_list_base ctx' !! i
                  = Some (drop (Z.to_nat size) (valid_bytes p3))).
Proof.
  intros Hi Hwf Hg Hq Hbs.
  destruct (grow p w) as [p1|] eqn:Hgrow; [clear Hg|contradiction].
  pose proof (grow_well_formed _ _ _ Hwf Hgrow) as Hwf1.
  pose proof Hwf1 as (Hlen1 & Hblock1 & Hcap1).
  pose proof (grow_room _ _ _ Hwf Hgrow) as Hroom.
  pose proof (grow_fields _ _ _ Hgrow) as (Hs & _ & Hl).
  pose proof (grow_valid_bytes _ _ _ Hwf Hgrow) as Hkeep.
  pose proof (capacity_ok_range _ Hcap1) as Hrange.
  unfold buffer_chunk_size in *.
  assert (Hlenbs : (0 < List.length bs)%nat)
    by (destruct bs; [contradiction|cbn; lia]).
  set (room := Z.to_nat (max_length p1 - length p1)).
  set (data := if (List.length bs <=? room)%nat then bs else take room bs).
  set (n := Z.of_nat (List.length data)).
  assert (Hn : 0 < n <= max_length p1 - length p1
               /\ n <= Z.of_nat (List.length bs)).
  { unfold n, data. destruct (Nat.leb_spec (List.length bs) room);
      [|rewrite length_take]; lia. }
  assert (Hdata : take (Z.to_nat n) bs = data).
  { unfold n, data. rewrite Nat2Z.id.
    destruct (Nat.leb_spec (List.length bs) room);
      [apply firstn_all|].
    rewrite length_take. f_equal. lia. }
  assert (Hr : exists w1,
            recv (socket p1) (max_length p1 - length p1) w = (n, 0, data, w1)).
  { unfold recv. rewrite Hs, Hq, size_t_small by lia. fold room.
    unfold n, data. destruct (Nat.leb_spec (List.length bs) room).
    - rewrite wrap32_small by lia. eauto.
    - rewrite wrap32_small, length_take by lia.
      replace (room `min` List.length bs)%nat with room by lia. eauto. }
  destruct Hr as [w1 Hr].
  set (p3 := set_length (set_buffer p1 (store (buffer p1) (length p1) data))
                        (wrap32 (length p1 + n))).
  assert (Hwf3 : well_formed p3).
  { apply (proj2 (received_well_formed _ _ _ _ _ _ _ Hwf1 Hr)). lia. }
  assert (Hlen3 : length p3 = length p + n).
  { unfold p3. cbn. rewrite wrap32_small by lia. lia. }
  assert (Hvalid3 : valid_bytes p3 = valid_bytes p ++ data).
  { unfold p3. rewrite (received_valid_bytes p1 data n Hwf1 eq_refl)
      by lia. now rewrite Hkeep. }
  exists n, p3, w1.
  split; [lia|]. split; [exact Hlen3|].
  split; [rewrite Hdata; exact Hvalid3|].
  split; [rewrite <- Hs; exact (recv_trace _ _ _ _ _ _ _ Hr)|].
  cbn zeta.
  set (ctx1 := set_base ctx (<[i := p3]> (participant_list_base ctx))).
  assert (Hi1 : participant_list_base ctx1 !! i = Some p3).
  { cbn. apply list_lookup_insert_eq. eapply lookup_lt_Some; exact Hi. }
  assert (Hbody : parse_data_body i ctx w
                  = match extract i (Z.max 0 (length p - terminator_length))
                            ctx1 w1 with
                    | Done ctx' w' => Done (n, ctx') w'
                    | Abort w' => Abort w'
                    | Fault => Fault
                    | OutOfFuel => OutOfFuel
                    end).
  { unfold parse_data_body. rewrite Hi, Hgrow, Hr. cbn zeta.
    destruct (Z.eqb_spec n (-1)) as [?|_]; [lia|].
    destruct (Z.eqb_spec n 0) as [?|_]; [lia|].
    assert (Ho : onset_of (length p1)
                 = Z.max 0 (length p - terminator_length))
      by (rewrite onset_of_max, Hl by lia; reflexivity).
    cbn [length set_buffer]. rewrite Ho. reflexivity. }
  assert (Honset : 0 <= Z.max 0 (length p - terminator_length) <= length p3)
    by (unfold terminator_length; lia).
  destruct (extract_window i _ ctx1 w1 p3 Hi1 Hwf3 Honset) as [Hnone Hfound].
  split.
  - intros Hno. rewrite Hbody, (Hnone Hno). reflexivity.
  - intros j Hge Hocc Hfirst.
    destruct (Hfound j Hge Hocc Hfirst) as (ctx' & He & Hcall & Hkept).
    exists ctx'. rewrite Hbody, He. now repeat split.
Qed.

Lemma search_starts_a_terminator_back_witness :
  participant_list_base (mk_ctx [nine_buffered] 1) !! 0%nat
  = Some nine_buffered
  /\ well_formed nine_buffered
  /\ grow nine_buffered (calm_world [(5, [Bytes (bytes_of "c")])] 9) <> None
  /\ pending (calm_world [(5, [Bytes (bytes_of "c")])] 9)
             (socket nine_buffered)
     = [Bytes (bytes_of "c")]
  /\ bytes_of "c" <> []
  /\ Z.to_nat (Z.max 0 (length nine_buffered - terminator_length)) = 1%nat
  /\ occurs_at terminator_string (bytes_of "b</event>c") 1
  /\ exists p3 w1 ctx',
       valid_bytes p3 = bytes_of "b</event>c"
       /\ parse_data_body 0 (mk_ctx [nine_buffered] 1)
            (calm_world [(5, [Bytes (bytes_of "c")])] 9)
          = Done (1, ctx') (share_data (buffer p3) 9 (mk_ctx [p3] 1) w1).2
       /\ (forall k r,
             send_call (buffer p3) 9 w1 k r
             = SysSend (socket r) (bytes_of "b</event>")
                       (send_outcome w1 (sends w1 + k)))
       /\ valid_bytes <$> participant_list_base ctx' !! 0%nat
          = Some (bytes_of "c").
Proof.
  split; [reflexivity|]. split; [exact nine_buffered_well_formed|].
  split; [discriminate|]. split; [reflexivity|]. split; [discriminate|].
  split; [reflexivity|]. split; [reflexivity|].
  destruct (search_starts_a_terminator_back 0 (mk_ctx [nine_buffered] 1)
              (calm_world [(5, [Bytes (bytes_of "c")])] 9) nine_buffered
              (bytes_of "c") [] eq_refl nine_buffered_well_formed
              ltac:(discriminate) eq_refl ltac:(discriminate))
    as (n & p3 & w1 & Hn & _ & Hvalid & _ & _ & Hfound).
  assert (Hn1 : n = 1) by (cbn in Hn; lia). subst n.
  assert (Hbytes : valid_bytes p3 = bytes_of "b</event>c")
    by (rewrite Hvalid; reflexivity).
  assert (Ho : Z.to_nat (Z.max 0 (length nine_buffered - terminator_length))
               = 1%nat) by reflexivity.
  cbv zeta in Hfound. rewrite Ho in Hfound.
  destruct (Hfound 1%nat) as (ctx' & Hbody & Hcall & Hkept).
  - lia.
  - rewrite Hbytes. reflexivity.
  - intros j' Hj'. lia.
  - exists p3, w1, ctx'. split; [exact Hbytes|]. split; [exact Hbody|].
    split.
    + intros k r. rewrite Hcall, Hbytes. reflexivity.
    + rewrite Hkept, Hbytes. reflexivity.
Defined.

(** ** Closed participants along a service pass *)










(** A node flagged by a failed [send] of another node's drain cycle is
    received from when its own turn of the pass comes: with both sockets
    ready and every [send] failing, the cycle of the first node flags both
    nodes, and the loop still receives from the second. *)
Lemma flagged_participant_is_drained :
  match parse_data 0 two_clients
          (calm_world [(5, [Bytes (bytes_of "x</event>")]);
                       (6, [Bytes (bytes_of "y")])] (-1))
  with
  | Done ctx1 w1 =>
      closed <$> participant_list_base ctx1 = [true; true]
      /\ match service_loop 1 1 {[5; 6]} ctx1 w1 with
         | Done ctx2 w2 =>
             rev (trace w2)
             = [SysRecv 5 9;
                SysSend 5 (bytes_of "x</event>") (-1);
                SysSend 6 (bytes_of "x</event>") (-1);
                SysRecv 5 (-1);
                SysRecv 6 1;
                SysRecv 6 (-1)]
         | _ => False
         end
  | _ => False
  end.
Proof. vm_compute. repeat split. Qed.
